(** * FigurA11y: the suggestion-integration engine

    A shallow embedding of the description editor's completion flow and
    accept/reject flow, of the async request hook, of the iterative Q&A
    client and of the event logger, with the properties of the specification
    stated over them; and of what they rest on and what uses them: the
    prompt builder, the guideline service, the request handlers of the
    suggestion endpoints, the view of an async request, the list of
    questions shown and the base64 input of the PDF conversion, with
    properties read off the code.

    The editor is a TipTap/ProseMirror editor.  The document operations the
    source calls ([descendants], [textBetween], [nodeSize], [delete],
    [replaceRange], [paragraph.create]) are embedded in [Module ProseMirror]
    as the library defines them on its document tree, with the schema of
    StarterKit that the editor is set up with; [editor.getText()] is
    embedded in [Module TipTap]. *)

From Stdlib Require Import String Ascii List Arith Bool Lia.
Import ListNotations.
Set Warnings "-register-all".
Open Scope string_scope.
Open Scope list_scope.
Open Scope nat_scope.

(** ** JavaScript strings *)

Module JS.

(** [s.slice(a, b)] for [0 <= a] and [0 <= b]: the code units from index
    [a] up to, not including, index [b]; both ends are clipped to the
    string and the result is empty when [b <= a]. *)
Definition slice (a b : nat) (s : string) : string := substring a (b - a) s.

(** Truthiness of a string: only the empty string is falsy. *)
Definition truthy_string (s : string) : bool := negb (String.length s =? 0).

(** Truthiness of a number (no NaN in this development): only [0] is falsy. *)
Definition truthy_num (n : nat) : bool := negb (n =? 0).

End JS.

(** ** The ProseMirror document model *)

Module ProseMirror.

(** A mark instance; only the mark type's name is observed. *)
Record Mark : Type := mkMark { markName : string }.

Inductive AttrValue : Type :=
| AttrNum (n : nat)
| AttrStr (s : string).

Definition Attrs : Type := list (string * AttrValue).

Fixpoint getAttr (name : string) (attrs : Attrs) : option AttrValue :=
  match attrs with
  | [] => None
  | (k, v) :: rest => if String.eqb k name then Some v else getAttr name rest
  end.

(** A node is either a text node (its [text] and marks) or a node of a
    named type with attributes, marks and a fragment of children. *)
Inductive Node : Type :=
| TextNode (text : string) (marks : list Mark)
| ElemNode (type : string) (attrs : Attrs) (marks : list Mark) (content : list Node).

Definition Fragment : Type := list Node.

(** The schema is StarterKit's.  Of its node types, the hard break and the
    horizontal rule have no content (leaves); text and hard break are
    inline. *)
Definition leafType (name : string) : bool :=
  String.eqb name "hardBreak" || String.eqb name "horizontalRule".

Definition inlineType (name : string) : bool :=
  String.eqb name "text" || String.eqb name "hardBreak".

Definition typeName (n : Node) : string :=
  match n with
  | TextNode _ _ => "text"
  | ElemNode name _ _ _ => name
  end.

Definition isText (n : Node) : bool :=
  match n with TextNode _ _ => true | ElemNode _ _ _ _ => false end.

Definition isLeaf (n : Node) : bool :=
  match n with TextNode _ _ => true | ElemNode name _ _ _ => leafType name end.

Definition isBlock (n : Node) : bool :=
  match n with TextNode _ _ => false | ElemNode name _ _ _ => negb (inlineType name) end.

Definition nodeContent (n : Node) : Fragment :=
  match n with TextNode _ _ => [] | ElemNode _ _ _ c => c end.

Definition nodeAttrs (n : Node) : Attrs :=
  match n with TextNode _ _ => [] | ElemNode _ a _ _ => a end.

Definition nodeMarks (n : Node) : list Mark :=
  match n with TextNode _ m => m | ElemNode _ _ m _ => m end.

(** [node.text]: defined on text nodes only. *)
Definition nodeText (n : Node) : option string :=
  match n with TextNode t _ => Some t | ElemNode _ _ _ _ => None end.

(** [fragment.firstChild] *)
Definition firstChild (f : Fragment) : option Node :=
  match f with [] => None | n :: _ => Some n end.

(** [node.nodeSize]: the length of a text node, 1 for a leaf, and the size
    of the content plus the two tokens of the node otherwise. *)
Fixpoint nodeSize (n : Node) : nat :=
  match n with
  | TextNode t _ => String.length t
  | ElemNode name _ _ c =>
      if leafType name then 1 else 2 + list_sum (map nodeSize c)
  end.

(** [fragment.size] *)
Definition fragmentSize (l : Fragment) : nat := list_sum (map nodeSize l).

Definition contentSize (n : Node) : nat := fragmentSize (nodeContent n).

(** [node.textContent]: the concatenation of all text below the node. *)
Fixpoint textContent (n : Node) : string :=
  match n with
  | TextNode t _ => t
  | ElemNode _ _ _ c => String.concat "" (map textContent c)
  end.

(** Documents the library builds: no text node is empty, a leaf has no
    content, and the children of a node are either all blocks or all
    inline (every content expression of the schema is of one kind). *)
Fixpoint valid (n : Node) : bool :=
  match n with
  | TextNode t _ => negb (String.length t =? 0)
  | ElemNode name _ _ c =>
      if leafType name then
        match c with [] => true | _ :: _ => false end
      else
        (forallb isBlock c || forallb (fun x => negb (isBlock x)) c)
        && forallb valid c
  end.

Section NodesBetween.

Context {S : Type}.

(** The callback of a traversal, with the state it closes over made
    explicit: it receives the node and its absolute position and returns
    the new state together with its JavaScript result ([false] exactly
    when it returned [false]). *)
Variable f : Node -> nat -> S -> S * bool.

(** [fragment.nodesBetween(from, to, f, nodeStart)] on the content of
    [parent]: every child that overlaps the range is passed to [f], and
    its content is traversed unless [f] returned [false] or it is empty.
    The loop goes on to the next sibling in either case. *)
Fixpoint nodesBetween (parent : Node) (from to nodeStart : nat) (s : S) : S :=
  match parent with
  | TextNode _ _ => s
  | ElemNode _ _ _ content =>
      (fix loop (l : list Node) (pos : nat) (s : S) {struct l} : S :=
         match l with
         | [] => s
         | child :: rest =>
             if pos <? to then
               let end_ := pos + nodeSize child in
               let s1 :=
                 if from <? end_ then
                   let (s', descend) := f child (nodeStart + pos) s in
                   if descend && negb (contentSize child =? 0) then
                     let start := pos + 1 in
                     nodesBetween child
                       (Nat.max 0 (from - start))
                       (Nat.min (contentSize child) (to - start))
                       (nodeStart + start) s'
                   else s'
                 else s in
               loop rest end_ s1
             else s
         end) content 0 s
  end.

(** [node.descendants(f)] *)
Definition descendants (doc : Node) (s : S) : S :=
  nodesBetween doc 0 (contentSize doc) 0 s.

End NodesBetween.

(** [node.textBetween(from, to, blockSeparator)], without a [leafText]
    argument and for a schema whose leaves declare none.  The callback's
    state is the text so far and the [separated] flag: text is cut to the
    range and appended, and a block that comes after text or after a leaf
    puts the separator in front of what follows. *)
Definition textBetweenStep (from to : nat) (blockSeparator : string)
    (node : Node) (pos : nat) (st : string * bool) : (string * bool) * bool :=
  let (text, separated) := st in
  match node with
  | TextNode t _ =>
      ((text ++ JS.slice (Nat.max from pos - pos) (to - pos) t,
        negb (JS.truthy_string blockSeparator)), true)
  | ElemNode _ _ _ _ =>
      if isLeaf node then
        ((text, negb (JS.truthy_string blockSeparator)), true)
      else if negb separated && isBlock node then
        ((text ++ blockSeparator, true), true)
      else (st, true)
  end%string.

Definition textBetween (doc : Node) (from to : nat) (blockSeparator : string) : string :=
  fst (nodesBetween (textBetweenStep from to blockSeparator) doc from to 0 ("", true)).

(** *** Replacing a range

    The effect of a replace step on the document is
    [doc.replace(from, to, slice)].  The embedding covers closed slices (no
    open sides, as the source builds them) between two positions of the
    same parent node; any other call is outside it ([None]).  The step
    that [tr.delete(from, to)] and [tr.replaceRange(from, to, slice)] make
    of their arguments, fitted to the schema, follows below. *)

Definition mark_eqb (a b : Mark) : bool := String.eqb (markName a) (markName b).

Fixpoint marks_eqb (a b : list Mark) : bool :=
  match a, b with
  | [], [] => true
  | x :: a', y :: b' => mark_eqb x y && marks_eqb a' b'
  | _, _ => false
  end.

(** [last.isText && last.sameMarkup(first)]: two text nodes with the same
    set of marks. *)
Definition joinableText (last first : Node) : option Node :=
  match last, first with
  | TextNode t1 m1, TextNode t2 m2 =>
      if marks_eqb m1 m2 then Some (TextNode (t1 ++ t2) m1) else None
  | _, _ => None
  end.

(** [fragment.append(other)]: concatenation, joining the text nodes that
    meet at the seam when they have the same markup. *)
Fixpoint append (a b : Fragment) : Fragment :=
  match a with
  | [] => b
  | [last] =>
      match b with
      | [] => a
      | first :: b' =>
          match joinableText last first with
          | Some j => j :: b'
          | None => last :: b
          end
      end
  | x :: a' => x :: append a' b
  end.

(** The children before and after a position of the fragment itself: a
    boundary between two children, or a place inside a text child, which
    is then cut in two.  A position inside another child is not one of
    this fragment. *)
Fixpoint splitAt (p : nat) (l : Fragment) : option (Fragment * Fragment) :=
  match p with
  | 0 => Some ([], l)
  | _ =>
      match l with
      | [] => None
      | c :: rest =>
          if nodeSize c <=? p then
            match splitAt (p - nodeSize c) rest with
            | Some (b, a) => Some (c :: b, a)
            | None => None
            end
          else
            match c with
            | TextNode t m =>
                Some ([TextNode (JS.slice 0 p t) m],
                      TextNode (JS.slice p (String.length t) t) m :: rest)
            | ElemNode _ _ _ _ => None
            end
      end
  end.

(** The flat case of a replace: both positions in this fragment. *)
Definition replaceFlat (from to : nat) (ins l : Fragment) : option Fragment :=
  match splitAt from l, splitAt to l with
  | Some (before, _), Some (_, after) => Some (append (append before ins) after)
  | _, _ => None
  end.

(** [node.replace(from, to, new Slice(ins, 0, 0))], positions counted from
    the start of the node's content: when one child holds both positions
    strictly inside itself the replacement takes place in that child, and
    the child is replaced by the result; otherwise it is the flat case. *)
Fixpoint replace (n : Node) (from to : nat) (ins : Fragment) : option Node :=
  match n with
  | TextNode _ _ => None
  | ElemNode nm a mk c =>
      match
        (fix inner (l : list Node) (pos : nat) : option (option Fragment) :=
           match l with
           | [] => None
           | child :: rest =>
               if (pos <? from) && (to <? pos + nodeSize child) && negb (isLeaf child)
               then
                 Some (match replace child (from - pos - 1) (to - pos - 1) ins with
                       | Some child' => Some (child' :: rest)
                       | None => None
                       end)
               else
                 match inner rest (pos + nodeSize child) with
                 | Some (Some rest') => Some (Some (child :: rest'))
                 | Some None => Some None
                 | None => None
                 end
           end) c 0
      with
      | Some (Some c') => Some (ElemNode nm a mk c')
      | Some None => None
      | None =>
          if from <=? to then
            match replaceFlat from to ins c with
            | Some c' => Some (ElemNode nm a mk c')
            | None => None
            end
          else None
      end
  end.

(** *** The schema

    StarterKit's node types with the content each of them takes, and the
    marks a node allows on its children. *)

(** The group [block].  The paragraph is its first type, the one a
    missing block is filled with. *)
Definition blockGroup (name : string) : bool :=
  existsb (String.eqb name)
    ["paragraph"; "blockquote"; "bulletList"; "codeBlock"; "heading";
     "horizontalRule"; "orderedList"].

(** The content expressions of the schema: [block+] (the document and the
    block quote), [inline*] (paragraph and heading), [listItem+] (the two
    lists), [paragraph block*] (the list item), [text*] (the code block)
    and no content (the leaves). *)
Inductive ContentExpr : Type :=
| BlockPlus
| InlineStar
| ListItemPlus
| ParagraphBlockStar
| TextStar
| NoContent.

Definition contentExpr (name : string) : option ContentExpr :=
  if String.eqb name "doc" || String.eqb name "blockquote" then Some BlockPlus
  else if String.eqb name "paragraph" || String.eqb name "heading" then Some InlineStar
  else if String.eqb name "bulletList" || String.eqb name "orderedList"
  then Some ListItemPlus
  else if String.eqb name "listItem" then Some ParagraphBlockStar
  else if String.eqb name "codeBlock" then Some TextStar
  else if leafType name then Some NoContent
  else None.

Definition inBlockGroup (n : Node) : bool :=
  match n with TextNode _ _ => false | ElemNode name _ _ _ => blockGroup name end.

(** The group [inline]: text and the hard break. *)
Definition inInlineGroup (n : Node) : bool :=
  match n with TextNode _ _ => true | ElemNode name _ _ _ => String.eqb name "hardBreak" end.

Definition hasType (name : string) (n : Node) : bool :=
  match n with TextNode _ _ => false | ElemNode nm _ _ _ => String.eqb nm name end.

Definition isEmpty {A : Type} (l : list A) : bool :=
  match l with [] => true | _ :: _ => false end.

(** [contentMatch.matchFragment(content)] ends in a valid end state. *)
Definition matchFragment (e : ContentExpr) (content : Fragment) : bool :=
  match e with
  | BlockPlus => negb (isEmpty content) && forallb inBlockGroup content
  | InlineStar => forallb inInlineGroup content
  | ListItemPlus => negb (isEmpty content) && forallb (hasType "listItem") content
  | ParagraphBlockStar =>
      match content with
      | first :: rest => hasType "paragraph" first && forallb inBlockGroup rest
      | [] => false
      end
  | TextStar => forallb isText content
  | NoContent => isEmpty content
  end.

Definition matchesContent (name : string) (content : Fragment) : bool :=
  match contentExpr name with
  | Some e => matchFragment e content
  | None => false
  end.

(** [type.allowedMarks(marks)]: no node type of the schema but the code
    block names marks, so that a type with inline content allows every
    mark and a type with block content, or with none, allows no mark on
    its children; the code block allows none either. *)
Definition allowedMarks (name : string) (marks : list Mark) : list Mark :=
  match contentExpr name with
  | Some InlineStar => marks
  | _ => []
  end.

(** [type.allowsMarks(marks)] *)
Definition allowsMarks (name : string) (marks : list Mark) : bool :=
  match contentExpr name with
  | Some InlineStar => true
  | _ => isEmpty marks
  end.

(** [type.validContent(content)] *)
Definition validContent (name : string) (content : Fragment) : bool :=
  matchesContent name content
  && forallb (fun child => allowsMarks name (nodeMarks child)) content.

(** [node.check()]: the node and everything below it conforms to the
    schema; a text node is not empty. *)
Fixpoint conforms (n : Node) : bool :=
  match n with
  | TextNode t _ => negb (String.length t =? 0)
  | ElemNode name _ _ c => validContent name c && forallb conforms c
  end.

(** [node.mark(marks)] *)
Definition mark (marks : list Mark) (n : Node) : Node :=
  match n with
  | TextNode t _ => TextNode t marks
  | ElemNode nm a _ c => ElemNode nm a marks c
  end.

(** [type.create(attrs, content, marks)] of the paragraph type: the node
    gets the attributes its type declares, each with the value given or
    with its default, and an attribute the type does not declare is
    dropped.  StarterKit's paragraph declares none. *)
Definition paragraphAttrs : Attrs := [].

Definition computeAttrs (declared given : Attrs) : Attrs :=
  map (fun d => (fst d, match getAttr (fst d) given with
                        | Some v => v
                        | None => snd d
                        end)) declared.

Definition createParagraph (attrs : Attrs) (content : Fragment) (marks : list Mark) : Node :=
  ElemNode "paragraph" (computeAttrs paragraphAttrs attrs) marks content.

(** *** The steps of a transaction

    [tr.replace], [tr.delete] and [tr.replaceRange] for a closed slice
    and a range between two positions of the same parent node, where the
    library either finds that the slice fits as it is, or places the
    nodes of the slice at the depth of the range with the marks the parent
    allows, or fills a parent that the deletion leaves without the content
    its type asks for.  Whatever else the fitting can do (wrap, open or
    drop nodes, widen the range) is outside the embedding ([None]). *)

Module Transform.

(** The node that has both positions between its children: its type,
    its children before [from] and its children after [to]. *)
Fixpoint parentAt (n : Node) (from to : nat) : option (string * Fragment * Fragment) :=
  match n with
  | TextNode _ _ => None
  | ElemNode nm _ _ c =>
      match
        (fix inner (l : list Node) (pos : nat)
           : option (option (string * Fragment * Fragment)) :=
           match l with
           | [] => None
           | child :: rest =>
               if (pos <? from) && (to <? pos + nodeSize child) && negb (isLeaf child)
               then Some (parentAt child (from - pos - 1) (to - pos - 1))
               else inner rest (pos + nodeSize child)
           end) c 0
      with
      | Some found => found
      | None =>
          if from <=? to then
            match splitAt from c, splitAt to c with
            | Some (before, _), Some (_, after) => Some (nm, before, after)
            | _, _ => None
            end
          else None
      end
  end.

(** [fitsTrivially($from, $to, slice)], that is
    [$from.parent.canReplace($from.index(), $to.index(), slice.content)]:
    the content of the parent with the slice in the range matches the
    parent's content expression, and the parent allows the marks of the
    nodes of the slice. *)
Definition fitsTrivially (parent : string) (before ins after : Fragment) : bool :=
  matchesContent parent (before ++ ins ++ after)
  && forallb (fun x => allowsMarks parent (nodeMarks x)) ins.

(** What [contentMatch.fillBefore] puts where a block is missing:
    [paragraph.createAndFill()]. *)
Definition filler : Node := ElemNode "paragraph" [] [] [].

(** [new Fitter($from, $to, slice).fit()], the slice of the step it
    returns.  The nodes of the slice are placed in the parent of the range,
    each with [node.mark(type.allowedMarks(node.marks))]; with nothing to
    place, a parent of content [block+] that is left empty is closed with
    the filler. *)
Definition fit (parent : string) (before ins after : Fragment) : option Fragment :=
  match map (fun x => mark (allowedMarks parent (nodeMarks x)) x) ins with
  | [] =>
      match contentExpr parent, before, after with
      | Some BlockPlus, [], [] => Some [filler]
      | _, _, _ => None
      end
  | placed =>
      if matchesContent parent (before ++ placed ++ after) then Some placed else None
  end.

(** [replaceStep(doc, from, to, slice)], the slice of the step. *)
Definition replaceStep (doc : Node) (from to : nat) (ins : Fragment) : option Fragment :=
  match parentAt doc from to with
  | Some (parent, before, after) =>
      if fitsTrivially parent before ins after then Some ins
      else fit parent before ins after
  | None => None
  end.

(** [tr.replace(from, to, slice)]: no step for an empty range and an
    empty slice; the document after the step otherwise. *)
Definition replace (doc : Node) (from to : nat) (ins : Fragment) : option Node :=
  if (from =? to) && isEmpty ins then Some doc
  else
    match replaceStep doc from to ins with
    | Some slice => ProseMirror.replace doc from to slice
    | None => None
    end.

(** [tr.delete(from, to)] *)
Definition delete (doc : Node) (from to : nat) : option Node := replace doc from to [].

(** The types with block content: every node above a child of theirs has
    block content too. *)
Definition blockContent (name : string) : bool :=
  match contentExpr name with
  | Some BlockPlus | Some ListItemPlus | Some ParagraphBlockStar => true
  | _ => false
  end.

(** [tr.replaceRange(from, to, slice)] for a slice that is not empty.
    A slice that fits as it is gives the step at once.  Otherwise the
    library looks, from the parent of the range upwards, for a node that
    can take the first node of the slice with its marks
    ([canReplaceWith]), and replaces a range made wider there; when the
    parent has block content and that first node is marked, no node above
    the range takes it, and the library falls back to
    [tr.replace(from, to, slice)]. *)
Definition replaceRange (doc : Node) (from to : nat) (ins : Fragment) : option Node :=
  match ins, parentAt doc from to with
  | first :: _, Some (parent, before, after) =>
      if fitsTrivially parent before ins after then ProseMirror.replace doc from to ins
      else if blockContent parent && negb (isEmpty (nodeMarks first))
      then replace doc from to ins
      else None
  | _, _ => None
  end.

End Transform.

End ProseMirror.

(** ** The plain text of the editor *)

Module TipTap.
Import ProseMirror.

Definition lineFeed : string := String (ascii_of_nat 10) "".

(** [getTextSerializersFromSchema(schema)]: the node types that declare
    [renderText].  Of StarterKit's types the hard break does, as a line
    feed. *)
Definition textSerializer (name : string) : option string :=
  if String.eqb name "hardBreak" then Some lineFeed else None.

(** The callback of [getTextBetween].  A node with a serializer is
    rendered by it (the parent is never null below the start node); text
    is cut to the range; any other block that comes after text puts the
    separator in front of what follows. *)
Definition getTextBetweenStep (from to : nat) (blockSeparator : string)
    (node : Node) (pos : nat) (st : string * bool) : (string * bool) * bool :=
  let (text, separated) := st in
  match textSerializer (typeName node) with
  | Some rendered =>
      if isBlock node && negb separated
      then ((text ++ blockSeparator ++ rendered, true), true)
      else ((text ++ rendered, separated), true)
  | None =>
      match node with
      | TextNode t _ =>
          ((text ++ JS.slice (Nat.max from pos - pos) (to - pos) t, false), true)
      | ElemNode _ _ _ _ =>
          if isBlock node && negb separated
          then ((text ++ blockSeparator, true), true)
          else (st, true)
      end
  end%string.

(** [getTextBetween(startNode, { from, to }, { blockSeparator, textSerializers })] *)
Definition getTextBetween (startNode : Node) (from to : nat) (blockSeparator : string)
  : string :=
  fst (nodesBetween (getTextBetweenStep from to blockSeparator) startNode from to 0
         ("", true)).

(** [editor.getText()]: the text of the whole document, with the default
    separator of two line feeds and the serializers of the schema. *)
Definition getText (doc : Node) : string :=
  getTextBetween doc 0 (contentSize doc) (lineFeed ++ lineFeed)%string.

End TipTap.

(** ** The completion flow: the text around the cursor and the endpoint *)

Module Completion.
Import ProseMirror.

(** What the flow reads of the editor: [editor.state.doc] and
    [editor.state.selection.$head.pos]. *)
Record Editor : Type := mkEditor { doc : Node; head : nat }.

(** The block separator the flow passes, two line feeds. *)
Definition LF : ascii := ascii_of_nat 10.
Definition blockSeparator : string := String LF (String LF "").

(** [editor?.state.selection.$head.pos] *)
Definition cursorPosition (editor : option Editor) : option nat :=
  option_map head editor.

(** [cursorPosition ? editor?.state.doc.textBetween(0, cursorPosition, sep) : ""] *)
Definition textBeforeCursor (editor : option Editor) : string :=
  match editor with
  | Some e =>
      if JS.truthy_num (head e)
      then textBetween (doc e) 0 (head e) blockSeparator
      else ""
  | None => ""
  end.

(** [cursorPosition ?
       editor?.state.doc.textBetween(cursorPosition, editor.state.doc.nodeSize - 2, sep) : ""] *)
Definition textAfterCursor (editor : option Editor) : string :=
  match editor with
  | Some e =>
      if JS.truthy_num (head e)
      then textBetween (doc e) (head e) (nodeSize (doc e) - 2) blockSeparator
      else ""
  | None => ""
  end.

Definition description (editor : option Editor) : string :=
  (textBeforeCursor editor ++ textAfterCursor editor)%string.

(** The URL the request is posted to:
    [description.length ? "/api/completion" : "/api/summary"]. *)
Definition endpoint (editor : option Editor) : string :=
  if JS.truthy_num (String.length (description editor))
  then "/api/completion"
  else "/api/summary".

(** The plain text of the document in the editor, as the component reads
    it: [editor?.getText() || ""], with an editor. *)
Definition plainText (d : Node) : string := TipTap.getText d.

End Completion.


(** ** The accept/reject flow *)

Module AcceptReject.
Import ProseMirror.

Inductive Action : Type := confirm | delete.

(** What the handler reads of the activated DOM element. *)
Record HTMLElement : Type := mkElement { tagName : string; innerText : string }.

(** The component state the handler reads and writes: the editor's
    document ([None] while there is no editor), the data of the completion
    request, and the popover's target and visibility. *)
Record Component : Type := mkComponent {
  editorDoc : option Node;
  completionData : option string;
  popoverTarget : option HTMLElement;
  popoverShown : bool
}.

(** [acceptSuggestion(target)]: only an [H6] element opens the popover. *)
Definition acceptSuggestion (target : HTMLElement) (c : Component) : Component :=
  if negb (String.eqb (tagName target) "H6") then c
  else mkComponent (editorDoc c) (completionData c) (Some target) true.

(** The test of the lookup:
    [node.type.name === "heading" && node.attrs.level === 6 &&
     node.content.firstChild?.text === localText]. *)
Definition isProvisional (localText : string) (node : Node) : bool :=
  String.eqb (typeName node) "heading" &&
  match getAttr "level" (nodeAttrs node) with
  | Some (AttrNum 6) => true
  | _ => false
  end &&
  match firstChild (nodeContent node) with
  | Some child =>
      match nodeText child with
      | Some t => String.eqb t localText
      | None => false
      end
  | None => false
  end.

(** The callback passed to [doc.descendants]; its state is the pair of
    variables [from] and [to] it assigns. *)
Definition lookupStep (localText : string) (node : Node) (pos : nat)
    (ft : nat * nat) : (nat * nat) * bool :=
  if isProvisional localText node
  then ((pos, pos + nodeSize node), false)
  else (ft, true).

Definition lookup (localText : string) (doc : Node) : nat * nat :=
  descendants (lookupStep localText) doc (0, 0).

(** [state.schema.nodes.paragraph.create({ class: "generated" },
      state.schema.text(localText), [state.schema.marks.generated.create()])]:
    the node as it is created, before it is fitted into the document. *)
Definition generatedParagraph (localText : string) : Node :=
  createParagraph [("class", AttrStr "generated")] [TextNode localText []]
                  [mkMark "generated"].

(** A transaction's single operation, as the handler builds it. *)
Inductive Operation : Type :=
| ReplaceRange (from to : nat) (slice : Fragment)
| Delete (from to : nat).

(** The transaction the handler dispatches on this document, if any. *)
Definition transaction (action : Action) (localText : string) (doc : Node)
  : option Operation :=
  let (from, to) := lookup localText doc in
  if negb (from =? to) then
    Some match action with
         | confirm => ReplaceRange from to [generatedParagraph localText]
         | delete => Delete from to
         end
  else None.

(** [editor.view.dispatch(tr)]: the document after the transaction, which
    holds the step that [tr.replaceRange(from, to, slice)], respectively
    [tr.delete(from, to)], made of its arguments. *)
Definition dispatch (doc : Node) (op : Operation) : option Node :=
  match op with
  | ReplaceRange from to slice => Transform.replaceRange doc from to slice
  | Delete from to => Transform.delete doc from to
  end.

(** [handleEditorAction(action)].  The result is [None] only when the
    dispatched operation is outside the embedded part of the library. *)
Definition handleEditorAction (action : Action) (c : Component) : option Component :=
  match popoverTarget c with
  | None => Some c
  | Some target =>
      let localText := innerText target in
      match editorDoc c with
      | None => Some c
      | Some doc =>
          match
            match transaction action localText doc with
            | Some op => dispatch doc op
            | None => Some doc
            end
          with
          | Some doc' => Some (mkComponent (Some doc') None None false)
          | None => None
          end
      end
  end.

End AcceptReject.

(** ** The async request hook *)

Module AsyncRequest.

Section Hook.

(** The type of the data and its JavaScript truthiness. *)
Variable T : Type.
Variable truthy : T -> bool.

(** The dependencies are compared by reference ([Object.is]). *)
Variable Dep : Type.
Variable same : Dep -> Dep -> bool.

(** The four pieces of state of the hook; [data] and [error] are
    [null] when [None]. *)
Record State : Type := mkState {
  shouldFetch : bool;
  data : option T;
  loading : bool;
  error : option string
}.

Definition initial (defaultValue : option T) (autoFetch : bool) : State :=
  mkState autoFetch defaultValue false None.

Definition truthyData (d : option T) : bool :=
  match d with Some v => truthy v | None => false end.

(** How the promise returned by [apiCall] settles. *)
Inductive Outcome : Type :=
| Resolved (response : T)
| Rejected (responseError : string).

(** What [fetchData] does, in order. *)
Inductive Effect : Type :=
| SetLoading (b : bool)
| SetError (e : option string)
| SetData (d : option T)
| CallApi (seed : option T).

Definition genericError : string := "An error occurred while fetching the data.".

(** [data || undefined] *)
Definition seedOf (d : option T) : option T :=
  if truthyData d then d else None.

Definition fetchData (apiCall : option T -> Outcome) (st : State) : list Effect :=
  SetLoading true ::
  SetError None ::
  CallApi (seedOf (data st)) ::
  match apiCall (seedOf (data st)) with
  | Resolved response => [SetData (Some response)]
  | Rejected _ => [SetError (Some genericError)]
  end ++
  [SetLoading false].

Definition applyEffect (st : State) (e : Effect) : State :=
  match e with
  | SetLoading b => mkState (shouldFetch st) (data st) b (error st)
  | SetError e => mkState (shouldFetch st) (data st) (loading st) e
  | SetData d => mkState (shouldFetch st) d (loading st) (error st)
  | CallApi _ => st
  end.

Definition run (st : State) (es : list Effect) : State := fold_left applyEffect es st.

(** *** The effect

    [useEffect(() => { if (shouldFetch && !data) fetchData(); }, dependencies)]:
    React runs the effect after the first render and after every render
    whose dependency array differs in some element from the one of the
    render before. *)
Fixpoint sameDeps (a b : list Dep) : bool :=
  match a, b with
  | [], [] => true
  | x :: a', y :: b' => same x y && sameDeps a' b'
  | _, _ => false
  end.

(** [previous] is [None] on the first render. *)
Definition effectRuns (previous : option (list Dep)) (dependencies : list Dep) : bool :=
  match previous with
  | None => true
  | Some deps => negb (sameDeps deps dependencies)
  end.

(** Whether the render in state [st] with these dependencies calls
    [fetchData] from the effect. *)
Definition autoFetches (previous : option (list Dep)) (dependencies : list Dep)
    (st : State) : bool :=
  effectRuns previous dependencies && (shouldFetch st && negb (truthyData (data st))).

End Hook.

Arguments mkState {T}.
Arguments shouldFetch {T}.
Arguments data {T}.
Arguments loading {T}.
Arguments error {T}.
Arguments Resolved {T}.
Arguments Rejected {T}.
Arguments SetLoading {T}.
Arguments SetError {T}.
Arguments SetData {T}.
Arguments CallApi {T}.
Arguments fetchData {T}.
Arguments applyEffect {T}.
Arguments run {T}.
Arguments seedOf {T}.
Arguments truthyData {T}.
Arguments autoFetches {T} truthy {Dep} same.
Arguments effectRuns {Dep}.
Arguments sameDeps {Dep}.

End AsyncRequest.

(** ** The iterative Q&A client *)

Module OpenAIClient.

Record FunctionCall : Type := mkFunctionCall {
  fc_name : string;
  fc_arguments : string
}.

Record Message : Type := mkMessage {
  role : string;
  content : option string;
  name : option string;
  function_call : option FunctionCall
}.

(** The part of the request that matters here: the message list sent and
    the number of choices asked for. *)
Record Request : Type := mkRequest {
  model : string;
  messages : list Message;
  n : nat
}.

(** How [openai.chat.completions.create] settles: with the message of the
    first choice, or rejected. *)
Inductive Completion : Type :=
| Choice (message : Message)
| ApiError.

Section GetQA.

Variable QAPair : Type.
(** [JSON.parse], [None] when it throws, and [JSON.stringify]. *)
Variable JSON_parse : string -> option QAPair.
Variable JSON_stringify : QAPair -> string.
(** The service. *)
Variable create : Request -> Completion.

Inductive Result : Type :=
| Returned (responses : list QAPair) (messages : list Message)
| Threw.

Definition initialMessages (systemPrompt prompt : string)
    (messageHistory : option (list Message)) : list Message :=
  match messageHistory with
  | Some history =>
      map (fun message =>
             if String.eqb (role message) "system"
             then mkMessage (role message) (Some systemPrompt) (name message)
                            (function_call message)
             else message) history
      ++ [mkMessage "user" (Some prompt) None None]
  | None =>
      [mkMessage "system" (Some systemPrompt) None None;
       mkMessage "user" (Some prompt) None None]
  end.

Definition functionResult (fc : FunctionCall) (parsedArgs : QAPair) : Message :=
  mkMessage "function" (Some (JSON_stringify parsedArgs)) (Some (fc_name fc)) None.

(** The loop [while (true && responses.length < n_qa)], by the number of
    pairs still missing.  The requests issued so far are collected in
    [trace], each with the message list as it was when sent. *)
Fixpoint loop (modelName : string) (missing : nat) (messageList : list Message)
    (responses : list QAPair) (trace : list Request) : list Request * Result :=
  match missing with
  | 0 => (trace, Returned responses messageList)
  | S missing' =>
      let request := mkRequest modelName messageList 1 in
      match create request with
      | ApiError => (trace ++ [request], Threw)
      | Choice message =>
          match function_call message with
          | Some fc =>
              match JSON_parse (fc_arguments fc) with
              | Some parsedArgs =>
                  loop modelName missing'
                       (messageList ++ [message; functionResult fc parsedArgs])
                       (responses ++ [parsedArgs])
                       (trace ++ [request])
              | None => (trace ++ [request], Threw)
              end
          | None => (trace ++ [request], Returned responses messageList)
          end
      end
  end.

Definition getQA (systemPrompt prompt : string) (messageHistory : option (list Message))
    (n_qa : nat) (modelName : string) : list Request * Result :=
  loop modelName n_qa (initialMessages systemPrompt prompt messageHistory) [] [].

End GetQA.

Arguments Returned {QAPair}.
Arguments Threw {QAPair}.

End OpenAIClient.

(** ** Rounds of the Q&A client

    What a run of [getQA] looks like, for the statement about it. *)

Module Rounds.
Import OpenAIClient.

Section Rounds.

Variable QAPair : Type.
Variable JSON_parse : string -> option QAPair.
Variable JSON_stringify : QAPair -> string.
Variable create : Request -> Completion.
Variable modelName : string.

(** A round trip that the service rejects, or that returns a function
    call whose arguments are not valid JSON: the call of [getQA] throws
    there, there being no handler for either. *)
Definition fails (r : Request) : Prop :=
  create r = ApiError
  \/ exists message fc,
       create r = Choice message /\ function_call message = Some fc
       /\ JSON_parse (fc_arguments fc) = None.

(** The rounds from the message list [ms] on: their requests, the pairs
    they gave and the message list at the end.  Each request asks for one
    choice and carries the list as it stands.  A round that is followed by
    another returned a function call with arguments that parse, and the
    list of the next round is the list of this one with two messages
    appended: the message returned, and a message of role "function" whose
    content is the parsed arguments serialized again and whose name is the
    name of the function called.  A round that returned no function call,
    or that failed, is the last and gives no pair. *)
Inductive Sequential : list Message -> list Request -> list QAPair -> list Message -> Prop :=
| Seq_done ms : Sequential ms [] [] ms
| Seq_stop ms message :
    create (mkRequest modelName ms 1) = Choice message ->
    function_call message = None ->
    Sequential ms [mkRequest modelName ms 1] [] ms
| Seq_fail ms :
    fails (mkRequest modelName ms 1) ->
    Sequential ms [mkRequest modelName ms 1] [] ms
| Seq_step ms message fc parsedArgs trace responses ms' :
    create (mkRequest modelName ms 1) = Choice message ->
    function_call message = Some fc ->
    JSON_parse (fc_arguments fc) = Some parsedArgs ->
    Sequential (ms ++ [message;
                       mkMessage "function" (Some (JSON_stringify parsedArgs))
                                 (Some (fc_name fc)) None])
               trace responses ms' ->
    Sequential ms (mkRequest modelName ms 1 :: trace) (parsedArgs :: responses) ms'.

(** The last request of a trace was answered without a function call. *)
Definition endsUnstructured (trace : list Request) : Prop :=
  exists r message,
    last (map Some trace) None = Some r
    /\ create r = Choice message /\ function_call message = None.

(** The last request of a trace failed. *)
Definition endsFailed (trace : list Request) : Prop :=
  exists r, last (map Some trace) None = Some r /\ fails r.

(** How a run of the loop for [missing] more pairs ends, [taken] being
    the pairs it starts with: with all the pairs asked for, at a response
    without a function call, or at a round trip that failed. *)
Definition Ended (missing : nat) (taken : list QAPair) (result : Result QAPair)
    (trace : list Request) (responses : list QAPair) (ms' : list Message) : Prop :=
  (result = Returned (taken ++ responses) ms'
   /\ length trace = missing /\ length responses = missing)
  \/ (result = Returned (taken ++ responses) ms'
      /\ length responses < missing /\ length trace = S (length responses)
      /\ endsUnstructured trace)
  \/ (result = Threw
      /\ length responses < missing /\ length trace = S (length responses)
      /\ endsFailed trace).

End Rounds.

End Rounds.

(** ** The event logger *)

Module EventLogger.
Import ProseMirror.

(** A store entry: the record, if any, and its [id], if it has one. *)
Record Entity : Type := mkEntity { id : option nat }.

(** [x?.id] *)
Definition idOf (x : option Entity) : option nat :=
  match x with Some e => id e | None => None end.

Definition truthyId (i : option nat) : bool :=
  match i with Some k => JS.truthy_num k | None => false end.

(** A step as the handler reads it: [from], [to] and [slice] may each be
    undefined (a mark step has no slice, an attribute step no range). *)
Record Step : Type := mkStep {
  from : option nat;
  to : option nat;
  slice : option Fragment
}.

Record Transaction : Type := mkTransaction {
  steps : list Step;
  pasteMeta : bool
}.

(** [transaction.docChanged]: the transaction has steps. *)
Definition docChanged (tr : Transaction) : bool := negb (length (steps tr) =? 0).

Inductive EventData : Type :=
| KeyData (key : string)
| PasteData (text : string).

Record Event : Type := mkEvent {
  event_type : string;
  event_data : EventData;
  event_time : nat;
  user_id : option nat;
  figure_id : option nat;
  description_id : option nat;
  condition : string;
  study_session : bool
}.

(** The handler a render registers closes over the identifiers and the
    condition of that render. *)
Record Handler : Type := mkHandler {
  h_user : option nat;
  h_figure : option nat;
  h_description : option nat;
  h_condition : string
}.

(** What [logEvent] hands to [makeEvent]. *)
Record InitialEvent : Type := mkInitialEvent {
  initial_type : string;
  initial_data : EventData;
  initial_time : nat
}.

(** [makeEvent]: the event with the identifiers, the condition and a
    constant [study_session: true] added. *)
Definition makeEvent (h : Handler) (event : InitialEvent) : Event :=
  mkEvent (initial_type event) (initial_data event) (initial_time event)
          (h_user h) (h_figure h) (h_description h) (h_condition h) true.

(** [logEvent]: the event that is passed to [DBClient.addEvent]; [now]
    stands for [new Date()]. *)
Definition logEvent (h : Handler) (now : nat) (eventName : string) (eventData : EventData)
  : Event :=
  makeEvent h (mkInitialEvent eventName eventData now).

Definition opt_nat_eqb (a b : option nat) : bool :=
  match a, b with
  | Some x, Some y => x =? y
  | None, None => true
  | _, _ => false
  end.

(** [step.slice?.content?.size] *)
Definition sliceSize (s : Step) : option nat := option_map fragmentSize (slice s).

(** The body of [transaction.steps.forEach]. *)
Definition onStep (h : Handler) (now : nat) (s : Step) : list Event :=
  if opt_nat_eqb (from s) (to s) && match from s with Some _ => true | None => false end
  then [logEvent h now "key_press" (KeyData "Input")]
  else if negb (opt_nat_eqb (from s) (to s))
          && match sliceSize s with Some 0 => true | _ => false end
  then [logEvent h now "key_press" (KeyData "Backspace or Delete")]
  else if negb (opt_nat_eqb (from s) (to s))
          && match sliceSize s with Some (S _) => true | _ => false end
  then [logEvent h now "key_press" (KeyData "Input")]
  else [].

(** The paste branch, on the last step. *)
Definition onPaste (h : Handler) (now : nat) (tr : Transaction) : list Event :=
  match last (map Some (steps tr)) None with
  | Some lastStep =>
      match sliceSize lastStep with
      | Some (S _) =>
          let pastedText :=
            match firstChild (match slice lastStep with Some c => c | None => [] end) with
            | Some node => textContent node
            | None => ""
            end in
          if JS.truthy_string pastedText
          then [logEvent h now "paste_action" (PasteData pastedText)]
          else []
      | _ => []
      end
  | None => []
  end.

(** The listener of [update]. *)
Definition onUpdate (h : Handler) (now : nat) (tr : Transaction) : list Event :=
  if docChanged tr then
    if pasteMeta tr then onPaste h now tr
    else flat_map (onStep h now) (steps tr)
  else [].

(** The editor, as far as the logger is concerned: its [update] listeners. *)
Record Editor : Type := mkEditor { updateListeners : list Handler }.

Record Stores : Type := mkStores {
  user : option Entity;
  figure : option Entity;
  description : option Entity
}.

(** One call of the hook: the editor afterwards ([None] when there is no
    editor). *)
Definition useEventLogger (st : Stores) (theEditor : option Editor) (cond : string)
  : option Editor :=
  match theEditor with
  | None => None
  | Some ed =>
      if negb (truthyId (idOf (user st))) || negb (truthyId (idOf (figure st)))
         || negb (truthyId (idOf (description st)))
      then Some ed
      else
        (* theEditor.off("update"); theEditor.on("update", ...) *)
        Some (mkEditor [mkHandler (idOf (user st)) (idOf (figure st))
                                   (idOf (description st)) cond])
  end.

(** The events forwarded to [DBClient.addEvent] when the editor emits
    [update] for a transaction. *)
Definition emitUpdate (ed : Editor) (now : nat) (tr : Transaction) : list Event :=
  flat_map (fun h => onUpdate h now tr) (updateListeners ed).

End EventLogger.

(** ** Classes of steps

    The classification of the event logger, for comparison with the code. *)

Module EventClasses.
Import ProseMirror EventLogger.

(** The classification of one step, in the words of the specification,
    for comparison with [onStep]: the key logged, if any. *)
Inductive Classified : Step -> option string -> Prop :=
| Classified_insert a sl :
    Classified (mkStep (Some a) (Some a) sl) (Some "Input")
| Classified_delete f t c :
    f <> t -> fragmentSize c = 0 ->
    Classified (mkStep f t (Some c)) (Some "Backspace or Delete")
| Classified_replace f t c :
    f <> t -> 0 < fragmentSize c ->
    Classified (mkStep f t (Some c)) (Some "Input")
| Classified_no_slice f t :
    f <> t -> Classified (mkStep f t None) None
| Classified_no_range sl :
    Classified (mkStep None None sl) None.

Definition keyEvents (h : Handler) (now : nat) (k : option string) : list Event :=
  match k with
  | Some key => [mkEvent "key_press" (KeyData key) now (h_user h) (h_figure h)
                         (h_description h) (h_condition h) true]
  | None => []
  end.

(** All three identifiers are there. *)
Definition complete (st : Stores) : bool :=
  truthyId (idOf (user st)) && truthyId (idOf (figure st))
  && truthyId (idOf (description st)).

End EventClasses.

(** ** Sample documents, a sample handler and a sample service *)

Module Examples.
Import ProseMirror.

Definition document (l : Fragment) : Node := ElemNode "doc" [] [] l.
Definition paragraph (t : string) : Node := ElemNode "paragraph" [] [] [TextNode t []].
Definition heading6 (t : string) : Node :=
  ElemNode "heading" [("level", AttrNum 6)] [] [TextNode t []].
Definition horizontalRule : Node := ElemNode "horizontalRule" [] [] [].

Definition aHandler : EventLogger.Handler :=
  EventLogger.mkHandler (Some 1) (Some 2) (Some 3) "full".

(** A service that asks three questions and then answers in plain text. *)
Definition three_questions (r : OpenAIClient.Request) : OpenAIClient.Completion :=
  if length (OpenAIClient.messages r) <? 8
  then OpenAIClient.Choice
         (OpenAIClient.mkMessage "assistant" None None
            (Some (OpenAIClient.mkFunctionCall "add_question" "{}")))
  else OpenAIClient.Choice (OpenAIClient.mkMessage "assistant" (Some "done") None None).

End Examples.

(** ** Places in a document

    Definitions used to state where a traversal finds a node and what a
    replacement leaves untouched. *)

Module Places.
Import ProseMirror.

Section FragmentTraversal.

Context {S : Type}.
Variable f : Node -> nat -> S -> S * bool.

(** The loop of [nodesBetween] over a list of children that starts at
    offset [pos] of its parent's content. *)
Fixpoint fragNodesBetween (l : Fragment) (pos from to nodeStart : nat) (s : S) : S :=
  match l with
  | [] => s
  | child :: rest =>
      if pos <? to then
        let end_ := pos + nodeSize child in
        let s1 :=
          if from <? end_ then
            let (s', descend) := f child (nodeStart + pos) s in
            if descend && negb (contentSize child =? 0) then
              let start := pos + 1 in
              nodesBetween f child
                (Nat.max 0 (from - start))
                (Nat.min (contentSize child) (to - start))
                (nodeStart + start) s'
            else s'
          else s in
        fragNodesBetween rest end_ from to nodeStart s1
      else s
  end.

End FragmentTraversal.

(** *** [textBetween] in relative positions

    The traversal of [textBetween] with every position counted from the
    start of the fragment at hand, for the proofs about it. *)

Section RelativeText.

Variable blockSeparator : string.

(** The callback on a node, [from] and [to] counted from its start. *)
Definition visitRel (from to : nat) (node : Node) (st : string * bool) : string * bool :=
  let (text, separated) := st in
  match node with
  | TextNode t _ =>
      ((text ++ JS.slice from to t)%string, negb (JS.truthy_string blockSeparator))
  | ElemNode _ _ _ _ =>
      if isLeaf node then (text, negb (JS.truthy_string blockSeparator))
      else if negb separated && isBlock node then ((text ++ blockSeparator)%string, true)
      else st
  end.

Fixpoint textNode (n : Node) (from to : nat) (st : string * bool) : string * bool :=
  match n with
  | TextNode _ _ => st
  | ElemNode _ _ _ c =>
      (fix loop (l : list Node) (from to : nat) (st : string * bool) {struct l}
         : string * bool :=
         match l with
         | [] => st
         | child :: rest =>
             if 0 <? to then
               loop rest (from - nodeSize child) (to - nodeSize child)
                 (if from <? nodeSize child then
                    if negb (contentSize child =? 0) then
                      textNode child (from - 1) (Nat.min (contentSize child) (to - 1))
                               (visitRel from to child st)
                    else visitRel from to child st
                  else st)
             else st
         end) c from to st
  end.

(** One child: the callback, then its content. *)
Definition textChild (child : Node) (from to : nat) (st : string * bool) : string * bool :=
  if from <? nodeSize child then
    if negb (contentSize child =? 0) then
      textNode child (from - 1) (Nat.min (contentSize child) (to - 1))
               (visitRel from to child st)
    else visitRel from to child st
  else st.

Fixpoint textFrag (l : Fragment) (from to : nat) (st : string * bool) : string * bool :=
  match l with
  | [] => st
  | child :: rest =>
      if 0 <? to then
        textFrag rest (from - nodeSize child) (to - nodeSize child)
                 (textChild child from to st)
      else st
  end.

End RelativeText.

(** A fragment with one hole: the hole stands between the children
    [before] and [after] of the fragment itself ([Here]), or in the content
    of one of its children ([Inside]). *)
Inductive FragCtx : Type :=
| Here (before after : Fragment)
| Inside (before : Fragment) (typeName : string) (attrs : Attrs) (marks : list Mark)
         (inner : FragCtx) (after : Fragment).

(** The fragment with [x] put in the hole. *)
Fixpoint plug (c : FragCtx) (x : Fragment) : Fragment :=
  match c with
  | Here before after => before ++ x ++ after
  | Inside before nm a mk inner after =>
      before ++ ElemNode nm a mk (plug inner x) :: after
  end.

(** The position of the hole, from the start of the fragment. *)
Fixpoint ctxPos (c : FragCtx) : nat :=
  match c with
  | Here before _ => fragmentSize before
  | Inside before _ _ _ inner _ => fragmentSize before + 1 + ctxPos inner
  end.

Definition shiftCtx (x : Node) (c : FragCtx) : FragCtx :=
  match c with
  | Here before after => Here (x :: before) after
  | Inside before nm a mk inner after => Inside (x :: before) nm a mk inner after
  end.

Section Matches.

Variable P : Node -> bool.

(** The nodes below [n] that a traversal meets and that pass the test
    [P], in the order of the traversal, each with the place where it
    stands.  The content of a node that passes is not searched. *)
Fixpoint matchesIn (n : Node) : list (FragCtx * Node) :=
  match n with
  | TextNode _ _ => []
  | ElemNode _ _ _ c =>
      (fix go (l : list Node) : list (FragCtx * Node) :=
         match l with
         | [] => []
         | child :: rest =>
             (if P child then [(Here [] rest, child)]
              else
                match child with
                | ElemNode nm a mk _ =>
                    map (fun ch => (Inside [] nm a mk (fst ch) rest, snd ch))
                        (matchesIn child)
                | TextNode _ _ => []
                end)
             ++ map (fun ch => (shiftCtx child (fst ch), snd ch)) (go rest)
         end) c
  end.

Fixpoint matchesFrag (l : Fragment) : list (FragCtx * Node) :=
  match l with
  | [] => []
  | child :: rest =>
      (if P child then [(Here [] rest, child)]
       else
         match child with
         | ElemNode nm a mk _ =>
             map (fun ch => (Inside [] nm a mk (fst ch) rest, snd ch))
                 (matchesIn child)
         | TextNode _ _ => []
         end)
      ++ map (fun ch => (shiftCtx child (fst ch), snd ch)) (matchesFrag rest)
  end.

End Matches.

(** The search of [replace] for the child that holds both positions,
    over a list of children that starts at offset [pos]. *)
Fixpoint replaceInner (from to : nat) (ins l : Fragment) (pos : nat)
  : option (option Fragment) :=
  match l with
  | [] => None
  | child :: rest =>
      if (pos <? from) && (to <? pos + nodeSize child) && negb (isLeaf child)
      then
        Some (match replace child (from - pos - 1) (to - pos - 1) ins with
              | Some child' => Some (child' :: rest)
              | None => None
              end)
      else
        match replaceInner from to ins rest (pos + nodeSize child) with
        | Some (Some rest') => Some (Some (child :: rest'))
        | Some None => Some None
        | None => None
        end
  end.

(** The search of [parentAt] for the child that holds both positions,
    over a list of children that starts at offset [pos]. *)
Fixpoint parentInner (from to : nat) (l : Fragment) (pos : nat)
  : option (option (string * Fragment * Fragment)) :=
  match l with
  | [] => None
  | child :: rest =>
      if (pos <? from) && (to <? pos + nodeSize child) && negb (isLeaf child)
      then Some (Transform.parentAt child (from - pos - 1) (to - pos - 1))
      else parentInner from to rest (pos + nodeSize child)
  end.

(** The node around the hole of a context that stands in the content of
    a node of type [top]: its type, and its children before and after the
    hole. *)
Fixpoint holeParent (top : string) (c : FragCtx) : string * Fragment * Fragment :=
  match c with
  | Here before after => (top, before, after)
  | Inside _ nm _ _ inner _ => holeParent nm inner
  end.

(** What a deletion leaves in the hole: the filler when the node in the
    hole was the only child of its parent, nothing otherwise. *)
Fixpoint leftInHole (c : FragCtx) : Fragment :=
  match c with
  | Here [] [] => [Transform.filler]
  | Here _ _ => []
  | Inside _ _ _ _ inner _ => leftInHole inner
  end.

(** The hole of a context is a place where no text is joined when [ins]
    is put there. *)
Fixpoint seam (c : FragCtx) (ins : Fragment) : Prop :=
  match c with
  | Here before after => append (append before ins) after = before ++ ins ++ after
  | Inside _ _ _ _ inner _ => seam inner ins
  end.

(** The range of a match, from the start of the fragment. *)
Definition rangeOf (m : FragCtx * Node) : nat * nat :=
  (ctxPos (fst m), ctxPos (fst m) + nodeSize (snd m)).

(** The node that begins first at or after position [p] of the content
    of [n], or the text node that [p] lies inside. *)
Fixpoint nextIn (n : Node) (p : nat) : option Node :=
  match n with
  | TextNode _ _ => None
  | ElemNode _ _ _ c =>
      (fix go (l : list Node) (p : nat) {struct l} : option Node :=
         match l with
         | [] => None
         | x :: rest =>
             if p =? 0 then Some x
             else if nodeSize x <=? p then go rest (p - nodeSize x)
             else
               match x with
               | TextNode _ _ => Some x
               | ElemNode _ _ _ _ =>
                   match nextIn x (p - 1) with
                   | Some y => Some y
                   | None => firstChild rest
                   end
               end
         end) c p
  end.

Fixpoint nextAt (l : Fragment) (p : nat) : option Node :=
  match l with
  | [] => None
  | x :: rest =>
      if p =? 0 then Some x
      else if nodeSize x <=? p then nextAt rest (p - nodeSize x)
      else
        match x with
        | TextNode _ _ => Some x
        | ElemNode _ _ _ _ =>
            match nextIn x (p - 1) with
            | Some y => Some y
            | None => firstChild rest
            end
        end
  end.

(** The node that begins last before position [p] of the content of
    [n]. *)
Fixpoint lastIn (n : Node) (p : nat) : option Node :=
  match n with
  | TextNode _ _ => None
  | ElemNode _ _ _ c =>
      (fix go (l : list Node) (p : nat) {struct l} : option Node :=
         match l with
         | [] => None
         | x :: rest =>
             if p =? 0 then None
             else
               match (if nodeSize x <? p then go rest (p - nodeSize x) else None) with
               | Some y => Some y
               | None =>
                   match lastIn x (p - 1) with
                   | Some y => Some y
                   | None => Some x
                   end
               end
         end) c p
  end.

Fixpoint lastBefore (l : Fragment) (p : nat) : option Node :=
  match l with
  | [] => None
  | x :: rest =>
      if p =? 0 then None
      else
        match (if nodeSize x <? p then lastBefore rest (p - nodeSize x) else None) with
        | Some y => Some y
        | None =>
            match lastIn x (p - 1) with
            | Some y => Some y
            | None => Some x
            end
        end
  end.

(** A block that has content of its own: a block that is not a leaf. *)
Definition opensBlock (n : Node) : bool := isBlock n && negb (isLeaf n).

(** Position [p] stands behind text or a leaf, with no block begun in
    between, and what begins next is a block with content of its own: the
    node that begins last before [p] is a text node or a leaf, and the node
    that begins first at or after [p] (the text node itself when [p] lies
    inside one) is a block that is not a leaf. *)
Definition separatorLost (l : Fragment) (p : nat) : bool :=
  match lastBefore l p, nextAt l p with
  | Some a, Some b => isLeaf a && opensBlock b
  | _, _ => false
  end.

(** No hard break and no horizontal rule in or below the node. *)
Fixpoint noLeaves (n : Node) : bool :=
  match n with
  | TextNode _ _ => true
  | ElemNode name _ _ c => negb (leafType name) && forallb noLeaves c
  end.

End Places.

(** ** Statements about one node

    What the inductions over the document tree prove of every node. *)

Module Invariants.
Import ProseMirror Places AcceptReject.

(** The state of the lookup after the matches [ms] of a fragment that
    starts at absolute position [off]: the range of the last of them. *)
Definition lastRange (off : nat) (ms : list (FragCtx * Node)) (st : nat * nat) : nat * nat :=
  fold_left (fun _ m => (off + fst (rangeOf m), off + snd (rangeOf m))) ms st.

(** The lookup below [n] ends with the range of the last match. *)
Definition lookupOk (localText : string) (n : Node) : Prop :=
  valid n = true ->
  forall to ns st, contentSize n <= to ->
    nodesBetween (lookupStep localText) n 0 to ns st
    = lastRange ns (matchesIn (isProvisional localText) n) st.

(** Every match below [n] stands where its context says and passes the
    test. *)
Definition placed (P : Node -> bool) (n : Node) : Prop :=
  forall c h, In (c, h) (matchesIn P n) -> nodeContent n = plug c [h] /\ P h = true.

(** When the only match below [n] is replaced by [x], no match is left. *)
Definition emptied (localText : string) (x n : Node) : Prop :=
  forall c h, matchesIn (isProvisional localText) n = [(c, h)] ->
    matchesFrag (isProvisional localText) (plug c [x]) = [].

(** The traversal of the library, with absolute positions, is the
    relative one: [from] is [gf] seen from this fragment, and [to] is
    [gt] seen from it, cut at some [M] behind the end of the fragment. *)
Definition bridged (sep : string) (n : Node) : Prop :=
  valid n = true ->
  forall gf gt ns M st, contentSize n <= M ->
    nodesBetween (textBetweenStep gf gt sep) n (gf - ns) (Nat.min M (gt - ns)) ns st
    = textNode sep n (gf - ns) (Nat.min M (gt - ns)) st.

(** The text of a traversal is appended to the text so far. *)
Definition accumulates (sep : string) (n : Node) : Prop :=
  forall from to t s,
    textNode sep n from to (t, s)
    = ((t ++ fst (textNode sep n from to ("", s)))%string,
       snd (textNode sep n from to ("", s))).

(** The separator that the text before and the text after a position
    lack between them: the one that a block with content of its own puts
    in front when a separator is due. *)
Definition lost (sep : string) (separated : bool) (next : Node) : string :=
  if negb separated && opensBlock next then sep else "".

(** The traversal up to position [p] followed by the traversal from [p]
    on, against the traversal of the whole content of [n]. *)
Definition splitOk (sep : string) (n : Node) : Prop :=
  conforms n = true ->
  forall p m s, p <= contentSize n -> contentSize n <= m ->
    match nextIn n p with
    | None =>
        textNode sep n 0 p ("", s) = textNode sep n 0 m ("", s)
        /\ forall tx, textNode sep n p m (tx, true) = (tx, true)
    | Some y =>
        fst (textNode sep n 0 m ("", s))
        = (fst (textNode sep n 0 p ("", s))
           ++ lost sep (snd (textNode sep n 0 p ("", s))) y
           ++ fst (textNode sep n p m ("", true)))%string
        /\ snd (textNode sep n 0 m ("", s)) = snd (textNode sep n p m ("", true))
    end.

(** The [separated] flag at the end of the traversal up to [p]: unset
    after text or a leaf, set after a block with content of its own. *)
Definition flagOk (sep : string) (n : Node) : Prop :=
  conforms n = true ->
  forall p s,
    snd (textNode sep n 0 p ("", s))
    = match lastIn n p with
      | Some y => negb (isLeaf y)
      | None => s
      end.

(** The two traversals of the text agree below a node without leaves. *)
Definition sameText (sep : string) (n : Node) : Prop :=
  noLeaves n = true ->
  forall gf gt from to ns st,
    nodesBetween (TipTap.getTextBetweenStep gf gt sep) n from to ns st
    = nodesBetween (textBetweenStep gf gt sep) n from to ns st.

End Invariants.

(** ** The prompt builder

    [makePrompt] of the prompt library: the user prompt is put together
    from the figure type, the system prompt and the metadata fields that
    are there, and the prompt spec lists what went in. *)

Module Prompt.

Definition nl : string := String (ascii_of_nat 10) "".

(** [x && x.length] for an optional string: it is there and not empty. *)
Definition given (x : option string) : bool :=
  match x with
  | Some s => JS.truthy_string s && JS.truthy_num (String.length s)
  | None => false
  end.

(** The template substitution of an optional string. *)
Definition interpolate (x : option string) : string :=
  match x with Some s => s | None => "undefined" end.

Record PromptResult : Type := mkPromptResult {
  fullSystemPrompt : string;
  prompt : string;
  promptSpec : list string
}.

Definition makePrompt (systemPrompt figuretypeDocFigure : string)
    (caption paragraph ocr datatable guidelines : option string) : PromptResult :=
  let prompt := ("FIGURE TYPE" ++ nl ++ figuretypeDocFigure ++ nl)%string in
  let promptSpec := ["figuretype"] in
  let fullSystemPrompt := systemPrompt in
  let prompt := (prompt ++ systemPrompt)%string in
  let '(prompt, promptSpec) :=
    if given caption
    then ((prompt ++ nl ++ "---" ++ nl ++ "CAPTION" ++ nl
           ++ interpolate caption ++ nl)%string,
          promptSpec ++ ["caption"])
    else (prompt, promptSpec) in
  let '(prompt, promptSpec) :=
    if given paragraph
    then ((prompt ++ nl ++ "---" ++ nl ++ "FIGURE MENTIONS FROM PAPER" ++ nl
           ++ interpolate paragraph ++ nl)%string,
          promptSpec ++ ["mentions"])
    else (prompt, promptSpec) in
  let '(prompt, promptSpec) :=
    if given ocr
    then ((prompt ++ nl ++ "---" ++ nl
           ++ "OCR TEXT RECOGNIZED FROM FIGURE (MAY CONTAIN ERRORS)" ++ nl
           ++ interpolate ocr ++ nl)%string,
          promptSpec ++ ["ocr"])
    else (prompt, promptSpec) in
  let '(prompt, promptSpec) :=
    if given datatable
    then ((prompt ++ nl ++ "---" ++ nl
           ++ "DATA TABLE EXTRACTED FROM FIGURE (MAY CONTAIN ERRORS)" ++ nl
           ++ interpolate datatable ++ nl)%string,
          promptSpec ++ ["datatable"])
    else (prompt, promptSpec) in
  let '(prompt, promptSpec) :=
    if given guidelines
    then ((prompt ++ nl
           ++ "---Please refer to the following guidelines when writing your description:"
           ++ nl ++ interpolate guidelines ++ nl ++ "---")%string,
          promptSpec ++ ["guidelines"])
    else (prompt, promptSpec) in
  mkPromptResult fullSystemPrompt prompt promptSpec.

End Prompt.

(** ** The parts of a prompt, by their names in the prompt spec *)

Module PromptParts.
Import Prompt.

(** The text that stands in the user prompt for an entry of the prompt
    spec, given the metadata fields. *)
Definition part (caption paragraph ocr datatable guidelines : option string)
    (label : string) : string :=
  (if String.eqb label "caption" then
     nl ++ "---" ++ nl ++ "CAPTION" ++ nl ++ interpolate caption ++ nl
   else if String.eqb label "mentions" then
     nl ++ "---" ++ nl ++ "FIGURE MENTIONS FROM PAPER" ++ nl ++ interpolate paragraph ++ nl
   else if String.eqb label "ocr" then
     nl ++ "---" ++ nl ++ "OCR TEXT RECOGNIZED FROM FIGURE (MAY CONTAIN ERRORS)" ++ nl
     ++ interpolate ocr ++ nl
   else if String.eqb label "datatable" then
     nl ++ "---" ++ nl ++ "DATA TABLE EXTRACTED FROM FIGURE (MAY CONTAIN ERRORS)" ++ nl
     ++ interpolate datatable ++ nl
   else if String.eqb label "guidelines" then
     nl ++ "---Please refer to the following guidelines when writing your description:"
     ++ nl ++ interpolate guidelines ++ nl ++ "---"
   else "")%string.

(** The order in which the parts are added. *)
Definition order : list string :=
  ["figuretype"; "caption"; "mentions"; "ocr"; "datatable"; "guidelines"].

(** [l] is [order] with some entries left out. *)
Fixpoint sublist (l whole : list string) : bool :=
  match l, whole with
  | [], _ => true
  | _ :: _, [] => false
  | x :: l', y :: whole' =>
      if String.eqb x y then sublist l' whole' else sublist l whole'
  end.

End PromptParts.

(** ** Base64 input of the PDF conversion *)

Module Base64.

(** [s.repeat(n)] *)
Fixpoint repeat_string (s : string) (n : nat) : string :=
  match n with
  | 0 => ""
  | S k => (s ++ repeat_string s k)%string
  end.

(** [ensureBase64Padding]; the length is the number of characters of an
    ASCII string, as base64 text is. *)
Definition ensureBase64Padding (data : string) : string :=
  let padLength := 4 - (String.length data mod 4) in
  (data ++ repeat_string "=" padLength)%string.

(** [s.split(sep)] for a separator of one character. *)
Fixpoint split (sep : ascii) (s : string) : list string :=
  match s with
  | EmptyString => [""]
  | String c rest =>
      if Ascii.eqb c sep then "" :: split sep rest
      else
        match split sep rest with
        | first :: others => String c first :: others
        | [] => [String c ""]
        end
  end.

Definition comma : ascii := ascii_of_nat 44.

(** [base64.split(",")[1] || base64] *)
Definition base64Data (base64 : string) : string :=
  match nth_error (split comma base64) 1 with
  | Some part => if JS.truthy_string part then part else base64
  | None => base64
  end.

(** The text that [base64ToPDFFile] hands to the decoder. *)
Definition decoderInput (base64 : string) : string :=
  ensureBase64Padding (base64Data base64).

(** The string has no comma. *)
Fixpoint noComma (s : string) : bool :=
  match s with
  | EmptyString => true
  | String c rest => negb (Ascii.eqb c comma) && noComma rest
  end.

End Base64.

(** ** The guideline service *)

Module Guidelines.

(** The nested guidelines: an object whose values are objects or arrays
    of strings. *)
Inductive Value : Type :=
| Arr (items : list string)
| Obj (members : Entries)
with Entries : Type :=
| ENil
| ECons (key : string) (value : Value) (rest : Entries).

Fixpoint entries (l : list (string * Value)) : Entries :=
  match l with
  | [] => ENil
  | (k, v) :: rest => ECons k v (entries rest)
  end.

Definition GUIDELINES : Entries := entries [
  ("general", Obj (entries [
    ("guidelines", Arr [
        "Descriptions for the same image may differ vastly depending on context.";
        "Survey the text surrounding an image to understand how it fits into the bigger picture.";
        "Use context to decide which basic concepts and terms have already been explained, and avoid repetition of explanations.";
        "Reference examples and details that the reader will understand (this includes objects and attributes used in the description).";
        "Include color only when it is significant (e.g. arbitrary colors assigned for elements of bar graphs and line charts need not be specified).";
        "Avoid introducing new concepts or terms.";
        "Don't interpret or analyze the material. Instead, allow readers to form their own opinions."
    ])
  ]));
  ("diagram", Obj (entries [
    ("illustrated", Obj (entries [
      ("sketch", Obj (entries [
        ("guidelines", Arr [
            "Traditional descriptions of purely visual images benefit from descriptions that are brief and specific";
            "Organize the description in a linear fashion, in this case, moving left to right and use bullet points or line breaks to aid in navigation";
            "Focus on the intent of the image and the surrounding text";
            "Check the sketch's caption. It is possible that the sketch may be decorative or only minimal additional information will be needed.";
            "If the caption is brief, or missing some key details, describe setting, subject, and action first, then include texture, orientation, and color, if relevant. This type of description is more widely used.";
            "All of the details may be relevant.";
            "The description should not introduce any new terms or concepts that are not discussed or defined in the surrounding text."
        ])
      ]))
    ]));
    ("relational", Obj (entries [
      ("venn", Obj (entries [
        ("guidelines", Arr [
            "Focus on the data in the Venn diagram, not on its appearance.";
            "Provide the data in brief statements.";
            "Give a summary if one is immediately apparent."
        ])
      ]));
      ("hierarchy_tree", Obj (entries [
        ("guidelines", Arr [
            "Set up the diagram by providing the title if there is one and a general overview, including its levels and parts.";
            "Approach the diagram from top to bottom and from left to right.";
            "Use a nested list.";
            "Any art or photos included in the diagram should be described if they are the only example of the concepts described in the diagram. For this particular image, the photos are labeled with the names of each level, so there is no need for additional description of the photos."
        ])
      ]));
      ("flow", Obj (entries [
        ("guidelines", Arr [
            "Flow charts are a common method of presenting information and one of the most difficult images to describe.";
            "Simple flow charts can be converted into nested lists with good results. Present the “boxes” as numbers and the possible transitions as sub-bullets.";
            "It is not necessary to describe the visual attributes of the charts, e.g. yellow boxes, curved arrows, etc., unless there is an explicit need such as a reference in the caption or mentions to these attributes.";
            "In some cases, the main process can begin in multiple different ways, with other processes that are closely related but not directly connected. The following guidelines pertain to such cases (those wich multiple start points).";
            "Begin with a brief overview, explaining the distinct elements of the image, including if it has multiple starting points, additional lists, etc.";
            "Describe each section of the flow chart linearly, using nested lists as an organizing tool.";
            "It may be helpful to explicitly state when the different lines merge.";
            "Some flow charts may also have multiple paths. If so, convert the flow chart into a single linear list, with the possible next steps of each box or item nested below it."
        ])
      ]))
    ]))
  ]));
  ("graph", Obj (entries [
    ("preamble", Obj (entries [
      ("guidelines", Arr [
          "For most graphs, give a brief description including the title and axis labels and mention trends not already described in the text.";
          "For simple charts, state the actual data points."
      ])
    ]));
    ("levels", Obj (entries [
      ("guidelines", Arr [
          "The following is a conceptual model for categorizing and comparing the semantic content conveyed by natural language descriptions of visualizations. You can refer to it to consider which attributes are relevant to include in the description.";
          "Level 1: chart type, encoding channels, title, axis ranges, labels, colors";
          "Level 2: descriptive statistics, extrema, outliers, correlations, point-wise comparisons";
          "Level 3: complex trends, pattern synthesis, exceptions, commonplace concepts"
      ])
    ]));
    ("bar", Obj (entries [
      ("guidelines", Arr [
          "Briefly describe the graph and give a summary if one is immediately apparent.";
          "Provide the title and axis labels.";
          "It is not necessary to describe the visual attributes of the bars, e.g. dark blue, light blue, unless there is an explicit need such as a reference in the caption or mentions to the colors.";
          "Explain the data on the x-axis and the y-axis and summarize the overall trend.";
          "For a simple chart, list the data in bullet form (approximate numbers if needed).";
          "Use the appropriate vocabulary in context with the surrounding text."
      ])
    ]));
    ("line", Obj (entries [
      ("guidelines", Arr [
          "Briefly describe the chart and give a summary if one is immediately apparent.";
          "Provide the title and axis labels.";
          "It is not necessary to describe the visual attributes of the lines, e.g. solid, dashed, unless there is an explicit need such as a reference in the caption or mentions to these attributes. In this case, with just two lines, the added description is not a burden to the reader."
      ])
    ]));
    ("pie", Obj (entries [
      ("guidelines", Arr [
          "Pie graphs should be converted into accessible tables (approximate numbers if needed).";
          "It is not necessary to describe the visual attributes of the charts, e.g., red wedge, blue lines, etc., unless there is an explicit need such as a reference in the caption or mentions to these attributes.";
          "It is helpful to list the numbers from smallest to largest, regardless of how they are presented in the image."
      ])
    ]));
    ("box", Obj (entries [
      ("guidelines", Arr [
          "Boxplots typically communicate the mean or median, interquartile range, standard deviations, and outlier values of a variable or variables."
      ])
    ]));
    ("scatter", Obj (entries [
      ("guidelines", Arr [
          "Provide the title and axis labels.";
          "Identify the image as a scatter plot and focus on the change of concentration of the data points."
      ])
    ]))
  ]))
].

(** A flat object: its keys in the order of insertion, each with the
    array it holds. *)
Definition Flat : Type := list (string * list string).

(** [o[k]], [None] when it is undefined. *)
Fixpoint get {A : Type} (k : string) (o : list (string * A)) : option A :=
  match o with
  | [] => None
  | (k', v) :: rest => if String.eqb k' k then Some v else get k rest
  end.

(** [o[k] = v] *)
Fixpoint set (k : string) (v : list string) (o : Flat) : Flat :=
  match o with
  | [] => [(k, v)]
  | (k', v') :: rest =>
      if String.eqb k' k then (k', v) :: rest else (k', v') :: set k v rest
  end.

(** [{ ...a, ...b }] *)
Definition spread (a b : Flat) : Flat :=
  fold_left (fun acc kv => set (fst kv) (snd kv) acc) b a.

(** The loop of [flattenDict] over the entries of [d], with [items] as
    it stands. *)
Fixpoint flattenLoop (d : Entries) (parent_key sep : string) (items : Flat) : Flat :=
  match d with
  | ENil => items
  | ECons k v rest =>
      let new_key :=
        (if JS.truthy_string parent_key then parent_key ++ sep ++ k else k)%string in
      flattenLoop rest parent_key sep
        match v with
        | Obj inner => spread items (flattenLoop inner new_key sep [])
        | Arr a => set new_key a items
        end
  end.

Definition flattenDict (d : Entries) (parent_key sep : string) : Flat :=
  flattenLoop d parent_key sep [].

(** [GuidelineService.GUIDELINES_MAPPING] *)
Definition GUIDELINES_MAPPING : list (string * list string) :=
  [("Area chart", ["general"; "graph.preamble"; "graph.levels"; "graph.line"]);
   ("Bar plots", ["general"; "graph.preamble"; "graph.levels"; "graph.bar"]);
   ("Block diagram", ["general"; "diagram.relational.flow"]);
   ("Box plot", ["general"; "graph.preamble"; "graph.box"; "graph.levels"]);
   ("Bubble chart", ["general"; "graph.preamble"; "graph.levels"]);
   ("Confusion matrix", ["general"; "graph.preamble"; "graph.levels"]);
   ("Flow chart", ["general"; "diagram.relational.flow"]);
   ("Line plot", ["general"; "graph.preamble"; "graph.levels"; "graph.line"]);
   ("Histogram", ["general"; "graph.preamble"; "graph.levels"; "graph.bar"]);
   ("Pareto charts", ["general"; "graph.preamble"; "graph.levels"]);
   ("Pie chart", ["general"; "graph.preamble"; "graph.levels"; "graph.pie"]);
   ("Polar plot", ["general"; "graph.preamble"; "graph.levels"]);
   ("Radar chart", ["general"; "graph.preamble"; "graph.levels"]);
   ("Scatter plot", ["general"; "graph.preamble"; "graph.levels"; "graph.scatter"]);
   ("Sketches", ["general"; "diagram.illustrated.sketch"]);
   ("Tree Diagram", ["general"; "diagram.relational.hierarchy_tree"]);
   ("Venn Diagram", ["general"; "diagram.relational.venn"]);
   ("Other", ["general"])].

(** [new GuidelineService(GUIDELINES)]: the flattened guidelines. *)
Definition service : Flat := flattenDict GUIDELINES "" ".".

(** [figureType in GUIDELINES_MAPPING], for the keys the mapping itself
    has.  (A key the object inherits is found by [in] as well; it holds no
    array, and the call below throws for it as it does for a key that is
    not found.) *)
Definition inMapping (figureType : string) : bool :=
  existsb (fun kv => String.eqb (fst kv) figureType) GUIDELINES_MAPPING.

(** [l.map(f)] for an [f] that may throw. *)
Fixpoint mapThrowing {A B : Type} (f : A -> option B) (l : list A) : option (list B) :=
  match l with
  | [] => Some []
  | x :: rest =>
      match f x with
      | None => None
      | Some y => option_map (cons y) (mapThrowing f rest)
      end
  end.

(** [getGuidelines(figureType)]; [None] when it throws. *)
Definition getGuidelines (guidelines : Flat) (figureType : string) : option string :=
  let ft := if inMapping figureType then figureType else "Figure" in
  match get ft GUIDELINES_MAPPING with
  | None => None
  | Some names =>
      option_map (String.concat Prompt.nl)
        (mapThrowing
           (fun guideline =>
              option_map (String.concat Prompt.nl)
                         (get (guideline ++ ".guidelines")%string guidelines))
           names)
  end.

(** The figure types the selector offers. *)
Definition FIGURE_TYPES : list string :=
  ["Area chart"; "Bar plots"; "Block diagram"; "Box plot"; "Bubble chart";
   "Confusion matrix"; "Flow chart"; "Line plot"; "Histogram"; "Pareto charts";
   "Pie chart"; "Polar plot"; "Radar chart"; "Scatter plot"; "Sketches";
   "Tree Diagram"; "Venn Diagram"; "Other"].

(** *** Paths of a nested object *)

(** The key [flattenDict] makes for entry [k] under [parent_key]. *)
Definition newKey (parent_key sep k : string) : string :=
  (if JS.truthy_string parent_key then parent_key ++ sep ++ k else k)%string.

(** The key of a path of entry names below [parent_key]. *)
Fixpoint dotted (parent_key sep : string) (path : list string) : string :=
  match path with
  | [] => parent_key
  | k :: rest => dotted (newKey parent_key sep k) sep rest
  end.

(** The object has the array [items] at the end of the path. *)
Inductive LeafAt : Entries -> list string -> list string -> Prop :=
| LeafAt_here k items rest : LeafAt (ECons k (Arr items) rest) [k] items
| LeafAt_below k inner rest path items :
    LeafAt inner path items -> LeafAt (ECons k (Obj inner) rest) (k :: path) items
| LeafAt_later k v rest path items :
    LeafAt rest path items -> LeafAt (ECons k v rest) path items.

End Guidelines.

(** ** The request handlers of the suggestion endpoints *)

Module Handlers.
Import Prompt Guidelines.

Definition dq : string := String (ascii_of_nat 34) "".

Definition questionPrompt : string :=
  ("Your goal is to assist in writing an alt text description of a figure that is "
   ++ "as informative and accessible as possible. Infer as much detail as possible "
   ++ "from the information given."
   ++ nl
   ++ "What visual aspects of the figure are unclear from the given alt text "
   ++ "description? Ask a series of questions to elicit all the necessary information "
   ++ "about the figure to describe these elements. Based on the type of figure, focus "
   ++ "on essential visual aspects that someone who cannot see the figure would need "
   ++ "to know. Based on the guidelines and metadata you have access to, suggest an "
   ++ "answer for each question. In your response, do not explicitly refer to the "
   ++ "metadata (such as "
   ++ dq
   ++ "caption"
   ++ dq
   ++ " or "
   ++ dq
   ++ "OCR text"
   ++ dq
   ++ "). These are provided to help you write descriptive responses only. Do not "
   ++ "repeat any existing questions.")%string.

Definition completionPrompt : string :=
  ("Your goal is to assist in writing an alt text description of a figure that is "
   ++ "as informative and accessible as possible, based on metadata provided to you."
   ++ nl
   ++ "Some of this data is automatically extracted from the figure, and may contain "
   ++ "errors. Infer as much detail as possible from the information given. Only "
   ++ "include clear and helpful statements for understanding the figure. Do not make "
   ++ "explicit reference to the metadata (such as "
   ++ dq
   ++ "caption"
   ++ dq
   ++ " or "
   ++ dq
   ++ "OCR text"
   ++ dq
   ++ "). These are provided to help you write descriptive responses only."
   ++ nl
   ++ "Respond with only a continuation of the given description itself (1-4 "
   ++ "sentences), with no additional content. Add as much detail as possible. You may "
   ++ "also be given a DESCRIPTION CONTEXT, which contains text after your response. "
   ++ "In this case, provide text that bridges the gap between the description, and "
   ++ "additional text the user has already written."
   ++ nl
   ++ "In your response, do not explicitly refer to the metadata (such as "
   ++ dq
   ++ "caption"
   ++ dq
   ++ " or "
   ++ dq
   ++ "OCR text"
   ++ dq
   ++ "). These are provided to help you write descriptive responses only.")%string.

Definition summaryPrompt : string :=
  ("Your goal is to assist in writing an alt text description of a figure that is "
   ++ "as informative and accessible as possible, based on metadata provided to you."
   ++ nl
   ++ "Some of this data is automatically extracted from the figure, and may contain "
   ++ "errors. Infer as much detail as possible from the information given."
   ++ nl
   ++ "Respond with only a brief and high-level overview (1-2 sentences), with no "
   ++ "additional content. In your response, do not explicitly refer to the metadata "
   ++ "(such as "
   ++ dq
   ++ "caption"
   ++ dq
   ++ " or "
   ++ dq
   ++ "OCR text"
   ++ dq
   ++ "). These are provided to help you write descriptive responses only.")%string.

Definition feedbackPrompt : string :=
  ("Your goal is to assist in writing an alt text description of a figure that is "
   ++ "as informative and accessible as possible. Infer as much detail as possible "
   ++ "from the information given."
   ++ nl
   ++ "What visual aspects of the figure are unclear from the given alt text "
   ++ "description? Ask a series of questions to elicit all the necessary information "
   ++ "about the figure to describe these elements. Based on the type of figure, focus "
   ++ "on essential visual aspects that someone who cannot see the figure would need "
   ++ "to know. Based on the guidelines and metadata you have access to, suggest an "
   ++ "answer for each question. In your response, do not explicitly refer to the "
   ++ "metadata (such as "
   ++ dq
   ++ "caption"
   ++ dq
   ++ " or "
   ++ dq
   ++ "OCR text"
   ++ dq
   ++ "). These are provided to help you write descriptive responses only. Do not "
   ++ "repeat any existing questions.")%string.

Definition abreviationPrompt : string :=
  ("Your goal is to provide a brief summary of the given description of a figure."
   ++ nl
   ++ "Respond with only a one-paragrph and accurate summary, prioritizing the most "
   ++ "important information for understanding the figure without seeing it. In your "
   ++ "response, do not explicitly refer to the metadata (such as "
   ++ dq
   ++ "caption"
   ++ dq
   ++ " or "
   ++ dq
   ++ "OCR text"
   ++ dq
   ++ "). These are provided to help you write descriptive responses only.")%string.


(** What the handlers read of the request body.  A field is [None] when
    the body does not have it, or has [null] for it. *)
Record SuggestionRequest : Type := mkSuggestionRequest {
  description : string;
  descriptionContext : option string;
  customPrompt : string;
  model : option string;
  messages : option (list OpenAIClient.Message);
  figure_type : string;
  caption : option string;
  mentions_paragraphs : option string;
  ocr_text : option string;
  data_table : option string
}.

(** [!requestInfo.messages?.length] *)
Definition shouldAddContext (requestInfo : SuggestionRequest) : bool :=
  match messages requestInfo with
  | Some l => negb (JS.truthy_num (length l))
  | None => true
  end.

(** The default of the [model] parameter of the client. *)
Definition defaultModel : string := "gpt-4-0613".

Definition modelOr (m : option string) : string :=
  match m with Some name => name | None => defaultModel end.

(** [OpenAIClient.requestCompletion(systemPrompt, prompt, messageHistory,
    model)]: the message of the first choice and the message list that was
    sent; [None] when the request is rejected. *)
Definition requestCompletion (create : OpenAIClient.Request -> OpenAIClient.Completion)
    (systemPrompt prompt : string) (messageHistory : option (list OpenAIClient.Message))
    (model : option string) : option (OpenAIClient.Message * list OpenAIClient.Message) :=
  let messageList := OpenAIClient.initialMessages systemPrompt prompt messageHistory in
  let request := OpenAIClient.mkRequest (modelOr model) messageList 1 in
  match create request with
  | OpenAIClient.Choice message => Some (message, messageList)
  | OpenAIClient.ApiError => None
  end.

(** The JSON a handler answers with. *)
Record Reply : Type := mkReply {
  result : string;
  reply_messages : list OpenAIClient.Message
}.

(** [completion.choices[0].message?.content], then [result || ""]. *)
Definition resultOf (message : OpenAIClient.Message) : string :=
  match OpenAIClient.content message with
  | Some s => if JS.truthy_string s then s else ""
  | None => ""
  end.

(** The prompt a handler makes of the request, with or without the
    context of the figure. *)
Definition promptOf (task : string) (addContext : bool) (guidelines : string)
    (requestInfo : SuggestionRequest) : PromptResult :=
  makePrompt
    (if addContext then task else "")
    (if addContext then figure_type requestInfo else "")
    (if addContext then caption requestInfo else Some "")
    (if addContext then mentions_paragraphs requestInfo else Some "")
    (if addContext then ocr_text requestInfo else Some "")
    (if addContext then data_table requestInfo else Some "")
    (if addContext then Some guidelines else Some "").

Definition marker : string := "$[YOUR RESPONSE WILL BE ADDED HERE]".

(** The handler of the completion endpoint; [None] when it throws. *)
Definition completionHandler (create : OpenAIClient.Request -> OpenAIClient.Completion)
    (requestInfo : SuggestionRequest) : option Reply :=
  match getGuidelines service (figure_type requestInfo) with
  | None => None
  | Some guidelines =>
      let p := promptOf completionPrompt (shouldAddContext requestInfo) guidelines
                        requestInfo in
      let descriptionContext :=
        (if given (descriptionContext requestInfo)
         then marker ++ interpolate (descriptionContext requestInfo)
         else "")%string in
      let promptDescription :=
        (prompt p ++ nl ++ nl ++ "---" ++ nl ++ "DESCRIPTION SNIPPET" ++ nl
         ++ description requestInfo ++ descriptionContext ++ nl ++ "---" ++ nl)%string in
      match requestCompletion create (fullSystemPrompt p) promptDescription
                              (messages requestInfo) (model requestInfo) with
      | Some (message, messageList) => Some (mkReply (resultOf message) messageList)
      | None => None
      end
  end.

(** The handler of the summary endpoint: the context is always added. *)
Definition summaryHandler (create : OpenAIClient.Request -> OpenAIClient.Completion)
    (requestInfo : SuggestionRequest) : option Reply :=
  match getGuidelines service (figure_type requestInfo) with
  | None => None
  | Some guidelines =>
      let p := promptOf summaryPrompt true guidelines requestInfo in
      let promptDescription :=
        (prompt p ++ nl ++ nl ++ "---" ++ nl ++ "DESCRIPTION" ++ nl
         ++ description requestInfo)%string in
      match requestCompletion create (fullSystemPrompt p) promptDescription
                              (messages requestInfo) (model requestInfo) with
      | Some (message, messageList) => Some (mkReply (resultOf message) messageList)
      | None => None
      end
  end.

(** The handler of the abbreviation endpoint: no guidelines, no figure
    metadata. *)
Definition abbreviationHandler (create : OpenAIClient.Request -> OpenAIClient.Completion)
    (requestInfo : SuggestionRequest) : option Reply :=
  let systemPrompt := abreviationPrompt in
  match requestCompletion create systemPrompt
                          ("Description:" ++ nl ++ description requestInfo)%string
                          (messages requestInfo) (model requestInfo) with
  | Some (message, messageList) => Some (mkReply (resultOf message) messageList)
  | None => None
  end.

Section QA.

Variable QAPair : Type.
Variable JSON_parse : string -> option QAPair.
Variable JSON_stringify : QAPair -> string.
Variable create : OpenAIClient.Request -> OpenAIClient.Completion.

(** The handlers of the two question endpoints: the requests made and
    what [getQA] gave; [None] when the handler throws before it calls the
    client. *)
Definition questionsHandler (requestInfo : SuggestionRequest)
  : option (list OpenAIClient.Request * OpenAIClient.Result QAPair) :=
  match getGuidelines service (figure_type requestInfo) with
  | None => None
  | Some guidelines =>
      let p := promptOf questionPrompt (shouldAddContext requestInfo) guidelines
                        requestInfo in
      let promptDescription :=
        (prompt p ++ nl ++ nl ++ "---" ++ nl ++ "DESCRIPTION" ++ nl
         ++ description requestInfo)%string in
      Some (OpenAIClient.getQA QAPair JSON_parse JSON_stringify create
              (fullSystemPrompt p) promptDescription (messages requestInfo) 4
              (modelOr (model requestInfo)))
  end.

Definition feedbackHandler (requestInfo : SuggestionRequest)
  : option (list OpenAIClient.Request * OpenAIClient.Result QAPair) :=
  match getGuidelines service (figure_type requestInfo) with
  | None => None
  | Some guidelines =>
      let p := promptOf feedbackPrompt (shouldAddContext requestInfo) guidelines
                        requestInfo in
      let promptDescription :=
        (prompt p ++ nl ++ nl ++ "---" ++ nl ++ "DESCRIPTION" ++ nl
         ++ description requestInfo)%string in
      Some (OpenAIClient.getQA QAPair JSON_parse JSON_stringify create
              (fullSystemPrompt p) promptDescription (messages requestInfo) 1
              (modelOr (model requestInfo)))
  end.

End QA.

End Handlers.

(** ** The completion flow, from the editor to the model and back *)

Module CompletionFlow.
Import ProseMirror.

(** The settings the flow reads of the settings context. *)
Record Settings : Type := mkSettings {
  model : string;
  customPrompt : string;
  shouldUseFigureText : bool;
  shouldUseFigureCaption : bool;
  shouldUseFigureMentions : bool;
  shouldUseDataTable : bool
}.

(** The fields of the figure the flow reads. *)
Record Figure : Type := mkFigure {
  caption : option string;
  mentions_paragraphs : option string;
  figure_type : string;
  ocr_text : option string;
  data_table : option string
}.

(** The body of the request, as the handler parses it: a field that is
    [undefined] is left out by [JSON.stringify]. *)
Definition requestBody (settings : Settings) (figure : Figure)
    (editor : option Completion.Editor) (completionMessages : list OpenAIClient.Message)
  : Handlers.SuggestionRequest :=
  Handlers.mkSuggestionRequest
    (Completion.textBeforeCursor editor)
    (Some (Completion.textAfterCursor editor))
    (customPrompt settings)
    (Some (model settings))
    (Some completionMessages)
    (figure_type figure)
    (if shouldUseFigureCaption settings then caption figure else None)
    (if shouldUseFigureMentions settings then mentions_paragraphs figure else None)
    (if shouldUseFigureText settings then ocr_text figure else None)
    (if shouldUseDataTable settings then data_table figure else None).

(** The handler behind a URL of the flow. *)
Definition serve (url : string)
    (create : OpenAIClient.Request -> OpenAIClient.Completion)
    (body : Handlers.SuggestionRequest) : option Handlers.Reply :=
  if String.eqb url "/api/completion" then Handlers.completionHandler create body
  else if String.eqb url "/api/summary" then Handlers.summaryHandler create body
  else None.

(** The [apiCall] of the completion request: what it returns as data and
    what it stores as [completionMessages]; [None] when the request
    fails. *)
Definition apiCall (create : OpenAIClient.Request -> OpenAIClient.Completion)
    (settings : Settings) (figure : Figure) (editor : option Completion.Editor)
    (completionMessages : list OpenAIClient.Message)
  : option (string * list OpenAIClient.Message) :=
  match serve (Completion.endpoint editor) create
              (requestBody settings figure editor completionMessages) with
  | Some reply => Some (Handlers.result reply, Handlers.reply_messages reply)
  | None => None
  end.

(** One request after the other, each made when the one before has
    settled: [completionMessages] after them.  A request that fails leaves
    it as it is. *)
Record Round : Type := mkRound {
  round_create : OpenAIClient.Request -> OpenAIClient.Completion;
  round_settings : Settings;
  round_figure : Figure;
  round_editor : option Completion.Editor
}.

Definition afterRound (completionMessages : list OpenAIClient.Message) (r : Round)
  : list OpenAIClient.Message :=
  match apiCall (round_create r) (round_settings r) (round_figure r) (round_editor r)
                completionMessages with
  | Some (_, messages) => messages
  | None => completionMessages
  end.

Definition afterRounds (rounds : list Round) (completionMessages : list OpenAIClient.Message)
  : list OpenAIClient.Message :=
  fold_left afterRound rounds completionMessages.

End CompletionFlow.

(** ** The list of questions shown *)

Module Suggestions.

Record QAPair : Type := mkQAPair {
  question : string;
  suggested_answer : option string;
  suggested_answer1 : option string;
  suggested_answer2 : option string;
  suggested_answer3 : option string;
  suggested_answer4 : option string
}.

(** [a === b] on values that are strings or undefined. *)
Definition strictEq (a b : option string) : bool :=
  match a, b with
  | Some x, Some y => String.eqb x y
  | None, None => true
  | _, _ => false
  end.

(** The test of [findIndex]:
    [q.question === question && q.suggested_answer1 === suggested_answer1]. *)
Definition sameQuestion (qa q : QAPair) : bool :=
  String.eqb (question q) (question qa)
  && strictEq (suggested_answer1 q) (suggested_answer1 qa).

(** [l.findIndex(p)], [None] for -1. *)
Fixpoint findIndex {A : Type} (p : A -> bool) (l : list A) : option nat :=
  match l with
  | [] => None
  | x :: rest => if p x then Some 0 else option_map S (findIndex p rest)
  end.

(** [l.filter((x, i) => p(x, i))], for the part of the array from index
    [i] on. *)
Fixpoint filterFrom {A : Type} (p : A -> nat -> bool) (i : nat) (l : list A) : list A :=
  match l with
  | [] => []
  | x :: rest => if p x i then x :: filterFrom p (S i) rest else filterFrom p (S i) rest
  end.

Definition indexIs (found : option nat) (i : nat) : bool :=
  match found with Some j => j =? i | None => false end.

Definition timeOrderedQuestions (allQuestions : list QAPair) : list QAPair :=
  filterFrom (fun qa i => indexIs (findIndex (sameQuestion qa) allQuestions) i)
             0 allQuestions.

(** What the test compares. *)
Definition keyOf (qa : QAPair) : string * option string :=
  (question qa, suggested_answer1 qa).

(** [l] in its order, without the elements whose key an earlier element
    has. *)
Fixpoint firstOfEach (seen : list QAPair) (l : list QAPair) : list QAPair :=
  match l with
  | [] => []
  | x :: rest =>
      if existsb (sameQuestion x) seen then firstOfEach (seen ++ [x]) rest
      else x :: firstOfEach (seen ++ [x]) rest
  end.

(** [l] is [whole] with some elements left out. *)
Inductive Subsequence {A : Type} : list A -> list A -> Prop :=
| Sub_nil : Subsequence [] []
| Sub_keep x l whole : Subsequence l whole -> Subsequence (x :: l) (x :: whole)
| Sub_drop x l whole : Subsequence l whole -> Subsequence l (x :: whole).

End Suggestions.

(** ** The view of an async request, and calls that overlap *)

Module AsyncData.
Import AsyncRequest.

Section View.

Variable T : Type.
Variable truthy : T -> bool.

Inductive Rendered : Type :=
| DataLoading (message : string)
| DataError (message : string)
| View (data : State T)
| Nothing.

(** [error] as a condition: a string that is there and not empty. *)
Definition truthyError (e : option string) : bool :=
  match e with Some s => JS.truthy_string s | None => false end.

Definition AsyncDataView (data : State T) (messageLoading messageError : string)
  : Rendered :=
  if loading data then DataLoading messageLoading
  else if truthyError (error data) then DataError messageError
  else if truthyData truthy (AsyncRequest.data data) then View data
  else Nothing.

(** What a call of [fetchData] does up to the point where it waits for
    the promise, and what it does when the promise has settled. *)
Definition started (st : State T) : list (Effect T) :=
  [SetLoading true; SetError None; CallApi (seedOf truthy (AsyncRequest.data st))].

Definition settled (o : Outcome T) : list (Effect T) :=
  match o with
  | Resolved response => [SetData (Some response)]
  | Rejected _ => [SetError (Some genericError)]
  end ++ [SetLoading false].

End View.

Arguments DataLoading {T}.
Arguments DataError {T}.
Arguments View {T}.
Arguments Nothing {T}.
Arguments AsyncDataView {T}.
Arguments started {T}.
Arguments settled {T}.

End AsyncData.

(** ** The event logger over the renders of the component *)

Module LoggerRenders.
Import EventLogger.

(** One render: the stores as they are and the condition label. *)
Definition Render : Type := (Stores * string)%type.

Definition render (ed : Editor) (r : Render) : Editor :=
  match useEventLogger (fst r) (Some ed) (snd r) with
  | Some ed' => ed'
  | None => ed
  end.

Definition renders (rs : list Render) (ed : Editor) : Editor := fold_left render rs ed.

(** The handler of a render in which all three identifiers are there. *)
Definition handlerOf (r : Render) : option Handler :=
  if EventClasses.complete (fst r)
  then Some (mkHandler (idOf (user (fst r))) (idOf (figure (fst r)))
                       (idOf (description (fst r))) (snd r))
  else None.

(** The handler of the last such render, if there is one. *)
Fixpoint lastHandler (rs : list Render) (before : option Handler) : option Handler :=
  match rs with
  | [] => before
  | r :: rest =>
      lastHandler rest (match handlerOf r with Some h => Some h | None => before end)
  end.

End LoggerRenders.

(** ** The text around a place *)

Module PlacesText.
Import ProseMirror Places.

Definition fragmentText (l : Fragment) : string := String.concat "" (map textContent l).

(** The text of the fragment before and after the hole of a context. *)
Fixpoint textBefore (c : FragCtx) : string :=
  match c with
  | Here before _ => fragmentText before
  | Inside before _ _ _ inner _ => (fragmentText before ++ textBefore inner)%string
  end.

Fixpoint textAfter (c : FragCtx) : string :=
  match c with
  | Here _ after => fragmentText after
  | Inside _ _ _ _ inner after => (textAfter inner ++ fragmentText after)%string
  end.

End PlacesText.


(** * Properties *)

(** ** The async request hook *)

Module AsyncRequestSpec.
Import AsyncRequest.

Section Facts.

Variable T : Type.
Variable truthy : T -> bool.
Variable Dep : Type.
Variable same : Dep -> Dep -> bool.

Lemma run_app (st : State T) (es fs : list (Effect T)) :
  run (run st es) fs = run st (es ++ fs).
Proof. unfold run. now rewrite fold_left_app. Qed.

(** C8: [fetchData] first sets [loading] and clears [error], then calls
    [apiCall] with [data || undefined]; when the call is rejected, [error]
    becomes the one generic message and [data] keeps its value; when it
    resolves, [data] is the response; [loading] is cleared at the end in
    both cases. *)
Theorem fetchData_protocol (apiCall : option T -> Outcome T) (st : State T) :
  let seed := if truthyData truthy (data st) then data st else None in
  let es := fetchData truthy apiCall st in
  (exists rest,
      es = SetLoading true :: SetError None :: CallApi seed :: rest
      /\ loading (run st [SetLoading true; SetError None]) = true
      /\ error (run st [SetLoading true; SetError None]) = None
      /\ Forall (fun e => match e with CallApi _ => False | _ => True end) rest)
  /\ loading (run st es) = false
  /\ match apiCall seed with
     | Rejected _ =>
         error (run st es) = Some "An error occurred while fetching the data."
         /\ data (run st es) = data st
     | Resolved response =>
         data (run st es) = Some response /\ error (run st es) = None
     end.
Proof.
  cbv zeta. unfold fetchData, seedOf.
  set (seed := if truthyData truthy (data st) then data st else None).
  split.
  - eexists. split; [reflexivity|].
    repeat split.
    destruct (apiCall seed); repeat constructor.
  - destruct (apiCall seed); cbn; auto.
Qed.

(** What the effect does: it calls [fetchData] exactly when it runs (on
    the first render, or when some dependency differs by reference from
    the render before) while [shouldFetch] is set and [data] is falsy.  A
    render with unchanged dependencies never fetches, whatever happened
    to [data]. *)
Lemma autoFetches_iff (previous : option (list Dep)) (dependencies : list Dep)
    (st : State T) :
  (autoFetches truthy same previous dependencies st = true <->
     (previous = None \/
      exists deps, previous = Some deps /\ sameDeps same deps dependencies = false)
     /\ shouldFetch st = true
     /\ truthyData truthy (data st) = false)
  /\ (forall deps st', sameDeps same deps dependencies = true ->
        autoFetches truthy same (Some deps) dependencies st' = false).
Proof.
  unfold autoFetches, effectRuns. split.
  - split.
    + intros H.
      apply andb_true_iff in H as [Hrun H].
      apply andb_true_iff in H as [Hs Hd].
      apply negb_true_iff in Hd.
      repeat split; auto.
      destruct previous as [deps|]; [right | now left].
      exists deps. split; [reflexivity|]. now apply negb_true_iff.
    + intros [Hp [Hs Hd]]. rewrite Hs, Hd. cbn.
      destruct Hp as [-> | [deps [-> Hdeps]]]; [reflexivity|].
      now rewrite Hdeps.
  - intros deps st' Hsame. now rewrite Hsame.
Qed.

End Facts.

(** C7: between two renders a dependency changed by reference, and
    [shouldFetch] is set.  The effect runs, but the data is already there
    and the guard [!data] keeps it from fetching again, where the
    documentation of the hook has it re-fetch whenever a dependency
    changes.  With no data yet, the same change fetches. *)
Theorem autoFetch_not_on_every_change :
  let truthy := fun k => negb (k =? 0) in
  sameDeps Nat.eqb [1] [2] = false
  /\ effectRuns Nat.eqb (Some [1]) [2] = true
  /\ autoFetches truthy Nat.eqb (Some [1]) [2] (mkState true (Some 5) false None) = false
  /\ autoFetches truthy Nat.eqb (Some [1]) [2] (mkState true None false None) = true.
Proof. repeat split. Qed.

End AsyncRequestSpec.

(** ** The completion flow: the endpoint *)

Module EndpointSpec.
Import ProseMirror Completion.

Lemma truthy_length (s : string) :
  JS.truthy_num (String.length s) = true <-> s <> "".
Proof.
  unfold JS.truthy_num. destruct s; cbn; split; intro H; congruence.
Qed.

(** C4, amended: the request goes to ["/api/completion"] exactly when the
    text before the cursor followed by the text after it is non-empty, and
    to ["/api/summary"] otherwise. *)
Theorem endpoint_by_description (editor : option Editor) :
  (endpoint editor = "/api/completion" /\
     (textBeforeCursor editor ++ textAfterCursor editor)%string <> "")
  \/ (endpoint editor = "/api/summary" /\
      (textBeforeCursor editor ++ textAfterCursor editor)%string = "").
Proof.
  unfold endpoint, description.
  destruct (JS.truthy_num _) eqn:E.
  - left. split; [reflexivity|]. now apply truthy_length.
  - right. split; [reflexivity|].
    destruct (textBeforeCursor editor ++ textAfterCursor editor)%string eqn:D;
      [reflexivity | discriminate].
Qed.

(** C4 as stated fails: with the cursor at the start of a paragraph that
    has text, the text before the cursor is empty and the request still
    goes to the continuation endpoint. *)
Lemma endpoint_with_empty_textBefore :
  let editor :=
    Some (mkEditor (ElemNode "doc" [] [] [ElemNode "paragraph" [] [] [TextNode "ab" []]]) 1) in
  textBeforeCursor editor = "" /\ endpoint editor = "/api/completion".
Proof. split; reflexivity. Qed.

End EndpointSpec.

(** ** The iterative Q&A client *)

Module OpenAIClientSpec.
Import OpenAIClient Examples.

Section Rounds.

Variable QAPair : Type.
Variable JSON_parse : string -> option QAPair.
Variable JSON_stringify : QAPair -> string.
Variable create : Request -> Completion.
Variable modelName : string.

Local Abbreviation fails := (Rounds.fails QAPair JSON_parse create).
Local Abbreviation Sequential :=
  (Rounds.Sequential QAPair JSON_parse JSON_stringify create modelName).
Local Abbreviation endsUnstructured := (Rounds.endsUnstructured create).
Local Abbreviation endsFailed := (Rounds.endsFailed QAPair JSON_parse create).
Local Abbreviation Ended := (Rounds.Ended QAPair JSON_parse create).

Lemma last_cons_some (r : Request) (trace : list Request) (x : Request) :
  last (map Some trace) None = Some x ->
  last (map Some (r :: trace)) None = Some x.
Proof.
  destruct trace as [|r' trace]; [discriminate|]. intros H. exact H.
Qed.

Lemma loop_rounds (missing : nat) :
  forall ms responses trace,
  exists trace' responses' ms' result,
    loop QAPair JSON_parse JSON_stringify create modelName missing ms responses trace
    = (trace ++ trace', result)
    /\ Sequential ms trace' responses' ms'
    /\ Ended missing responses result trace' responses' ms'.
Proof.
  induction missing as [|k IH]; intros ms responses trace.
  - exists [], [], ms, (Returned responses ms). cbn. rewrite !app_nil_r.
    split; [reflexivity|]. split; [constructor|]. left. now rewrite app_nil_r.
  - cbn [loop].
    destruct (create (mkRequest modelName ms 1)) as [message|] eqn:Ec.
    + destruct (function_call message) as [fc|] eqn:Ef.
      * destruct (JSON_parse (fc_arguments fc)) as [parsedArgs|] eqn:Ep.
        -- destruct (IH (ms ++ [message; functionResult QAPair JSON_stringify fc parsedArgs])
                        (responses ++ [parsedArgs])
                        (trace ++ [mkRequest modelName ms 1]))
             as (trace' & responses' & ms' & result & Hl & Hseq & Hend).
           exists (mkRequest modelName ms 1 :: trace'), (parsedArgs :: responses'), ms',
             result.
           rewrite Hl, <- !app_assoc. cbn [app].
           split; [reflexivity|]. split; [econstructor; eassumption|].
           unfold Rounds.Ended in *. rewrite <- app_assoc in Hend. cbn [app length] in *.
           destruct Hend as [(? & ? & ?) | [(? & ? & ? & r & m & Hlast & Hr & Hm)
                                           | (? & ? & ? & r & Hlast & Hr)]].
           ++ left. repeat split; auto; lia.
           ++ right. left. repeat split; auto; try lia.
              exists r, m. split; [|now split]. now apply last_cons_some.
           ++ right. right. repeat split; auto; try lia.
              exists r. split; [|exact Hr]. now apply last_cons_some.
        -- exists [mkRequest modelName ms 1], [], ms, Threw.
           split; [reflexivity|].
           assert (Hf : fails (mkRequest modelName ms 1))
             by (right; exists message, fc; auto).
           split; [now apply Rounds.Seq_fail|]. right. right. cbn [length].
           repeat split; try lia. exists (mkRequest modelName ms 1). now split.
      * exists [mkRequest modelName ms 1], [], ms, (Returned responses ms).
        split; [reflexivity|]. split; [econstructor; eassumption|].
        right. left. rewrite app_nil_r. cbn [length].
        repeat split; try lia. exists (mkRequest modelName ms 1), message. now repeat split.
    + exists [mkRequest modelName ms 1], [], ms, Threw.
      split; [reflexivity|].
      assert (Hf : fails (mkRequest modelName ms 1)) by now left.
      split; [now apply Rounds.Seq_fail|]. right. right. cbn [length].
      repeat split; try lia. exists (mkRequest modelName ms 1). now split.
Qed.

(** C6, amended: for every count [N], the requests of [getQA] are issued
    one after the other, each for the model given, asking for one choice,
    and carrying the message list of the round before extended by the
    message that round returned and by the function-result message (role
    "function", the parsed arguments serialized again, the name of the
    function called).  The call ends in one of three ways: with exactly
    [N] round trips and the [N] pairs returned; at the first round trip
    that comes back without a function call, which is the last, with the
    fewer than [N] pairs of the rounds before it returned; or at the first
    round trip that is rejected or whose arguments are not valid JSON,
    where the call throws and returns nothing. *)
Theorem getQA_round_trips (systemPrompt prompt : string)
    (messageHistory : option (list Message)) (N : nat) :
  exists trace responses ms' result,
    getQA QAPair JSON_parse JSON_stringify create systemPrompt prompt messageHistory
          N modelName
    = (trace, result)
    /\ Sequential (initialMessages systemPrompt prompt messageHistory) trace responses ms'
    /\ Forall (fun r => n r = 1 /\ model r = modelName) trace
    /\ ((result = Returned responses ms' /\ length trace = N /\ length responses = N)
        \/ (result = Returned responses ms'
            /\ length responses < N /\ length trace = S (length responses)
            /\ endsUnstructured trace)
        \/ (result = Threw
            /\ length responses < N /\ length trace = S (length responses)
            /\ endsFailed trace)).
Proof.
  unfold getQA.
  destruct (loop_rounds N (initialMessages systemPrompt prompt messageHistory) [] [])
    as (trace & responses & ms' & result & Hl & Hseq & Hend).
  exists trace, responses, ms', result. cbn [app] in Hl.
  split; [exact Hl|]. split; [exact Hseq|]. split; [|exact Hend].
  clear Hl Hend. induction Hseq; repeat constructor; auto.
Qed.

End Rounds.

(** C6 as stated fails: when the arguments of the function call are not
    valid JSON, or the service rejects the request, the call throws at the
    first round trip; there is one round trip, not two, none came back
    without a function call, and nothing is returned. *)
Lemma getQA_throws :
  let parse (s : string) := if String.eqb s "{}" then Some tt else None in
  let broken (r : Request) :=
    Choice (mkMessage "assistant" None None (Some (mkFunctionCall "add_question" "{"))) in
  let rejecting (r : Request) := ApiError in
  getQA unit parse (fun _ => "{}") broken "s" "p" None 2 "gpt-4-0613"
  = ([mkRequest "gpt-4-0613" (initialMessages "s" "p" None) 1], Threw)
  /\ getQA unit parse (fun _ => "{}") rejecting "s" "p" None 2 "gpt-4-0613"
     = ([mkRequest "gpt-4-0613" (initialMessages "s" "p" None) 1], Threw).
Proof. split; reflexivity. Qed.

(** The message lists of two round trips in full: the second request
    carries the system and user messages, the message the first round
    returned, and the function-result message. *)
Example getQA_second_request :
  let call := mkMessage "assistant" None None (Some (mkFunctionCall "add_question" "{}")) in
  fst (getQA unit (fun _ => Some tt) (fun _ => "{}") three_questions "s" "p" None 2
             "gpt-4-0613")
  = [mkRequest "gpt-4-0613"
       [mkMessage "system" (Some "s") None None; mkMessage "user" (Some "p") None None] 1;
     mkRequest "gpt-4-0613"
       [mkMessage "system" (Some "s") None None; mkMessage "user" (Some "p") None None;
        call; mkMessage "function" (Some "{}") (Some "add_question") None] 1].
Proof. reflexivity. Qed.

(** On this service a call for four pairs makes four round trips and
    returns the three pairs of the first three. *)
Example getQA_stops_early :
  let '(trace, result) :=
    getQA unit (fun _ => Some tt) (fun _ => "{}") three_questions "s" "p" None 4 "gpt-4-0613" in
  map (fun r => length (messages r)) trace = [2; 4; 6; 8]
  /\ match result with
     | Returned responses ms' => length responses = 3 /\ length ms' = 8
     | Threw => False
     end.
Proof. cbn. repeat split. Qed.

(** With answers all through, two round trips for two pairs. *)
Example getQA_all_rounds :
  let '(trace, result) :=
    getQA unit (fun _ => Some tt) (fun _ => "{}") three_questions "s" "p" None 2 "gpt-4-0613" in
  length trace = 2
  /\ match result with
     | Returned responses ms' => length responses = 2 /\ length ms' = 6
     | Threw => False
     end.
Proof. cbn. repeat split. Qed.

End OpenAIClientSpec.

(** ** The event logger *)

Module EventLoggerSpec.
Import ProseMirror EventLogger EventClasses Examples.

Lemma opt_nat_eqb_spec (a b : option nat) : opt_nat_eqb a b = true <-> a = b.
Proof.
  destruct a, b; cbn; try (split; congruence).
  rewrite Nat.eqb_eq. split; congruence.
Qed.

Lemma onStep_classified (h : Handler) (now : nat) (s : Step) :
  exists k, Classified s k /\ onStep h now s = keyEvents h now k.
Proof.
  destruct s as [f t sl]. unfold onStep, sliceSize. cbn [from to slice].
  destruct (opt_nat_eqb f t) eqn:E.
  - apply opt_nat_eqb_spec in E. subst t. destruct f as [a|]; cbn.
    + eexists. split; [constructor | reflexivity].
    + eexists. split; [apply Classified_no_range|].
      destruct sl as [c|]; cbn; [destruct (fragmentSize c)|]; reflexivity.
  - assert (f <> t) by (intro; subst; rewrite (proj2 (opt_nat_eqb_spec t t) eq_refl) in E;
                        discriminate).
    cbn. destruct sl as [c|]; cbn.
    + destruct (fragmentSize c) eqn:Es.
      * eexists. split; [now apply Classified_delete | reflexivity].
      * eexists. split; [apply Classified_replace; [assumption | lia] | reflexivity].
    + eexists. split; [now apply Classified_no_slice | reflexivity].
Qed.

(** C9, amended: on a document-changing transaction that is not a paste
    the logger emits, step by step and in order, one [key_press] with key
    "Input" for a step whose [from] equals its [to], one with key
    "Backspace or Delete" for a step with another range and an empty slice,
    one with key "Input" for a step with another range and a non-empty
    slice, and nothing for a step that has no slice or no range.  On a
    paste whose last step inserts a non-empty slice it emits one
    [paste_action] with the text content of the first inserted node when
    that text is non-empty, and nothing when it is empty. *)
Theorem update_events (h : Handler) (now : nat) (tr : Transaction) :
  docChanged tr = true ->
  (pasteMeta tr = false ->
     exists ks, Forall2 Classified (steps tr) ks
                /\ onUpdate h now tr = flat_map (keyEvents h now) ks)
  /\ (forall before lastStep node rest,
        pasteMeta tr = true ->
        steps tr = before ++ [lastStep] ->
        slice lastStep = Some (node :: rest) ->
        0 < fragmentSize (node :: rest) ->
        onUpdate h now tr =
          if (String.length (textContent node) =? 0) then []
          else [mkEvent "paste_action" (PasteData (textContent node)) now
                        (h_user h) (h_figure h) (h_description h) (h_condition h) true]).
Proof.
  intros Hdoc. unfold onUpdate. rewrite Hdoc. split.
  - intros ->. induction (steps tr) as [|s l IH].
    + exists []. split; constructor.
    + destruct IH as [ks [HF Heq]].
      destruct (onStep_classified h now s) as [k [Hk Hs]].
      exists (k :: ks). split; [now constructor|].
      cbn [flat_map]. now rewrite Hs, Heq.
  - intros before lastStep node rest -> Hsteps Hslice Hsize.
    unfold onPaste. rewrite Hsteps, map_app. cbn [map].
    rewrite last_last. unfold sliceSize. rewrite Hslice. cbn [option_map].
    destruct (fragmentSize (node :: rest)) eqn:E; [lia|].
    cbn [firstChild]. unfold JS.truthy_string.
    destruct (String.length (textContent node) =? 0); reflexivity.
Qed.

Lemma update_events_witness :
  let tr := mkTransaction [mkStep (Some 1) (Some 1) (Some [TextNode "a" []])] false in
  (pasteMeta tr = false ->
     exists ks, Forall2 Classified (steps tr) ks
                /\ onUpdate aHandler 0 tr = flat_map (keyEvents aHandler 0) ks)
  /\ (forall before lastStep node rest,
        pasteMeta tr = true ->
        steps tr = before ++ [lastStep] ->
        slice lastStep = Some (node :: rest) ->
        0 < fragmentSize (node :: rest) ->
        onUpdate aHandler 0 tr =
          if (String.length (textContent node) =? 0) then []
          else [mkEvent "paste_action" (PasteData (textContent node)) 0
                        (h_user aHandler) (h_figure aHandler) (h_description aHandler)
                        (h_condition aHandler) true]).
Proof.
  exact (update_events aHandler 0
           (mkTransaction [mkStep (Some 1) (Some 1) (Some [TextNode "a" []])] false)
           eq_refl).
Defined.

(** Pasting "hello world" as one node gives one [paste_action] with that
    text; typing a character gives one "Input"; deleting a selection gives
    one "Backspace or Delete". *)
Example paste_hello_world :
  onUpdate aHandler 5
    (mkTransaction [mkStep (Some 1) (Some 1) (Some [paragraph "hello world"])] true)
  = [mkEvent "paste_action" (PasteData "hello world") 5 (Some 1) (Some 2) (Some 3)
             "full" true].
Proof. reflexivity. Qed.

Example type_and_delete :
  onUpdate aHandler 5
    (mkTransaction [mkStep (Some 1) (Some 1) (Some [TextNode "a" []])] false)
  = [mkEvent "key_press" (KeyData "Input") 5 (Some 1) (Some 2) (Some 3) "full" true]
  /\ onUpdate aHandler 5 (mkTransaction [mkStep (Some 1) (Some 4) (Some [])] false)
     = [mkEvent "key_press" (KeyData "Backspace or Delete") 5 (Some 1) (Some 2) (Some 3)
                "full" true].
Proof. split; reflexivity. Qed.

(** Only the first node of a paste is read. *)
Example paste_two_nodes :
  onUpdate aHandler 5
    (mkTransaction
       [mkStep (Some 1) (Some 1) (Some [paragraph "hello"; paragraph "world"])] true)
  = [mkEvent "paste_action" (PasteData "hello") 5 (Some 1) (Some 2) (Some 3) "full" true].
Proof. reflexivity. Qed.

(** C9 as stated fails twice.  A paste whose first inserted node has no
    text (a rule followed by a paragraph) inserts non-empty content and is
    not logged; and a transaction of one mark step, which changes the
    document and has a range but no slice, logs no key press. *)
Lemma update_events_not_one_per_step :
  (let tr := mkTransaction
               [mkStep (Some 1) (Some 1) (Some [horizontalRule; paragraph "x"])] true in
   docChanged tr = true /\ pasteMeta tr = true
   /\ option_map fragmentSize (slice (mkStep (Some 1) (Some 1)
                                        (Some [horizontalRule; paragraph "x"]))) = Some 4
   /\ onUpdate aHandler 0 tr = [])
  /\ (let tr := mkTransaction [mkStep (Some 1) (Some 3) None] false in
      docChanged tr = true /\ pasteMeta tr = false /\ length (steps tr) = 1
      /\ onUpdate aHandler 0 tr = []).
Proof. repeat split. Qed.

(** Every event of a handler carries what the handler closed over, and
    the study-session flag set. *)
Lemma onUpdate_tags (h : Handler) (now : nat) (tr : Transaction) (e : Event) :
  In e (onUpdate h now tr) ->
  study_session e = true /\ user_id e = h_user h /\ figure_id e = h_figure h
  /\ description_id e = h_description h /\ condition e = h_condition h.
Proof.
  unfold onUpdate, onPaste, logEvent, makeEvent.
  destruct (docChanged tr); [|contradiction].
  destruct (pasteMeta tr).
  - destruct (last _ _) as [s|]; [|contradiction].
    destruct (sliceSize s) as [[|k]|]; try contradiction.
    destruct (JS.truthy_string _); [|contradiction].
    intros [<-|[]]. repeat split.
  - rewrite in_flat_map. intros [s [_ Hin]].
    unfold onStep, logEvent, makeEvent in Hin.
    repeat match type of Hin with
           | In _ (if ?c then _ else _) => destruct c
           end;
      cbn in Hin; (contradiction || (destruct Hin as [<-|[]]; repeat split)).
Qed.

(** What a call of the hook does.  After a call with a user id, a figure
    id, a description id and an editor, every event forwarded has
    [study_session] true (the hook does not read the host's flag) and
    carries these identifiers and the condition label; a call in which one
    of the identifiers is missing returns at once, with the editor's
    listeners as they were; a call without an editor does nothing; and an
    editor without listeners forwards nothing. *)
Lemma logger_tags_and_gate (st : Stores) (ed : Editor) (cond : string) :
  (complete st = true ->
     exists ed', useEventLogger st (Some ed) cond = Some ed'
       /\ forall now tr e, In e (emitUpdate ed' now tr) ->
            study_session e = true
            /\ user_id e = idOf (user st) /\ figure_id e = idOf (figure st)
            /\ description_id e = idOf (description st) /\ condition e = cond)
  /\ (complete st = false -> useEventLogger st (Some ed) cond = Some ed)
  /\ useEventLogger st None cond = None
  /\ (forall now tr, emitUpdate (mkEditor []) now tr = []).
Proof.
  unfold complete, useEventLogger. repeat split.
  - intros H. apply andb_true_iff in H as [H Hd]. apply andb_true_iff in H as [Hu Hf].
    rewrite Hu, Hf, Hd. cbn. eexists. split; [reflexivity|].
    intros now tr e Hin. unfold emitUpdate in Hin. cbn in Hin.
    rewrite app_nil_r in Hin. apply onUpdate_tags in Hin. exact Hin.
  - intros H.
    destruct (truthyId (idOf (user st))), (truthyId (idOf (figure st))),
      (truthyId (idOf (description st))); cbn in *; congruence.
Qed.

(** C10: a call of the hook with all three identifiers detaches the
    listeners of [update] and attaches its handler.  A later call in which
    an identifier is missing (the description store holds a record without
    an id, or there is no user) returns before the line that detaches: the
    handler of the earlier call stays attached, and the next change of the
    document is logged while the identifier is missing, with the
    identifiers of the earlier call.  A later call with all identifiers, by
    contrast, replaces the handler. *)
Theorem events_while_identifier_missing :
  let present := mkStores (Some (mkEntity (Some 1))) (Some (mkEntity (Some 2)))
                          (Some (mkEntity (Some 3))) in
  let noDescriptionId := mkStores (Some (mkEntity (Some 1))) (Some (mkEntity (Some 2)))
                                  (Some (mkEntity None)) in
  let noUser := mkStores None (Some (mkEntity (Some 2))) (Some (mkEntity (Some 3))) in
  let other := mkStores (Some (mkEntity (Some 1))) (Some (mkEntity (Some 2)))
                        (Some (mkEntity (Some 4))) in
  let tr := mkTransaction [mkStep (Some 1) (Some 1) (Some [TextNode "a" []])] false in
  let ed1 := mkEditor [mkHandler (Some 1) (Some 2) (Some 3) "full"] in
  useEventLogger present (Some (mkEditor [])) "full" = Some ed1
  /\ complete noDescriptionId = false /\ complete noUser = false
  /\ useEventLogger noDescriptionId (Some ed1) "full" = Some ed1
  /\ useEventLogger noUser (Some ed1) "full" = Some ed1
  /\ emitUpdate ed1 7 tr
     = [mkEvent "key_press" (KeyData "Input") 7 (Some 1) (Some 2) (Some 3) "full" true]
  /\ useEventLogger other (Some ed1) "full"
     = Some (mkEditor [mkHandler (Some 1) (Some 2) (Some 4) "full"]).
Proof. cbv zeta. repeat split. Qed.

End EventLoggerSpec.

(** Deciding a comparison that [lia] settles. *)
Ltac ltb_true x y :=
  replace (x <? y) with true by (symmetry; apply Nat.ltb_lt; (assumption || lia)).
Ltac ltb_false x y :=
  replace (x <? y) with false by (symmetry; apply Nat.ltb_ge; lia).

(** ** The document model *)

Module ProseMirrorFacts.
Import ProseMirror Places.

Lemma Node_ind' (P : Node -> Prop) :
  (forall t m, P (TextNode t m)) ->
  (forall nm a mk c, Forall P c -> P (ElemNode nm a mk c)) ->
  forall n, P n.
Proof.
  intros Ht He. fix IH 1. intros [t m | nm a mk c].
  - apply Ht.
  - apply He. induction c as [|x c IHc]; constructor; [apply IH | exact IHc].
Qed.

Lemma fragmentSize_cons (x : Node) (l : Fragment) :
  fragmentSize (x :: l) = nodeSize x + fragmentSize l.
Proof. reflexivity. Qed.

Lemma fragmentSize_app (l1 l2 : Fragment) :
  fragmentSize (l1 ++ l2) = fragmentSize l1 + fragmentSize l2.
Proof.
  unfold fragmentSize. now rewrite map_app, list_sum_app.
Qed.

Lemma nodeSize_elem nm a mk c :
  nodeSize (ElemNode nm a mk c) = if leafType nm then 1 else 2 + fragmentSize c.
Proof. reflexivity. Qed.

Lemma valid_elem nm a mk c :
  valid (ElemNode nm a mk c) = true ->
  (leafType nm = true /\ c = []) \/
  (leafType nm = false /\ forallb valid c = true
   /\ (forallb isBlock c = true \/ forallb (fun x => negb (isBlock x)) c = true)).
Proof.
  cbn [valid]. destruct (leafType nm).
  - destruct c; [now left | discriminate].
  - intros H. right. apply andb_true_iff in H as [Hu Hv].
    apply orb_true_iff in Hu. auto.
Qed.

Lemma valid_size (n : Node) : valid n = true -> 1 <= nodeSize n.
Proof.
  destruct n as [t m | nm a mk c]; cbn [valid nodeSize].
  - destruct (String.length t); [discriminate | lia].
  - destruct (leafType nm); lia.
Qed.

Lemma valid_contentSize nm a mk c :
  valid (ElemNode nm a mk c) = true ->
  contentSize (ElemNode nm a mk c) = 0 \/
  nodeSize (ElemNode nm a mk c) = 2 + contentSize (ElemNode nm a mk c).
Proof.
  intros H. apply valid_elem in H as [[Hl ->] | [Hl _]].
  - now left.
  - right. rewrite nodeSize_elem, Hl. reflexivity.
Qed.

Section Traversal.

Context {S : Type}.
Variable f : Node -> nat -> S -> S * bool.

Lemma nodesBetween_elem nm a mk c from to ns (s : S) :
  nodesBetween f (ElemNode nm a mk c) from to ns s
  = fragNodesBetween f c 0 from to ns s.
Proof.
  cbn [nodesBetween].
  match goal with
  | |- ?loop c 0 s = _ =>
      enough (H : forall pos s', loop c pos s' = fragNodesBetween f c pos from to ns s')
        by apply H
  end.
  induction c as [|x c IH]; intros pos s'; [reflexivity|].
  cbn [fragNodesBetween]. destruct (pos <? to); [|reflexivity].
  apply IH.
Qed.

Lemma nodesBetween_content (n : Node) from to ns (s : S) :
  nodesBetween f n from to ns s = fragNodesBetween f (nodeContent n) 0 from to ns s.
Proof. destruct n; [reflexivity | apply nodesBetween_elem]. Qed.

End Traversal.

Section MatchFacts.

Variable P : Node -> bool.

Lemma matchesIn_content (n : Node) : matchesIn P n = matchesFrag P (nodeContent n).
Proof.
  destruct n as [t m | nm a mk c]; [reflexivity|].
  cbn [matchesIn nodeContent]. induction c as [|x c IH]; [reflexivity|].
  cbn [matchesFrag]. now rewrite IH.
Qed.

End MatchFacts.

End ProseMirrorFacts.

(** ** The schema *)

Module SchemaSpec.
Import ProseMirror Places ProseMirrorFacts.

(** Deciding a test on the name of a node type, name by name. *)
Ltac by_name nm :=
  repeat match goal with
         | |- context [String.eqb nm ?s] =>
             destruct (String.eqb_spec nm s) as [-> | ?]; cbn
         end.

(** A type of the schema is a leaf, or a block that takes content. *)
Lemma contentExpr_kind (nm : string) (e : ContentExpr) :
  contentExpr nm = Some e ->
  (e = NoContent /\ leafType nm = true)
  \/ (e <> NoContent /\ leafType nm = false /\ inlineType nm = false).
Proof.
  unfold contentExpr, leafType, inlineType. by_name nm;
    intros [= <-]; (now left) || (right; repeat split; discriminate).
Qed.

Lemma conforms_elem nm a mk c :
  conforms (ElemNode nm a mk c) = true ->
  (leafType nm = true /\ c = [])
  \/ (leafType nm = false /\ inlineType nm = false /\ forallb conforms c = true).
Proof.
  cbn [conforms]. intros H. apply andb_true_iff in H as [Hc Hv].
  unfold validContent, matchesContent in Hc. apply andb_true_iff in Hc as [Hm _].
  destruct (contentExpr nm) as [e|] eqn:E; [|discriminate].
  destruct (contentExpr_kind nm e E) as [[-> Hl] | [_ [Hl Hi]]].
  - left. split; [exact Hl|]. destruct c; [reflexivity | discriminate].
  - right. auto.
Qed.

Lemma inBlockGroup_isBlock (x : Node) : inBlockGroup x = true -> isBlock x = true.
Proof.
  destruct x as [t m | nm a mk c]; [discriminate|]. cbn [inBlockGroup isBlock].
  unfold blockGroup, inlineType. cbn [existsb]. by_name nm; congruence.
Qed.

Lemma inInlineGroup_isBlock (x : Node) : inInlineGroup x = true -> isBlock x = false.
Proof.
  destruct x as [t m | nm a mk c]; [reflexivity|]. cbn [inInlineGroup isBlock].
  unfold inlineType. by_name nm; congruence.
Qed.

Lemma hasType_isBlock (s : string) (x : Node) :
  inlineType s = false -> hasType s x = true -> isBlock x = true.
Proof.
  destruct x as [t m | nm a mk c]; [discriminate|]. cbn [hasType isBlock].
  intros Hs H. apply String.eqb_eq in H. subst nm. now rewrite Hs.
Qed.

Lemma forallb_impl {A : Type} (f g : A -> bool) (l : list A) :
  (forall x, f x = true -> g x = true) -> forallb f l = true -> forallb g l = true.
Proof.
  intros H. induction l as [|x l IH]; [reflexivity|]. cbn [forallb].
  intros Hl. apply andb_true_iff in Hl as [Hx Hl]. now rewrite (H x Hx), IH.
Qed.

(** The children that a content expression takes are all blocks or all
    inline. *)
Lemma matchFragment_kinds (e : ContentExpr) (c : Fragment) :
  matchFragment e c = true ->
  forallb isBlock c = true \/ forallb (fun x => negb (isBlock x)) c = true.
Proof.
  destruct e; cbn [matchFragment]; intros H.
  - apply andb_true_iff in H as [_ H]. left.
    exact (forallb_impl _ _ c inBlockGroup_isBlock H).
  - right. apply (forallb_impl inInlineGroup); [|exact H].
    intros x Hx. now rewrite (inInlineGroup_isBlock x Hx).
  - apply andb_true_iff in H as [_ H]. left.
    apply (forallb_impl (hasType "listItem")); [|exact H].
    intros x. now apply hasType_isBlock.
  - destruct c as [|first rest]; [discriminate|].
    apply andb_true_iff in H as [H1 H2]. left. cbn [forallb].
    rewrite (hasType_isBlock "paragraph" first eq_refl H1).
    exact (forallb_impl _ _ rest inBlockGroup_isBlock H2).
  - right. apply (forallb_impl isText); [|exact H].
    intros [t m | nm a mk cc]; [reflexivity | discriminate].
  - destruct c; [now left | discriminate].
Qed.

(** A document that conforms to the schema is one the library builds. *)
Lemma conforms_valid (n : Node) : conforms n = true -> valid n = true.
Proof.
  induction n as [t m | nm a mk c IH] using Node_ind'; [trivial|].
  intros H. pose proof H as H0. apply conforms_elem in H0 as [[Hl ->] | [Hl [_ Hc]]];
    cbn [valid]; rewrite Hl; [reflexivity|].
  cbn [conforms] in H. apply andb_true_iff in H as [Hv _].
  unfold validContent, matchesContent in Hv. apply andb_true_iff in Hv as [Hm _].
  destruct (contentExpr nm) as [e|]; [|discriminate].
  apply andb_true_iff. split.
  - apply orb_true_iff. exact (matchFragment_kinds e c Hm).
  - clear Hm. induction IH as [|x c Hx _ IHc]; [reflexivity|].
    cbn [forallb] in *. apply andb_true_iff in Hc as [Hcx Hcc].
    now rewrite (Hx Hcx), (IHc Hcc).
Qed.

Lemma conforms_valid_all (l : Fragment) :
  forallb conforms l = true -> forallb valid l = true.
Proof. apply forallb_impl. exact conforms_valid. Qed.

End SchemaSpec.

(** ** The accept/reject flow: what the lookup finds *)

Module LookupSpec.
Import ProseMirror Places Invariants ProseMirrorFacts AcceptReject.

Lemma lastRange_app off ms1 ms2 st :
  lastRange off (ms1 ++ ms2) st = lastRange off ms2 (lastRange off ms1 st).
Proof. unfold lastRange. now rewrite fold_left_app. Qed.

Lemma lastRange_map off off' (g : FragCtx * Node -> FragCtx * Node) ms st :
  (forall m, off + ctxPos (fst (g m)) = off' + ctxPos (fst m) /\ snd (g m) = snd m) ->
  lastRange off (map g ms) st = lastRange off' ms st.
Proof.
  intros Hg. unfold lastRange. revert st.
  induction ms as [|m ms IH]; intros st; [reflexivity|].
  cbn [map fold_left]. rewrite IH. f_equal.
  unfold rangeOf. cbn [fst snd]. destruct (Hg m) as [H1 H2]. rewrite H2.
  f_equal; lia.
Qed.

Lemma size_zero_nil (l : Fragment) :
  forallb valid l = true -> fragmentSize l = 0 -> l = [].
Proof.
  destruct l as [|x l]; [reflexivity|].
  cbn [forallb]. intros H Hs. apply andb_true_iff in H as [Hx _].
  apply valid_size in Hx. rewrite fragmentSize_cons in Hs. lia.
Qed.

Section Lookup.

Variable localText : string.

Local Abbreviation P := (isProvisional localText).
Local Abbreviation step := (lookupStep localText).
Local Abbreviation lookupOk := (Invariants.lookupOk localText).

Lemma lookup_frag (l : Fragment) :
  Forall lookupOk l -> forallb valid l = true ->
  forall pos to ns st, pos + fragmentSize l <= to ->
    fragNodesBetween step l pos 0 to ns st
    = lastRange (ns + pos) (matchesFrag P l) st.
Proof.
  induction 1 as [|child rest Hchild Hrest IH]; intros Hv pos to ns st Hto;
    [reflexivity|].
  cbn [forallb] in Hv. apply andb_true_iff in Hv as [Hvc Hvr].
  rewrite fragmentSize_cons in Hto.
  pose proof (valid_size child Hvc) as Hsz.
  cbn [fragNodesBetween matchesFrag].
  ltb_true pos to.
  ltb_true 0 (pos + nodeSize child).
  rewrite lastRange_app.
  rewrite (lastRange_map (ns + pos) (ns + (pos + nodeSize child))
             (fun ch => (shiftCtx child (fst ch), snd ch))).
  2:{ intros [c h]. cbn [fst snd]. split; [|reflexivity].
      destruct c; cbn [shiftCtx ctxPos]; rewrite fragmentSize_cons; lia. }
  rewrite <- (IH Hvr (pos + nodeSize child) to ns) by lia. f_equal.
  unfold step, lookupStep. fold P. destruct (P child) eqn:EP.
  - cbn [andb]. unfold lastRange, rangeOf.
    cbn [fold_left fst snd ctxPos]. unfold fragmentSize.
    cbn [map list_sum fold_right]. f_equal; lia.
  - cbn [andb]. destruct child as [t m | nm a mk c].
    + reflexivity.
    + destruct (contentSize (ElemNode nm a mk c) =? 0) eqn:Ec; cbn [negb].
      * apply Nat.eqb_eq in Ec.
        apply valid_elem in Hvc as [[_ ->] | [_ [Hvc _]]]; [reflexivity|].
        unfold contentSize in Ec. cbn [nodeContent] in Ec.
        rewrite (size_zero_nil c Hvc Ec). reflexivity.
      * apply Nat.eqb_neq in Ec.
        destruct (valid_contentSize _ _ _ _ Hvc) as [E0 | E2]; [congruence|].
        rewrite (lastRange_map (ns + pos) (ns + (pos + 1))
                   (fun ch => (Inside [] nm a mk (fst ch) rest, snd ch))).
        2:{ intros [ci h]. cbn [fst snd ctxPos]. split; [|reflexivity].
            unfold fragmentSize. cbn [map list_sum fold_right]. lia. }
        replace (Nat.max 0 (0 - (pos + 1))) with 0 by lia.
        apply Hchild; [assumption | lia].
Qed.

Lemma lookup_node (n : Node) : lookupOk n.
Proof.
  induction n as [t m | nm a mk c IH] using Node_ind'; intros Hv to ns st Hto.
  - reflexivity.
  - rewrite nodesBetween_elem, matchesIn_content. cbn [nodeContent].
    apply valid_elem in Hv as [[_ ->] | [_ [Hv _]]]; [reflexivity|].
    rewrite (lookup_frag c IH Hv 0 to ns st) by exact Hto.
    now rewrite Nat.add_0_r.
Qed.

(** On a valid document the lookup ends with the range of the last node
    that passes the test, in the order of the traversal, and with [0, 0]
    when there is none. *)
Lemma lookup_last (doc : Node) :
  valid doc = true ->
  lookup localText doc =
    match rev (matchesIn P doc) with
    | m :: _ => rangeOf m
    | [] => (0, 0)
    end.
Proof.
  intros Hv. unfold lookup, descendants.
  fold step. rewrite (lookup_node doc Hv) by apply Nat.le_refl.
  unfold lastRange. rewrite <- fold_left_rev_right.
  destruct (rev (matchesIn P doc)) as [|m ms]; [reflexivity|].
  cbn [fold_right]. destruct (rangeOf m). reflexivity.
Qed.

End Lookup.

End LookupSpec.

(** ** Replacing the node in the hole of a context *)

Module ReplaceSpec.
Import ProseMirror Places ProseMirrorFacts.

Lemma replace_elem nm a mk c from to ins :
  replace (ElemNode nm a mk c) from to ins =
    match replaceInner from to ins c 0 with
    | Some (Some c') => Some (ElemNode nm a mk c')
    | Some None => None
    | None =>
        if from <=? to then
          match replaceFlat from to ins c with
          | Some c' => Some (ElemNode nm a mk c')
          | None => None
          end
        else None
    end.
Proof.
  cbn [replace].
  match goal with
  | |- match ?loop c 0 with _ => _ end = _ =>
      enough (H : forall pos, loop c pos = replaceInner from to ins c pos)
        by now rewrite H
  end.
  induction c as [|x c IH]; intros pos; [reflexivity|].
  cbn [replaceInner]. now rewrite IH.
Qed.

Lemma replaceInner_skip from to ins (b r : Fragment) (pos : nat) :
  from <= to -> pos + fragmentSize b <= from ->
  replaceInner from to ins (b ++ r) pos =
    match replaceInner from to ins r (pos + fragmentSize b) with
    | Some (Some r') => Some (Some (b ++ r'))
    | Some None => Some None
    | None => None
    end.
Proof.
  intros Hft. revert pos. induction b as [|x b IH]; intros pos Hpos.
  - cbn [app]. unfold fragmentSize. cbn. rewrite Nat.add_0_r.
    destruct (replaceInner from to ins r pos) as [[r'|]|]; reflexivity.
  - rewrite fragmentSize_cons in Hpos. cbn [app replaceInner].
    ltb_false to (pos + nodeSize x).
    rewrite andb_false_r. cbn [andb].
    rewrite IH by lia. rewrite fragmentSize_cons, Nat.add_assoc.
    destruct (replaceInner from to ins r (pos + nodeSize x + fragmentSize b))
      as [[r'|]|]; reflexivity.
Qed.

Lemma replaceInner_after from to ins (r : Fragment) (pos : nat) :
  from <= pos -> replaceInner from to ins r pos = None.
Proof.
  revert pos. induction r as [|x r IH]; intros pos Hpos; [reflexivity|].
  cbn [replaceInner].
  ltb_false pos from.
  cbn [andb]. rewrite IH by lia. reflexivity.
Qed.

Lemma splitAt_app (b r : Fragment) :
  forallb valid b = true -> splitAt (fragmentSize b) (b ++ r) = Some (b, r).
Proof.
  induction b as [|x b IH]; intros Hv.
  - destruct r; reflexivity.
  - cbn [forallb] in Hv. apply andb_true_iff in Hv as [Hx Hb].
    pose proof (valid_size x Hx) as Hsz.
    rewrite fragmentSize_cons. cbn [app].
    destruct (nodeSize x + fragmentSize b) as [|k] eqn:E; [lia|].
    cbn [splitAt]. rewrite <- E.
    replace (nodeSize x <=? nodeSize x + fragmentSize b) with true
      by (symmetry; apply Nat.leb_le; lia).
    replace (nodeSize x + fragmentSize b - nodeSize x) with (fragmentSize b) by lia.
    now rewrite IH.
Qed.

Lemma plug_not_nil (c : FragCtx) (h : Node) (x : Fragment) : plug c (h :: x) <> [].
Proof.
  destruct c; cbn [plug]; intros H; apply (f_equal (@length Node)) in H;
    rewrite length_app in H; cbn in H; lia.
Qed.

(** A node that has something in its content is not a leaf. *)
Lemma valid_parent nm a mk c (h : Node) (x : Fragment) :
  valid (ElemNode nm a mk (plug c (h :: x))) = true ->
  leafType nm = false /\ forallb valid (plug c (h :: x)) = true
  /\ (forallb isBlock (plug c (h :: x)) = true
      \/ forallb (fun y => negb (isBlock y)) (plug c (h :: x)) = true).
Proof.
  intros Hv. apply valid_elem in Hv as [[_ He] | Hv]; [|exact Hv].
  now apply plug_not_nil in He.
Qed.

Lemma plug_size (c : FragCtx) (h : Node) :
  forallb valid (plug c [h]) = true ->
  ctxPos c + nodeSize h <= fragmentSize (plug c [h]).
Proof.
  induction c as [b a | b nm a' mk inner IH a]; cbn [plug ctxPos]; intros Hv.
  - rewrite !fragmentSize_app, fragmentSize_cons. lia.
  - rewrite forallb_app in Hv. apply andb_true_iff in Hv as [_ Hv].
    cbn [forallb] in Hv. apply andb_true_iff in Hv as [Hv _].
    rewrite fragmentSize_app, fragmentSize_cons.
    apply valid_parent in Hv as [Hl [Hc _]].
    rewrite nodeSize_elem, Hl. specialize (IH Hc). lia.
Qed.

(** Replacing exactly the range of the node in the hole puts the slice
    in the hole and leaves the rest of the document as it is. *)
Lemma replace_plug (c : FragCtx) (h : Node) (ins : Fragment) :
  forall nm a mk,
  valid (ElemNode nm a mk (plug c [h])) = true ->
  seam c ins ->
  replace (ElemNode nm a mk (plug c [h])) (ctxPos c) (ctxPos c + nodeSize h) ins
  = Some (ElemNode nm a mk (plug c ins)).
Proof.
  induction c as [b r | b nm' a' mk' inner IH r]; intros nm a mk Hv Hseam;
    apply valid_parent in Hv as [Hl [Hv _]]; rewrite replace_elem;
    cbn [plug ctxPos] in *.
  - rewrite replaceInner_skip by lia.
    rewrite replaceInner_after by lia.
    replace (fragmentSize b <=? fragmentSize b + nodeSize h) with true
      by (symmetry; apply Nat.leb_le; lia).
    rewrite forallb_app in Hv. apply andb_true_iff in Hv as [Hb Hhr].
    cbn [app forallb] in Hhr. apply andb_true_iff in Hhr as [Hh Hr].
    unfold replaceFlat. rewrite (splitAt_app b ([h] ++ r) Hb).
    replace (fragmentSize b + nodeSize h) with (fragmentSize (b ++ [h]))
      by (rewrite fragmentSize_app, fragmentSize_cons; unfold fragmentSize; cbn; lia).
    replace (b ++ [h] ++ r) with ((b ++ [h]) ++ r) by now rewrite <- app_assoc.
    rewrite splitAt_app by (rewrite forallb_app, Hb; cbn; now rewrite Hh).
    now rewrite Hseam.
  - rewrite forallb_app in Hv. apply andb_true_iff in Hv as [Hb Hxr].
    cbn [forallb] in Hxr. apply andb_true_iff in Hxr as [Hx Hr].
    pose proof Hx as Hx'. apply valid_parent in Hx' as [Hl' [Hin _]].
    pose proof (plug_size inner h Hin) as Hsz.
    rewrite replaceInner_skip by lia.
    cbn [replaceInner]. rewrite nodeSize_elem, Hl'. cbn [isLeaf]. rewrite Hl'.
    ltb_true (0 + fragmentSize b) (fragmentSize b + 1 + ctxPos inner).
    replace (fragmentSize b + 1 + ctxPos inner + nodeSize h
             <? 0 + fragmentSize b + (2 + fragmentSize (plug inner [h]))) with true
      by (symmetry; apply Nat.ltb_lt; lia).
    cbn [andb negb].
    replace (fragmentSize b + 1 + ctxPos inner - (0 + fragmentSize b) - 1)
      with (ctxPos inner) by lia.
    replace (fragmentSize b + 1 + ctxPos inner + nodeSize h - (0 + fragmentSize b) - 1)
      with (ctxPos inner + nodeSize h) by lia.
    now rewrite (IH nm' a' mk' Hx Hseam).
Qed.

End ReplaceSpec.

(** ** Matches stand where their context says *)

Module MatchSpec.
Import ProseMirror Places Invariants ProseMirrorFacts ReplaceSpec AcceptReject.

Lemma plug_shift (x : Node) (c : FragCtx) (y : Fragment) :
  plug (shiftCtx x c) y = x :: plug c y.
Proof. destruct c; reflexivity. Qed.

Section Generic.

Variable P : Node -> bool.

Local Abbreviation placed := (Invariants.placed P).

Lemma matchesFrag_placed (l : Fragment) :
  Forall placed l ->
  forall c h, In (c, h) (matchesFrag P l) -> l = plug c [h] /\ P h = true.
Proof.
  induction 1 as [|child rest Hchild _ IH]; intros c h Hin; [contradiction|].
  cbn [matchesFrag] in Hin. apply in_app_or in Hin as [Hin | Hin].
  - destruct (P child) eqn:EP.
    + destruct Hin as [E | []]. injection E as <- <-. now split.
    + destruct child as [t m | nm a mk cc]; [contradiction|].
      apply in_map_iff in Hin as [[ci hi] [E Hin]]. cbn [fst snd] in E.
      injection E as <- <-.
      destruct (Hchild ci hi Hin) as [Hc Hp]. cbn [nodeContent] in Hc.
      split; [|exact Hp]. cbn [plug app]. now rewrite Hc.
  - apply in_map_iff in Hin as [[ci hi] [E Hin]]. cbn [fst snd] in E.
    injection E as <- <-.
    destruct (IH ci hi Hin) as [Hc Hp]. split; [|exact Hp].
    rewrite plug_shift. now rewrite <- Hc.
Qed.

Lemma matchesIn_placed (n : Node) : placed n.
Proof.
  induction n as [t m | nm a mk c IH] using Node_ind'; intros ci h Hin.
  - contradiction.
  - rewrite matchesIn_content in Hin. cbn [nodeContent] in *.
    now apply matchesFrag_placed.
Qed.

End Generic.

(** *** Seams *)

Lemma append_nil_r (b : Fragment) : append b [] = b.
Proof.
  induction b as [|x b IH]; [reflexivity|].
  destruct b as [|y b]; [reflexivity|].
  cbn [append] in *. now rewrite IH.
Qed.

Lemma append_blocks (b r : Fragment) :
  forallb isBlock b = true -> append b r = b ++ r.
Proof.
  induction b as [|x b IH]; intros Hb; [reflexivity|].
  cbn [forallb] in Hb. apply andb_true_iff in Hb as [Hx Hb].
  destruct b as [|y b].
  - cbn [append app]. destruct r as [|first r]; [reflexivity|].
    destruct x; [discriminate | reflexivity].
  - cbn [append app] in *. now rewrite IH.
Qed.

Lemma append_elem (b : Fragment) nm a mk c :
  append b [ElemNode nm a mk c] = b ++ [ElemNode nm a mk c].
Proof.
  induction b as [|x b IH]; [reflexivity|].
  destruct b as [|y b].
  - cbn [append app]. destruct x; reflexivity.
  - cbn [append app] in *. now rewrite IH.
Qed.

Lemma append_after_elem (b r : Fragment) nm a mk c :
  append (b ++ [ElemNode nm a mk c]) r = b ++ [ElemNode nm a mk c] ++ r.
Proof.
  induction b as [|x b IH].
  - cbn [append app]. destruct r; reflexivity.
  - destruct b as [|y b]; cbn [append app] in *; now rewrite IH.
Qed.

(** Putting a node that is not text in the hole joins nothing. *)
Lemma seam_elem (c : FragCtx) nm a mk cc : seam c [ElemNode nm a mk cc].
Proof.
  induction c as [b r | b nm' a' mk' inner IH r]; cbn [seam]; [|exact IH].
  now rewrite append_elem, append_after_elem.
Qed.

(** Emptying a hole that held a block joins nothing: its neighbours are
    blocks. *)
Lemma seam_empty (c : FragCtx) (h : Node) :
  forall nm a mk,
  valid (ElemNode nm a mk (plug c [h])) = true -> isBlock h = true -> seam c [].
Proof.
  induction c as [b r | b nm' a' mk' inner IH r]; intros nm a mk Hv Hh;
    apply valid_parent in Hv as [_ [Hv Hu]]; cbn [seam plug] in *.
  - rewrite append_nil_r. cbn [app]. apply append_blocks.
    destruct Hu as [Hu | Hu]; rewrite forallb_app in Hu;
      apply andb_true_iff in Hu as [Hb Hr]; [exact Hb|].
    cbn [app forallb] in Hr. rewrite Hh in Hr. discriminate.
  - rewrite forallb_app in Hv. apply andb_true_iff in Hv as [_ Hv].
    cbn [forallb] in Hv. apply andb_true_iff in Hv as [Hv _].
    exact (IH nm' a' mk' Hv Hh).
Qed.

(** Validity is kept when the node in the hole is replaced by a valid
    node of the same kind. *)
Lemma valid_plug (c : FragCtx) (h x : Node) :
  forall nm a mk,
  valid (ElemNode nm a mk (plug c [h])) = true ->
  valid x = true -> isBlock x = isBlock h ->
  valid (ElemNode nm a mk (plug c [x])) = true.
Proof.
  induction c as [b r | b nm' a' mk' inner IH r]; intros nm a mk Hv Hx Hk;
    apply valid_parent in Hv as [Hl [Hv Hu]]; cbn [valid]; rewrite Hl;
    cbn [plug] in *; rewrite !forallb_app in *; cbn [app forallb] in *;
    apply andb_true_iff in Hv as [Hb Hv]; apply andb_true_iff in Hv as [Hh Hr].
  - rewrite Hb, Hx, Hr, Hk. cbn [andb]. rewrite andb_true_r.
    destruct Hu as [Hu | Hu]; rewrite Hu; [reflexivity | apply orb_true_r].
  - rewrite Hb, Hr, (IH nm' a' mk' Hh Hx Hk). cbn [andb]. rewrite andb_true_r.
    cbn [isBlock] in *.
    destruct Hu as [Hu | Hu]; rewrite Hu; [reflexivity | apply orb_true_r].
Qed.

End MatchSpec.

(** ** The accept/reject flow *)

Module AcceptRejectSpec.
Import ProseMirror Places Invariants ProseMirrorFacts ReplaceSpec LookupSpec MatchSpec.
Import AcceptReject.
Import Examples.

Lemma provisional_shape (t : string) (h : Node) :
  isProvisional t h = true ->
  exists a mk m rest, h = ElemNode "heading" a mk (TextNode t m :: rest).
Proof.
  unfold isProvisional. intros H.
  apply andb_true_iff in H as [H Ht]. apply andb_true_iff in H as [Hn _].
  destruct h as [t' m' | nm a mk c]; cbn in Hn; [discriminate|].
  apply String.eqb_eq in Hn. subst nm.
  cbn [nodeContent] in Ht. destruct c as [|x rest]; [discriminate|].
  cbn [firstChild] in Ht. destruct x as [t' m | ? ? ? ?]; cbn [nodeText] in Ht;
    [|discriminate].
  apply String.eqb_eq in Ht. subst t'. now exists a, mk, m, rest.
Qed.

Lemma provisional_block (t : string) (h : Node) :
  isProvisional t h = true -> isBlock h = true.
Proof.
  intros H. destruct (provisional_shape t h H) as (a & mk & m & rest & ->). reflexivity.
Qed.

Lemma provisional_text (t : string) (h : Node) :
  isProvisional t h = true -> valid h = true -> valid (TextNode t []) = true.
Proof.
  intros H Hv. destruct (provisional_shape t h H) as (a & mk & m & rest & ->).
  cbn in Hv. apply andb_true_iff in Hv as [_ Hv]. apply andb_true_iff in Hv as [Hv _].
  exact Hv.
Qed.

(** The test looks at the type, the level and the first child only; it
    gives the same answer when a node that is not text takes the place of
    one that is not text further down. *)
Lemma provisional_plug (t : string) nm a mk (c : FragCtx) nm1 a1 mk1 c1 nm2 a2 mk2 c2 :
  isProvisional t (ElemNode nm a mk (plug c [ElemNode nm1 a1 mk1 c1]))
  = isProvisional t (ElemNode nm a mk (plug c [ElemNode nm2 a2 mk2 c2])).
Proof.
  unfold isProvisional. cbn [typeName nodeAttrs nodeContent]. f_equal.
  destruct c as [[|b0 b] r | [|b0 b] nm' a' mk' inner r]; reflexivity.
Qed.

Lemma plug_valid_hole (c : FragCtx) (h : Node) :
  forallb valid (plug c [h]) = true -> valid h = true.
Proof.
  induction c as [b r | b nm a mk inner IH r]; cbn [plug]; intros Hv;
    rewrite forallb_app in Hv; apply andb_true_iff in Hv as [_ Hv];
    cbn [app forallb] in Hv; apply andb_true_iff in Hv as [Hv _].
  - exact Hv.
  - apply valid_parent in Hv as [_ [Hv _]]. now apply IH.
Qed.

Section OneText.

Variable localText : string.

Local Abbreviation P := (isProvisional localText).
Local Abbreviation emptied := (Invariants.emptied localText).

(** What the lookup finds, in terms of places. *)
Lemma lookup_found (doc : Node) (from to : nat) :
  valid doc = true ->
  lookup localText doc = (from, to) ->
  (from = to /\ matchesIn P doc = [])
  \/ (from <> to /\
      exists c h nm a mk,
        doc = ElemNode nm a mk (plug c [h]) /\ P h = true
        /\ from = ctxPos c /\ to = ctxPos c + nodeSize h
        /\ exists ms, matchesIn P doc = ms ++ [(c, h)]).
Proof.
  intros Hv Hl. rewrite (lookup_last localText doc Hv) in Hl.
  destruct (rev (matchesIn P doc)) as [|[c h] ms] eqn:Er.
  - left. injection Hl as <- <-. split; [reflexivity|].
    apply (f_equal (@rev _)) in Er. now rewrite rev_involutive in Er.
  - right. unfold rangeOf in Hl. cbn [fst snd] in Hl. injection Hl as <- <-.
    apply (f_equal (@rev _)) in Er. rewrite rev_involutive in Er. cbn [rev] in Er.
    assert (Hin : In (c, h) (matchesIn P doc))
      by (rewrite Er; apply in_or_app; right; now left).
    destruct (matchesIn_placed P doc c h Hin) as [Hc Hp].
    destruct doc as [t m | nm a mk cc]; [contradiction|].
    cbn [nodeContent] in Hc. subst cc.
    apply valid_parent in Hv as [_ [Hv _]].
    pose proof (valid_size h (plug_valid_hole c h Hv)).
    split; [lia|]. exists c, h, nm, a, mk. repeat split; auto.
    now exists (rev ms).
Qed.

Lemma matchesFrag_emptied nm' a' mk' c' (l : Fragment) :
  let x := ElemNode nm' a' mk' c' in
  P x = false -> matchesIn P x = [] ->
  Forall (emptied x) l ->
  forall c h, matchesFrag P l = [(c, h)] -> matchesFrag P (plug c [x]) = [].
Proof.
  intros x Hpx Hmx. induction 1 as [|child rest Hchild _ IH]; intros c h Hm;
    [discriminate|].
  cbn [matchesFrag] in Hm.
  apply app_eq_unit in Hm as [[Hown Hrest] | [Hown Hrest]].
  - (* the match is among the later siblings *)
    destruct (matchesFrag P rest) as [|[c1 h1] [|? ?]] eqn:Er; try discriminate.
    cbn [map fst snd] in Hrest. injection Hrest as <- <-.
    rewrite plug_shift. cbn [matchesFrag].
    rewrite (IH c1 h1 eq_refl). cbn [map]. rewrite app_nil_r.
    destruct (P child); [discriminate|].
    destruct child as [t m | nm a mk cc]; [reflexivity|].
    destruct (matchesIn P (ElemNode nm a mk cc)); [reflexivity | discriminate].
  - (* the match is this child or below it *)
    apply map_eq_nil in Hrest.
    destruct (P child) eqn:EP.
    + injection Hown as <- <-. cbn [plug app matchesFrag].
      fold x. rewrite Hpx, Hmx, Hrest. reflexivity.
    + destruct child as [t m | nm a mk cc]; [discriminate|].
      destruct (matchesIn P (ElemNode nm a mk cc)) as [|[ci hi] [|? ?]] eqn:Ei;
        try discriminate.
      cbn [map fst snd] in Hown. injection Hown as <- <-.
      assert (Hin : In (ci, hi) (matchesIn P (ElemNode nm a mk cc)))
        by (rewrite Ei; now left).
      destruct (matchesIn_placed P _ ci hi Hin) as [Hc Hp].
      cbn [nodeContent] in Hc. subst cc.
      destruct (provisional_shape localText hi Hp) as (ah & mkh & mh & rh & ->).
      cbn [plug app matchesFrag].
      unfold x at 1. rewrite <- provisional_plug with
        (nm1 := "heading") (a1 := ah) (mk1 := mkh) (c1 := TextNode localText mh :: rh).
      rewrite EP, Hrest.
      rewrite matchesIn_content. cbn [nodeContent].
      rewrite (Hchild ci _ Ei). reflexivity.
Qed.

Lemma matchesIn_emptied nm' a' mk' c' (n : Node) :
  let x := ElemNode nm' a' mk' c' in
  P x = false -> matchesIn P x = [] -> emptied x n.
Proof.
  intros x Hpx Hmx.
  induction n as [t m | nm a mk c IH] using Node_ind'; intros ci h Hm.
  - discriminate.
  - rewrite matchesIn_content in Hm. cbn [nodeContent] in Hm.
    exact (matchesFrag_emptied nm' a' mk' c' c Hpx Hmx IH ci h Hm).
Qed.

End OneText.

(** Without a target the handler does nothing; after an accept or a
    reject the target is cleared, so nothing happens until a provisional
    element is activated again. *)
Lemma handle_without_target (action : Action) (comp : Component) :
  popoverTarget comp = None -> handleEditorAction action comp = Some comp.
Proof. unfold handleEditorAction. now intros ->. Qed.

(** C1: the accept of the provisional heading between two paragraphs.
    The paragraph is created with the "generated" mark (and without the
    [class] attribute, which the paragraph type does not declare); the
    document does not allow a mark on its children, so the slice does not
    fit as it is, no node above the range takes the marked paragraph, and
    the step that replaces the heading holds the paragraph without the
    mark.  The document afterwards has an ordinary paragraph with the
    captured text where the heading was: nothing in it carries the mark.
    A second accept finds no heading and leaves that document as it is. *)
Theorem accept_drops_generated_mark :
  let doc := document [paragraph "x"; heading6 "a"; paragraph "y"] in
  let doc1 := document [paragraph "x"; paragraph "a"; paragraph "y"] in
  let target := mkElement "H6" "a" in
  generatedParagraph "a" = ElemNode "paragraph" [] [mkMark "generated"] [TextNode "a" []]
  /\ transaction confirm "a" doc = Some (ReplaceRange 3 6 [generatedParagraph "a"])
  /\ Transform.parentAt doc 3 6 = Some ("doc", [paragraph "x"], [paragraph "y"])
  /\ allowsMarks "doc" [mkMark "generated"] = false
  /\ Transform.replaceStep doc 3 6 [generatedParagraph "a"] = Some [paragraph "a"]
  /\ handleEditorAction confirm (mkComponent (Some doc) (Some "a") (Some target) true)
     = Some (mkComponent (Some doc1) None None false)
  /\ map nodeMarks (nodeContent doc1) = [[]; []; []]
  /\ paragraph "a" <> generatedParagraph "a"
  /\ handleEditorAction confirm (mkComponent (Some doc1) None (Some target) true)
     = Some (mkComponent (Some doc1) None None false).
Proof. cbv zeta. repeat split. discriminate. Qed.

(** The same in a block quote and in a list item, which allow no mark on
    their children either. *)
Example accept_in_blockquote :
  let quote l := ElemNode "blockquote" [] [] l in
  handleEditorAction confirm
    (mkComponent (Some (document [paragraph "x"; quote [heading6 "a"; paragraph "b"]]))
                 (Some "a") (Some (mkElement "H6" "a")) true)
  = Some (mkComponent
            (Some (document [paragraph "x"; quote [paragraph "a"; paragraph "b"]]))
            None None false).
Proof. reflexivity. Qed.

(** When two provisional headings hold the same text, the second accept
    with the same captured text finds the other one and changes the
    document again. *)
Example second_accept_changes_document :
  let target := mkElement "H6" "a" in
  let doc := document [heading6 "a"; paragraph "b"; heading6 "a"] in
  let doc1 := document [heading6 "a"; paragraph "b"; paragraph "a"] in
  let doc2 := document [paragraph "a"; paragraph "b"; paragraph "a"] in
  handleEditorAction confirm (mkComponent (Some doc) (Some "a") (Some target) true)
  = Some (mkComponent (Some doc1) None None false)
  /\ handleEditorAction confirm (mkComponent (Some doc1) None (Some target) true)
     = Some (mkComponent (Some doc2) None None false)
  /\ doc2 <> doc1.
Proof. cbv zeta. repeat split. discriminate. Qed.


(** With another provisional heading before it whose text is the text of
    that first child, and that text captured, both headings pass the test,
    the later one overwrites the range, and the reject deletes the heading
    whose text is not the captured text and keeps the one whose text it
    is. *)
Example reject_takes_the_other :
  let h := ElemNode "heading" [("level", AttrNum 6)] []
                    [TextNode "a" []; TextNode "b" [mkMark "bold"]] in
  let doc := document [heading6 "a"; h] in
  conforms doc = true
  /\ textContent h = "ab" /\ textContent (heading6 "a") = "a"
  /\ lookup "a" doc = (3, 7)
  /\ handleEditorAction delete
       (mkComponent (Some doc) (Some "a") (Some (mkElement "H6" "a")) true)
     = Some (mkComponent (Some (document [heading6 "a"])) None None false).
Proof. cbv zeta. repeat split. Qed.

(** A heading between two paragraphs is taken out and the paragraphs
    stay as they are. *)
Example reject_between_paragraphs :
  handleEditorAction delete
    (mkComponent (Some (document [paragraph "x"; heading6 "a"; paragraph "y"]))
                 (Some "a") (Some (mkElement "H6" "a")) true)
  = Some (mkComponent (Some (document [paragraph "x"; paragraph "y"])) None None false).
Proof. reflexivity. Qed.

(** A heading inside a block quote: the quote and its other children
    stay. *)
Example reject_in_blockquote :
  let quote l := ElemNode "blockquote" [] [] l in
  handleEditorAction delete
    (mkComponent (Some (document [paragraph "x"; quote [heading6 "a"; paragraph "b"]]))
                 (Some "a") (Some (mkElement "H6" "a")) true)
  = Some (mkComponent (Some (document [paragraph "x"; quote [paragraph "b"]]))
                      None None false).
Proof. reflexivity. Qed.

(** A heading whose text was edited after the activation is not found
    and the document stays as it is. *)
Example reject_after_edit :
  handleEditorAction delete
    (mkComponent (Some (document [paragraph "x"; heading6 "ab"]))
                 (Some "a") (Some (mkElement "H6" "a")) true)
  = Some (mkComponent (Some (document [paragraph "x"; heading6 "ab"])) None None false).
Proof. reflexivity. Qed.

(** C5: with two provisional headings of the same text, the callback's
    [return false] does not end the traversal, the later heading overwrites
    the range, and the mutation is applied to the heading met last: the
    first one, at positions 0 to 3, stays. *)
Theorem lookup_takes_last_match :
  let doc := document [heading6 "a"; paragraph "b"; heading6 "a"] in
  let comp := mkComponent (Some doc) (Some "a") (Some (mkElement "H6" "a")) true in
  matchesIn (isProvisional "a") doc
  = [(Here [] [paragraph "b"; heading6 "a"], heading6 "a");
     (Here [heading6 "a"; paragraph "b"] [], heading6 "a")]
  /\ lookup "a" doc = (6, 9)
  /\ handleEditorAction delete comp
     = Some (mkComponent (Some (document [heading6 "a"; paragraph "b"])) None None false)
  /\ handleEditorAction confirm comp
     = Some (mkComponent
               (Some (document [heading6 "a"; paragraph "b"; paragraph "a"]))
               None None false).
Proof. cbv zeta. repeat split. Qed.


End AcceptRejectSpec.

(** ** The text before and after the cursor *)

Module TextBetweenSpec.
Import ProseMirror Places Invariants ProseMirrorFacts SchemaSpec Completion.

(** *** Slices *)

Lemma substring_all (m : nat) (t : string) :
  String.length t <= m -> substring 0 m t = t.
Proof.
  revert m. induction t as [|ch t IH]; intros m Hm.
  - destruct m; reflexivity.
  - cbn [String.length] in Hm. destruct m as [|m]; [lia|].
    cbn [substring]. rewrite IH by lia. reflexivity.
Qed.

Lemma substring_nil (a m : nat) : substring a m "" = "".
Proof. destruct a, m; reflexivity. Qed.

Lemma slice_beyond (a b b' : nat) (t : string) :
  String.length t <= b -> String.length t <= b' -> JS.slice a b t = JS.slice a b' t.
Proof.
  unfold JS.slice. revert a b b'. induction t as [|ch t IH]; intros a b b' Hb Hb'.
  - now rewrite !substring_nil.
  - cbn [String.length] in *. destruct a as [|a].
    + rewrite !Nat.sub_0_r, !substring_all by (cbn [String.length]; lia). reflexivity.
    + cbn [substring]. destruct b as [|b]; [lia|]. destruct b' as [|b']; [lia|].
      cbn [Nat.sub]. apply IH; lia.
Qed.

Lemma slice_all (n : nat) (t : string) : String.length t <= n -> JS.slice 0 n t = t.
Proof. intros H. unfold JS.slice. rewrite Nat.sub_0_r. now apply substring_all. Qed.

Lemma slice_split (p n : nat) (t : string) :
  String.length t <= n -> (JS.slice 0 p t ++ JS.slice p n t)%string = t.
Proof.
  unfold JS.slice. rewrite Nat.sub_0_r.
  revert p n. induction t as [|ch t IH]; intros p n Hn.
  - now rewrite !substring_nil.
  - cbn [String.length] in Hn. destruct n as [|n]; [lia|]. destruct p as [|p].
    + cbn [substring String.append]. rewrite Nat.sub_0_r.
      cbn [substring]. rewrite substring_all by lia. reflexivity.
    + cbn [substring String.append Nat.sub]. rewrite IH by lia. reflexivity.
Qed.

Lemma slice_empty (t : string) : JS.slice 0 0 t = "".
Proof. destruct t; reflexivity. Qed.

Section Relative.

Variable sep : string.

Local Abbreviation bridged := (Invariants.bridged sep).

Lemma textNode_elem nm a mk c from to st :
  textNode sep (ElemNode nm a mk c) from to st = textFrag sep c from to st.
Proof.
  cbn [textNode]. revert from to st.
  induction c as [|x c IH]; intros from to st; [reflexivity|].
  cbn [textFrag]. unfold textChild. destruct (0 <? to); [|reflexivity].
  apply IH.
Qed.

Lemma textNode_content (n : Node) from to st :
  textNode sep n from to st = textFrag sep (nodeContent n) from to st.
Proof. destruct n; [reflexivity | apply textNode_elem]. Qed.

Lemma step_visitRel (gf gt : nat) (node : Node) (pos : nat) (st : string * bool) :
  textBetweenStep gf gt sep node pos st = (visitRel sep (gf - pos) (gt - pos) node st, true).
Proof.
  unfold textBetweenStep, visitRel. destruct st as [text separated].
  destruct node as [t m | nm a mk c].
  - replace (Nat.max gf pos - pos) with (gf - pos) by lia. reflexivity.
  - destruct (isLeaf _); [reflexivity|].
    destruct (negb separated && isBlock _); reflexivity.
Qed.

Lemma visitRel_beyond from to to' (x : Node) st :
  nodeSize x <= to -> nodeSize x <= to' ->
  visitRel sep from to x st = visitRel sep from to' x st.
Proof.
  intros H H'. destruct x as [t m | nm a mk c]; [|reflexivity].
  unfold visitRel. destruct st as [text separated]. cbn [nodeSize] in *.
  now rewrite (slice_beyond from to to' t).
Qed.

Lemma bridge_frag (l : Fragment) :
  Forall bridged l -> forallb valid l = true ->
  forall gf gt ns M pos st, pos + fragmentSize l <= M ->
    fragNodesBetween (textBetweenStep gf gt sep) l pos (gf - ns) (Nat.min M (gt - ns)) ns st
    = textFrag sep l (gf - ns - pos) (Nat.min M (gt - ns) - pos) st.
Proof.
  induction 1 as [|child rest Hchild _ IH]; intros Hv gf gt ns M pos st HM;
    [reflexivity|].
  cbn [forallb] in Hv. apply andb_true_iff in Hv as [Hvc Hvr].
  rewrite fragmentSize_cons in HM.
  pose proof (valid_size child Hvc) as Hsz.
  cbn [fragNodesBetween textFrag].
  replace (0 <? Nat.min M (gt - ns) - pos) with (pos <? Nat.min M (gt - ns)).
  2:{ destruct (pos <? Nat.min M (gt - ns)) eqn:E; symmetry;
      [apply Nat.ltb_lt in E; apply Nat.ltb_lt | apply Nat.ltb_ge in E; apply Nat.ltb_ge];
      lia. }
  destruct (pos <? Nat.min M (gt - ns)) eqn:Epos; [|reflexivity].
  apply Nat.ltb_lt in Epos.
  rewrite (IH Hvr gf gt ns M (pos + nodeSize child)) by lia.
  replace (gf - ns - (pos + nodeSize child)) with (gf - ns - pos - nodeSize child) by lia.
  replace (Nat.min M (gt - ns) - (pos + nodeSize child))
    with (Nat.min M (gt - ns) - pos - nodeSize child) by lia.
  f_equal. unfold textChild.
  replace (gf - ns - pos <? nodeSize child) with (gf - ns <? pos + nodeSize child).
  2:{ destruct (gf - ns <? pos + nodeSize child) eqn:E; symmetry;
      [apply Nat.ltb_lt in E; apply Nat.ltb_lt | apply Nat.ltb_ge in E; apply Nat.ltb_ge];
      lia. }
  destruct (gf - ns <? pos + nodeSize child) eqn:Efrom; [|reflexivity].
  rewrite step_visitRel. cbn [andb].
  replace (gf - (ns + pos)) with (gf - ns - pos) by lia.
  assert (Hvis : visitRel sep (gf - ns - pos) (gt - (ns + pos)) child st
                 = visitRel sep (gf - ns - pos) (Nat.min M (gt - ns) - pos) child st).
  { destruct (Nat.le_gt_cases M (gt - ns)) as [Hle | Hgt].
    - apply visitRel_beyond; lia.
    - f_equal. lia. }
  rewrite Hvis.
  destruct (contentSize child =? 0) eqn:Ec; cbn [negb]; [reflexivity|].
  apply Nat.eqb_neq in Ec.
  destruct child as [t m | nm a mk c]; [now cbn in Ec|].
  destruct (valid_contentSize _ _ _ _ Hvc) as [E0 | E2]; [congruence|].
  replace (Nat.max 0 (gf - ns - (pos + 1))) with (gf - (ns + (pos + 1))) by lia.
  replace (Nat.min (contentSize (ElemNode nm a mk c)) (Nat.min M (gt - ns) - (pos + 1)))
    with (Nat.min (contentSize (ElemNode nm a mk c)) (gt - (ns + (pos + 1)))) by lia.
  rewrite (Hchild Hvc gf gt (ns + (pos + 1)) (contentSize (ElemNode nm a mk c)))
    by apply Nat.le_refl.
  f_equal; lia.
Qed.

Lemma bridge_node (n : Node) : bridged n.
Proof.
  induction n as [t m | nm a mk c IH] using Node_ind'; intros Hv gf gt ns M st HM.
  - reflexivity.
  - rewrite nodesBetween_elem, textNode_elem.
    apply valid_elem in Hv as [[_ ->] | [_ [Hv _]]]; [reflexivity|].
    rewrite (bridge_frag c IH Hv gf gt ns M 0 st) by exact HM.
    now rewrite !Nat.sub_0_r.
Qed.

(** [textBetween] on a valid document, for [to] within the content. *)
Lemma textBetween_relative (d : Node) (from to : nat) :
  valid d = true -> to <= contentSize d ->
  textBetween d from to sep = fst (textFrag sep (nodeContent d) from to ("", true)).
Proof.
  intros Hv Hto. unfold textBetween.
  pose proof (bridge_node d Hv from to 0 (contentSize d) ("", true) (Nat.le_refl _)) as H.
  rewrite !Nat.sub_0_r in H.
  replace (Nat.min (contentSize d) to) with to in H by lia.
  now rewrite H, textNode_content.
Qed.

End Relative.

Lemma sapp_assoc (a b c : string) : ((a ++ b) ++ c = a ++ (b ++ c))%string.
Proof. induction a as [|ch a IH]; cbn; [reflexivity | now rewrite IH]. Qed.

Lemma sapp_nil_r (a : string) : (a ++ "")%string = a.
Proof. induction a as [|ch a IH]; cbn; [reflexivity | now rewrite IH]. Qed.

Section Split.

Variable sep : string.
Hypothesis sep_truthy : JS.truthy_string sep = true.

Local Abbreviation run := (textFrag sep).
Local Abbreviation accumulates := (Invariants.accumulates sep).

Lemma run_cons (x : Node) (rest : Fragment) from to st :
  0 < to ->
  run (x :: rest) from to st
  = run rest (from - nodeSize x) (to - nodeSize x) (textChild sep x from to st).
Proof.
  intros H. cbn [textFrag].
  ltb_true 0 to. reflexivity.
Qed.

Lemma run_stop (l : Fragment) from st : run l from 0 st = st.
Proof. destruct l; reflexivity. Qed.

Lemma run_skip (l : Fragment) from to st :
  fragmentSize l <= from -> run l from to st = st.
Proof.
  revert from to st. induction l as [|x l IH]; intros from to st H; [reflexivity|].
  rewrite fragmentSize_cons in H. cbn [textFrag]. destruct (0 <? to); [|reflexivity].
  unfold textChild.
  ltb_false from (nodeSize x).
  apply IH. lia.
Qed.

Lemma visit_acc from to (x : Node) (t : string) (s : bool) :
  visitRel sep from to x (t, s)
  = ((t ++ fst (visitRel sep from to x ("", s)))%string,
     snd (visitRel sep from to x ("", s))).
Proof.
  unfold visitRel. destruct x as [t' m | nm a mk c]; cbn [fst snd].
  - reflexivity.
  - destruct (isLeaf _); cbn [fst snd]; [now rewrite sapp_nil_r|].
    destruct (negb s && isBlock _); cbn [fst snd]; [reflexivity | now rewrite sapp_nil_r].
Qed.

Lemma run_acc_frag (l : Fragment) :
  Forall accumulates l ->
  forall from to t s,
    run l from to (t, s)
    = ((t ++ fst (run l from to ("", s)))%string, snd (run l from to ("", s))).
Proof.
  induction 1 as [|x rest Hx _ IH]; intros from to t s.
  - cbn. now rewrite sapp_nil_r.
  - cbn [textFrag]. destruct (0 <? to); [|cbn; now rewrite sapp_nil_r].
    assert (Hc : textChild sep x from to (t, s)
                 = ((t ++ fst (textChild sep x from to ("", s)))%string,
                    snd (textChild sep x from to ("", s)))).
    { unfold textChild. destruct (from <? nodeSize x); [|cbn; now rewrite sapp_nil_r].
      destruct (negb (contentSize x =? 0)); [|apply visit_acc].
      rewrite visit_acc.
      rewrite (Hx _ _ (t ++ _)%string).
      destruct (visitRel sep from to x ("", s)) as [v sv] eqn:Ev. cbn [fst snd].
      rewrite (Hx _ _ v). cbn [fst snd]. now rewrite sapp_assoc. }
    rewrite Hc.
    destruct (textChild sep x from to ("", s)) as [v sv]. cbn [fst snd].
    rewrite (IH _ _ (t ++ v)%string), (IH _ _ v). cbn [fst snd].
    now rewrite sapp_assoc.
Qed.

Lemma run_acc_node (n : Node) : accumulates n.
Proof.
  induction n as [t' m | nm a mk c IH] using Node_ind'; intros from to t s.
  - cbn. now rewrite sapp_nil_r.
  - rewrite !textNode_elem. now apply run_acc_frag.
Qed.

Lemma run_acc (l : Fragment) from to t s :
  run l from to (t, s)
  = ((t ++ fst (run l from to ("", s)))%string, snd (run l from to ("", s))).
Proof.
  apply run_acc_frag. apply Forall_forall. intros x _. apply run_acc_node.
Qed.

(** A child that a valid document can hold, seen from its start. *)
Lemma child_text t m from to tx s :
  from < String.length t ->
  textChild sep (TextNode t m) from to (tx, s) = ((tx ++ JS.slice from to t)%string, false).
Proof.
  intros H. unfold textChild. cbn [nodeSize].
  ltb_true from (String.length t).
  cbn. now rewrite sep_truthy.
Qed.

Lemma child_elem nm a mk c from to st :
  leafType nm = false -> forallb valid c = true -> from < 2 + fragmentSize c ->
  textChild sep (ElemNode nm a mk c) from to st
  = run c (from - 1) (Nat.min (fragmentSize c) (to - 1))
        (visitRel sep from to (ElemNode nm a mk c) st).
Proof.
  intros Hl Hv H. unfold textChild. rewrite nodeSize_elem, Hl.
  ltb_true from (2 + fragmentSize c).
  unfold contentSize. cbn [nodeContent].
  destruct (fragmentSize c =? 0) eqn:E; cbn [negb].
  - apply Nat.eqb_eq in E. rewrite (LookupSpec.size_zero_nil c Hv E). reflexivity.
  - now rewrite textNode_elem.
Qed.

Lemma visit_elem_separated nm a mk c from to tx :
  leafType nm = false ->
  visitRel sep from to (ElemNode nm a mk c) (tx, true) = (tx, true).
Proof. intros Hl. unfold visitRel. cbn [isLeaf]. now rewrite Hl. Qed.

(** A child that lies wholly before [to] is traversed in the same way
    whatever [to] is. *)
Lemma child_whole (x : Node) from to to' st :
  valid x = true -> nodeSize x <= to -> nodeSize x <= to' ->
  textChild sep x from to st = textChild sep x from to' st.
Proof.
  intros Hv H H'. unfold textChild.
  destruct (from <? nodeSize x); [|reflexivity].
  rewrite (visitRel_beyond sep from to to' x st H H').
  destruct (contentSize x =? 0) eqn:E; cbn [negb]; [reflexivity|].
  apply Nat.eqb_neq in E. destruct x as [t m | nm a mk c]; [now cbn in E|].
  destruct (valid_contentSize _ _ _ _ Hv) as [E0 | E2]; [congruence|].
  f_equal. lia.
Qed.

Lemma run_whole (l : Fragment) from to to' st :
  forallb valid l = true -> fragmentSize l <= to -> fragmentSize l <= to' ->
  run l from to st = run l from to' st.
Proof.
  revert from to to' st. induction l as [|x l IH]; intros from to to' st Hv H H';
    [reflexivity|].
  cbn [forallb] in Hv. apply andb_true_iff in Hv as [Hx Hl].
  rewrite fragmentSize_cons in *. pose proof (valid_size x Hx).
  rewrite !run_cons by lia.
  rewrite (child_whole x from to to' st) by (assumption || lia).
  apply IH; (assumption || lia).
Qed.

Local Abbreviation lost := (Invariants.lost sep).
Local Abbreviation splitOk := (Invariants.splitOk sep).
Local Abbreviation flagOk := (Invariants.flagOk sep).

Lemma nextIn_elem nm a mk c p : nextIn (ElemNode nm a mk c) p = nextAt c p.
Proof.
  cbn [nextIn]. revert p. induction c as [|x c IH]; intros p; [reflexivity|].
  cbn [nextAt]. destruct (p =? 0); [reflexivity|].
  destruct (nodeSize x <=? p); [apply IH | reflexivity].
Qed.

Lemma lastIn_elem nm a mk c p : lastIn (ElemNode nm a mk c) p = lastBefore c p.
Proof.
  cbn [lastIn]. revert p. induction c as [|x c IH]; intros p; [reflexivity|].
  cbn [lastBefore]. destruct (p =? 0); [reflexivity|].
  destruct (nodeSize x <? p); [now rewrite IH | reflexivity].
Qed.

Lemma visit_block nm a mk c from to tx (s : bool) :
  leafType nm = false -> inlineType nm = false ->
  visitRel sep from to (ElemNode nm a mk c) (tx, s)
  = ((tx ++ (if s then "" else sep))%string, true).
Proof.
  intros Hl Hi. unfold visitRel. cbn [isLeaf isBlock]. rewrite Hl, Hi.
  destruct s; cbn [negb andb]; [now rewrite sapp_nil_r | reflexivity].
Qed.

Lemma child_leaf nm a mk to tx (s : bool) :
  leafType nm = true ->
  textChild sep (ElemNode nm a mk []) 0 to (tx, s) = (tx, false).
Proof.
  intros Hl. unfold textChild. rewrite nodeSize_elem, Hl. cbn [Nat.ltb Nat.leb].
  unfold contentSize. cbn [nodeContent fragmentSize map list_sum fold_right Nat.eqb negb].
  unfold visitRel. cbn [isLeaf]. now rewrite Hl, sep_truthy.
Qed.

Lemma lost_text (s : bool) t m : lost s (TextNode t m) = "".
Proof. unfold Invariants.lost, opensBlock. cbn [isBlock andb]. now rewrite andb_false_r. Qed.

Lemma lost_leaf (s : bool) nm a mk c : leafType nm = true -> lost s (ElemNode nm a mk c) = "".
Proof.
  intros Hl. unfold Invariants.lost, opensBlock. cbn [isLeaf]. rewrite Hl.
  cbn [negb]. now rewrite !andb_false_r.
Qed.

Lemma lost_block (s : bool) nm a mk c :
  leafType nm = false -> inlineType nm = false ->
  lost s (ElemNode nm a mk c) = if s then "" else sep.
Proof.
  intros Hl Hi. unfold Invariants.lost, opensBlock. cbn [isLeaf isBlock]. rewrite Hl, Hi.
  now destruct s.
Qed.

(** The traversal of a fragment from its start: a separator that is due
    is put in front of a first node that is a block with content of its
    own, and the rest is the same whatever the flag was. *)
Lemma split_zero (y : Node) (rest : Fragment) m (s : bool) :
  conforms y = true -> forallb conforms rest = true ->
  fragmentSize (y :: rest) <= m ->
  fst (run (y :: rest) 0 m ("", s))
  = (lost s y ++ fst (run (y :: rest) 0 m ("", true)))%string
  /\ snd (run (y :: rest) 0 m ("", s)) = snd (run (y :: rest) 0 m ("", true)).
Proof.
  intros Hcy Hcr Hm. rewrite fragmentSize_cons in Hm.
  pose proof (valid_size y (conforms_valid y Hcy)) as Hsz.
  rewrite !(run_cons _ _ 0 m) by lia.
  destruct y as [t mk | nm a mk c].
  - cbn [nodeSize] in Hsz. rewrite !child_text by lia. now rewrite lost_text.
  - destruct (conforms_elem _ _ _ _ Hcy) as [[Hl ->] | [Hl [Hi Hcc]]].
    + rewrite !child_leaf by assumption. now rewrite lost_leaf.
    + rewrite nodeSize_elem, Hl in *.
      rewrite !child_elem by (try apply conforms_valid_all; assumption || lia).
      rewrite !visit_block, lost_block by assumption.
      destruct s; [split; reflexivity|]. cbn [String.append].
      set (k := Nat.min (fragmentSize c) (m - 1)).
      rewrite (run_acc c (0 - 1) k sep).
      destruct (run c (0 - 1) k ("", true)) as [v sv]. cbn [fst snd].
      rewrite (run_acc rest _ _ (sep ++ v)%string), (run_acc rest _ _ v). cbn [fst snd].
      split; [now rewrite sapp_assoc | reflexivity].
Qed.

(** The statement about a node, read on its content. *)
Lemma splitOk_elem nm a mk c :
  splitOk (ElemNode nm a mk c) -> conforms (ElemNode nm a mk c) = true ->
  forall p m s, p <= fragmentSize c -> fragmentSize c <= m ->
    match nextAt c p with
    | None =>
        run c 0 p ("", s) = run c 0 m ("", s)
        /\ forall tx, run c p m (tx, true) = (tx, true)
    | Some y =>
        fst (run c 0 m ("", s))
        = (fst (run c 0 p ("", s)) ++ lost (snd (run c 0 p ("", s))) y
           ++ fst (run c p m ("", true)))%string
        /\ snd (run c 0 m ("", s)) = snd (run c p m ("", true))
    end.
Proof.
  intros H Hc p m s Hp Hm. specialize (H Hc p m s Hp Hm).
  rewrite nextIn_elem in H.
  destruct (nextAt c p); destruct H as [H1 H2].
  - rewrite !textNode_elem in H1, H2. now split.
  - rewrite !textNode_elem in H1. split; [exact H1|].
    intros tx. rewrite <- (textNode_elem sep nm a mk). apply H2.
Qed.

Lemma split_frag (l : Fragment) :
  Forall splitOk l -> forallb conforms l = true ->
  forall p m s, p <= fragmentSize l -> fragmentSize l <= m ->
    match nextAt l p with
    | None =>
        run l 0 p ("", s) = run l 0 m ("", s)
        /\ forall tx, run l p m (tx, true) = (tx, true)
    | Some y =>
        fst (run l 0 m ("", s))
        = (fst (run l 0 p ("", s)) ++ lost (snd (run l 0 p ("", s))) y
           ++ fst (run l p m ("", true)))%string
        /\ snd (run l 0 m ("", s)) = snd (run l p m ("", true))
    end.
Proof.
  induction 1 as [|x rest Hx _ IH]; intros Hc p m s Hp Hm.
  - cbn. split; [reflexivity | intros tx; reflexivity].
  - cbn [forallb] in Hc. apply andb_true_iff in Hc as [Hcx Hcr].
    pose proof (conforms_valid x Hcx) as Hvx.
    pose proof (conforms_valid_all rest Hcr) as Hvr.
    pose proof (valid_size x Hvx) as Hsz.
    pose proof Hm as Hm0.
    rewrite fragmentSize_cons in Hp, Hm.
    cbn [nextAt]. destruct (p =? 0) eqn:E0.
    + apply Nat.eqb_eq in E0. subst p. rewrite run_stop. cbn [fst snd String.append].
      exact (split_zero x rest m s Hcx Hcr Hm0).
    + apply Nat.eqb_neq in E0. destruct (nodeSize x <=? p) eqn:Ele.
      * (* [x] lies wholly before [p] *)
        apply Nat.leb_le in Ele.
        rewrite (run_cons _ _ 0 m), (run_cons _ _ 0 p), (run_cons _ _ p m) by lia.
        rewrite (child_whole x 0 p m) by (assumption || lia).
        replace (0 - nodeSize x) with 0 by lia.
        assert (Hskip : forall tx, textChild sep x p m (tx, true) = (tx, true)).
        { intros tx. unfold textChild. ltb_false p (nodeSize x). reflexivity. }
        destruct (textChild sep x 0 m ("", s)) as [e s'].
        specialize (IH Hcr (p - nodeSize x) (m - nodeSize x) s').
        destruct (nextAt rest (p - nodeSize x)) as [y|];
          destruct IH as [IH1 IH2]; try lia.
        -- rewrite Hskip.
           rewrite (run_acc rest 0 (m - nodeSize x) e), (run_acc rest 0 (p - nodeSize x) e).
           cbn [fst snd]. rewrite IH1, IH2. split; [|reflexivity].
           now rewrite !sapp_assoc.
        -- split.
           ++ rewrite (run_acc rest 0 (m - nodeSize x) e),
                (run_acc rest 0 (p - nodeSize x) e).
              now rewrite IH1.
           ++ intros tx. rewrite (run_cons _ _ p m) by lia. rewrite Hskip. apply IH2.
      * (* [p] lies inside [x] *)
        apply Nat.leb_gt in Ele.
        destruct x as [t mk | nm a mk c].
        -- cbn [nodeSize] in *.
           rewrite (run_cons _ _ 0 m), (run_cons _ _ 0 p), (run_cons _ _ p m) by lia.
           rewrite !child_text by lia. cbn [nodeSize String.append].
           replace (0 - String.length t) with 0 by lia.
           replace (p - String.length t) with 0 by lia.
           rewrite run_stop. cbn [fst snd]. rewrite lost_text. cbn [String.append].
           rewrite (run_acc rest 0 _ (JS.slice 0 m t)), (run_acc rest 0 _ (JS.slice p m t)).
           cbn [fst snd]. split; [|reflexivity].
           rewrite <- sapp_assoc, slice_split, slice_all by lia. reflexivity.
        -- destruct (conforms_elem _ _ _ _ Hcx) as [[Hl ->] | [Hl [Hi Hcc]]];
             rewrite nodeSize_elem, Hl in *; [lia|].
           pose proof (conforms_valid_all c Hcc) as Hvc.
           pose proof (splitOk_elem nm a mk c Hx Hcx (p - 1) (fragmentSize c) true) as Hx'.
           rewrite nextIn_elem.
           rewrite (run_cons _ _ 0 m), (run_cons _ _ 0 p), (run_cons _ _ p m) by lia.
           rewrite !child_elem by (assumption || lia).
           rewrite !visit_block by assumption.
           rewrite !nodeSize_elem, !Hl.
           replace (0 - 1) with 0 by lia.
           replace (0 - (2 + fragmentSize c)) with 0 by lia.
           replace (p - (2 + fragmentSize c)) with 0 by lia.
           replace (Nat.min (fragmentSize c) (m - 1)) with (fragmentSize c) by lia.
           replace (Nat.min (fragmentSize c) (p - 1)) with (p - 1) by lia.
           rewrite run_stop. cbn [String.append].
           set (e0 := if s then "" else sep).
           rewrite (run_acc c 0 (fragmentSize c) e0), (run_acc c 0 (p - 1) e0).
           destruct (nextAt c (p - 1)) as [y|].
           ++ destruct Hx' as [H1 H2]; try lia.
              destruct (run c 0 (fragmentSize c) ("", true)) as [w sw].
              destruct (run c 0 (p - 1) ("", true)) as [r1 s1].
              destruct (run c (p - 1) (fragmentSize c) ("", true)) as [r2 s2].
              cbn [fst snd] in *. subst w sw.
              rewrite (run_acc rest 0 _ (e0 ++ _)%string), (run_acc rest 0 _ r2).
              cbn [fst snd]. split; [|reflexivity].
              now rewrite !sapp_assoc.
           ++ destruct Hx' as [H1 H2]; try lia.
              rewrite (H2 ""). rewrite <- H1.
              destruct (run c 0 (p - 1) ("", true)) as [r1 s1]. cbn [fst snd].
              destruct rest as [|y rest']; cbn [firstChild].
              ** split; [reflexivity|]. intros tx.
                 rewrite (run_cons _ _ p m) by lia.
                 rewrite child_elem by (assumption || lia).
                 rewrite visit_block by assumption.
                 replace (Nat.min (fragmentSize c) (m - 1)) with (fragmentSize c) by lia.
                 rewrite sapp_nil_r, H2. reflexivity.
              ** cbn [forallb] in Hcr. apply andb_true_iff in Hcr as [Hcy Hcr'].
                 destruct (split_zero y rest' (m - (2 + fragmentSize c)) s1 Hcy Hcr')
                   as [Z1 Z2]; [lia|].
                 rewrite (run_acc (y :: rest') 0 _ (e0 ++ r1)%string).
                 cbn [fst snd]. rewrite Z1, Z2. split; [|reflexivity].
                 now rewrite !sapp_assoc.
Qed.

Lemma split_node (n : Node) : splitOk n.
Proof.
  induction n as [t mk | nm a mk c IH] using Node_ind'; intros Hc p m s Hp Hm.
  - cbn. split; [reflexivity | intros tx; reflexivity].
  - rewrite nextIn_elem.
    destruct (conforms_elem _ _ _ _ Hc) as [[Hl ->] | [Hl [Hi Hcc]]].
    + cbn. split; [reflexivity | intros tx; reflexivity].
    + pose proof (split_frag c IH Hcc p m s Hp Hm) as H.
      destruct (nextAt c p); destruct H as [H1 H2]; rewrite !textNode_elem.
      * now split.
      * split; [exact H1|]. intros tx. rewrite textNode_elem. apply H2.
Qed.

(** *** The flag at the end of the text before a position *)

Lemma child_flag (x : Node) (p : nat) (s : bool) :
  flagOk x -> conforms x = true -> p <> 0 ->
  snd (textChild sep x 0 p ("", s))
  = match lastIn x (p - 1) with
    | Some y => negb (isLeaf y)
    | None => negb (isLeaf x)
    end.
Proof.
  intros Hx Hcx Hp. destruct x as [t mk | nm a mk c].
  - pose proof (valid_size _ (conforms_valid _ Hcx)) as Hsz. cbn [nodeSize] in Hsz.
    rewrite child_text by lia. reflexivity.
  - destruct (conforms_elem _ _ _ _ Hcx) as [[Hl ->] | [Hl [Hi Hcc]]].
    + rewrite child_leaf by assumption. cbn [lastIn isLeaf snd]. now rewrite Hl.
    + pose proof (conforms_valid_all c Hcc) as Hvc.
      rewrite child_elem by (assumption || lia).
      rewrite visit_block by assumption. cbn [String.append].
      replace (0 - 1) with 0 by lia.
      assert (Hmin : run c 0 (Nat.min (fragmentSize c) (p - 1)) ((if s then "" else sep), true)
                     = run c 0 (p - 1) ((if s then "" else sep), true)).
      { destruct (Nat.le_gt_cases (p - 1) (fragmentSize c)) as [Hle | Hgt].
        - now replace (Nat.min (fragmentSize c) (p - 1)) with (p - 1) by lia.
        - apply run_whole; (assumption || lia). }
      rewrite Hmin, run_acc. cbn [snd].
      specialize (Hx Hcx (p - 1) true). rewrite textNode_elem in Hx. rewrite Hx.
      cbn [isLeaf]. rewrite Hl. reflexivity.
Qed.

Lemma flag_frag (l : Fragment) :
  Forall flagOk l -> forallb conforms l = true ->
  forall p s,
    snd (run l 0 p ("", s))
    = match lastBefore l p with
      | Some y => negb (isLeaf y)
      | None => s
      end.
Proof.
  induction 1 as [|x rest Hx _ IH]; intros Hc p s; [reflexivity|].
  cbn [forallb] in Hc. apply andb_true_iff in Hc as [Hcx Hcr].
  cbn [lastBefore]. destruct (p =? 0) eqn:E0.
  - apply Nat.eqb_eq in E0. subst p. now rewrite run_stop.
  - apply Nat.eqb_neq in E0. rewrite run_cons by lia.
    replace (0 - nodeSize x) with 0 by lia.
    pose proof (child_flag x p s Hx Hcx E0) as Hch.
    destruct (textChild sep x 0 p ("", s)) as [e s']. cbn [snd] in Hch.
    rewrite run_acc. cbn [snd]. rewrite (IH Hcr (p - nodeSize x) s').
    destruct (nodeSize x <? p) eqn:El.
    + destruct (lastBefore rest (p - nodeSize x)); [reflexivity|].
      rewrite Hch. now destruct (lastIn x (p - 1)).
    + apply Nat.ltb_ge in El. replace (p - nodeSize x) with 0 by lia.
      rewrite Hch. destruct rest; cbn [lastBefore Nat.eqb]; now destruct (lastIn x (p - 1)).
Qed.

Lemma flag_node (n : Node) : flagOk n.
Proof.
  induction n as [t mk | nm a mk c IH] using Node_ind'; intros Hc p s.
  - reflexivity.
  - rewrite lastIn_elem, textNode_elem.
    destruct (conforms_elem _ _ _ _ Hc) as [[Hl ->] | [Hl [Hi Hcc]]]; [reflexivity|].
    exact (flag_frag c IH Hcc p s).
Qed.

End Split.

Lemma sapp_length (a b : string) :
  String.length (a ++ b) = String.length a + String.length b.
Proof. induction a as [|ch a IH]; cbn; [reflexivity | now rewrite IH]. Qed.

(** *** The plain text of a document without leaves *)

Section SameText.

Variable sep : string.
Hypothesis sep_truthy : JS.truthy_string sep = true.

Local Abbreviation sameText := (Invariants.sameText sep).

Lemma step_same (gf gt : nat) (node : Node) (pos : nat) (st : string * bool) :
  noLeaves node = true ->
  TipTap.getTextBetweenStep gf gt sep node pos st = textBetweenStep gf gt sep node pos st.
Proof.
  unfold TipTap.getTextBetweenStep, textBetweenStep. destruct st as [text separated].
  destruct node as [t m | nm a mk c].
  - intros _. cbn. now rewrite sep_truthy.
  - cbn [noLeaves typeName isLeaf]. intros H. apply andb_true_iff in H as [Hl _].
    apply negb_true_iff in Hl. rewrite Hl.
    unfold TipTap.textSerializer. unfold leafType in Hl.
    apply orb_false_iff in Hl as [Hb _]. rewrite Hb.
    now rewrite andb_comm.
Qed.

Lemma same_frag (l : Fragment) :
  Forall sameText l -> forallb noLeaves l = true ->
  forall gf gt pos from to ns st,
    fragNodesBetween (TipTap.getTextBetweenStep gf gt sep) l pos from to ns st
    = fragNodesBetween (textBetweenStep gf gt sep) l pos from to ns st.
Proof.
  induction 1 as [|child rest Hchild _ IH]; intros Hn gf gt pos from to ns st;
    [reflexivity|].
  cbn [forallb] in Hn. apply andb_true_iff in Hn as [Hc Hr].
  cbn [fragNodesBetween]. destruct (pos <? to); [|reflexivity].
  rewrite (IH Hr). f_equal.
  destruct (from <? pos + nodeSize child); [|reflexivity].
  rewrite (step_same gf gt child (ns + pos) st Hc).
  destruct (textBetweenStep gf gt sep child (ns + pos) st) as [s' descend].
  destruct (descend && negb (contentSize child =? 0)); [|reflexivity].
  apply (Hchild Hc).
Qed.

Lemma same_node (n : Node) : sameText n.
Proof.
  induction n as [t m | nm a mk c IH] using Node_ind'; intros Hn gf gt from to ns st.
  - reflexivity.
  - rewrite !nodesBetween_elem. cbn [noLeaves] in Hn.
    apply andb_true_iff in Hn as [_ Hn]. now apply same_frag.
Qed.

End SameText.

End TextBetweenSpec.

(** ** The completion flow: the text around the cursor *)

Module CompletionSpec.
Import ProseMirror Places Invariants ProseMirrorFacts SchemaSpec Completion TextBetweenSpec.
Import Examples.

Lemma blockSeparator_truthy : JS.truthy_string blockSeparator = true.
Proof. reflexivity. Qed.

(** The plain text of a document that holds no hard break and no
    horizontal rule is what [textBetween] gives over the whole of it. *)
Lemma plainText_without_leaves (d : Node) :
  noLeaves d = true ->
  plainText d = textBetween d 0 (contentSize d) blockSeparator.
Proof.
  intros Hn. unfold plainText, TipTap.getText, TipTap.getTextBetween, textBetween.
  change (TipTap.lineFeed ++ TipTap.lineFeed)%string with blockSeparator.
  now rewrite (same_node blockSeparator blockSeparator_truthy d Hn).
Qed.

(** The text before the cursor followed by the text after it, against
    the text of [textBetween] over the whole document: the same, but for
    the separator lost at the cursor. *)
Lemma text_around_cursor_split (d : Node) (p : nat) :
  conforms d = true -> p <> 0 -> p <= contentSize d ->
  textBetween d 0 (contentSize d) blockSeparator
  = (textBetween d 0 p blockSeparator
     ++ (if separatorLost (nodeContent d) p then blockSeparator else "")
     ++ textBetween d p (contentSize d) blockSeparator)%string.
Proof.
  intros Hc Hp Hle. pose proof (conforms_valid d Hc) as Hv.
  rewrite !textBetween_relative by (assumption || lia).
  pose proof (split_node blockSeparator blockSeparator_truthy d Hc p (contentSize d) true
                Hle (Nat.le_refl _)) as Hs.
  pose proof (flag_node blockSeparator blockSeparator_truthy d Hc p true) as Hf.
  rewrite !textNode_content in Hf.
  assert (Hnext : nextIn d p = nextAt (nodeContent d) p)
    by (destruct d; [reflexivity | apply nextIn_elem]).
  assert (Hlast : lastIn d p = lastBefore (nodeContent d) p)
    by (destruct d; [reflexivity | apply lastIn_elem]).
  rewrite Hnext in Hs. rewrite Hlast in Hf. unfold separatorLost.
  unfold contentSize in *.
  destruct (nextAt (nodeContent d) p) as [y|]; destruct Hs as [H1 H2].
  - rewrite !textNode_content in H1. rewrite H1, Hf. unfold Invariants.lost.
    destruct (lastBefore (nodeContent d) p) as [a|]; [|reflexivity].
    now rewrite negb_involutive.
  - rewrite !textNode_content in H1. specialize (H2 ""). rewrite textNode_content in H2.
    rewrite <- H1, H2. cbn [fst].
    destruct (lastBefore (nodeContent d) p); cbn [String.append]; now rewrite sapp_nil_r.
Qed.

(** C3, amended: on a document that conforms to the schema and whose
    plain text is what [textBetween] gives over the whole of it (as is
    the case when it holds no hard break and no horizontal rule, first
    part), and for a cursor position in the document other than 0, the
    text before the cursor followed by the text after the cursor, as the
    completion flow computes them, is the plain text of the document
    exactly when the cursor is not at a place where the separator is lost:
    behind text or a leaf with a block that has content of its own
    beginning next. *)
Theorem text_around_cursor (e : Editor) :
  conforms (doc e) = true ->
  head e <= contentSize (doc e) ->
  (noLeaves (doc e) = true ->
   plainText (doc e) = textBetween (doc e) 0 (contentSize (doc e)) blockSeparator)
  /\ (head e <> 0 ->
      plainText (doc e) = textBetween (doc e) 0 (contentSize (doc e)) blockSeparator ->
      ((textBeforeCursor (Some e) ++ textAfterCursor (Some e))%string = plainText (doc e)
       <-> separatorLost (nodeContent (doc e)) (head e) = false)).
Proof.
  destruct e as [d p]. cbn [doc head]. intros Hc Hle.
  split; [apply plainText_without_leaves|].
  intros Hp Hreg. rewrite Hreg.
  unfold textBeforeCursor, textAfterCursor. cbn [doc head].
  unfold JS.truthy_num. replace (p =? 0) with false by (symmetry; now apply Nat.eqb_neq).
  cbn [negb].
  assert (Hsize : nodeSize d - 2 = contentSize d).
  { destruct d as [t m | nm a mk c]; [cbn in Hle; lia|].
    destruct (conforms_elem _ _ _ _ Hc) as [[_ ->] | [Hl _]]; [cbn in Hle; lia|].
    rewrite nodeSize_elem, Hl. unfold contentSize. cbn [nodeContent]. lia. }
  rewrite Hsize, (text_around_cursor_split d p Hc Hp Hle).
  destruct (separatorLost (nodeContent d) p).
  - split; [|discriminate]. intros H. apply (f_equal String.length) in H.
    rewrite !sapp_length in H. cbn in H. lia.
  - cbn [String.append]. split; reflexivity.
Qed.

(** The cursor in an empty paragraph between two paragraphs, and the
    cursor at the end of the first of them. *)
Lemma text_around_cursor_witness :
  let d := document [paragraph "ab"; ElemNode "paragraph" [] [] []; paragraph "cd"] in
  ((textBeforeCursor (Some (mkEditor d 5)) ++ textAfterCursor (Some (mkEditor d 5)))%string
   = plainText d <-> separatorLost (nodeContent d) 5 = false)
  /\ separatorLost (nodeContent d) 5 = false
  /\ separatorLost (nodeContent d) 3 = true.
Proof.
  cbv zeta. split; [|split; reflexivity].
  refine (proj2 (text_around_cursor
                   (mkEditor (document [paragraph "ab"; ElemNode "paragraph" [] [] [];
                                        paragraph "cd"]) 5)
                   eq_refl _) _ eq_refl).
  - cbn. lia.
  - discriminate.
Defined.

(** C3 as stated fails in four ways.  At position 0, which the flow
    takes for no position at all, both texts are empty while the document
    has text.  At the end of a paragraph that another block follows, the
    separator between the two is in neither text.  A hard break is a line
    feed in the plain text and nothing in the two texts.  A horizontal rule
    at the end of the document puts a separator in the plain text and none
    in the two texts. *)
Lemma text_around_cursor_fails :
  let sum d p :=
    (textBeforeCursor (Some (mkEditor d p)) ++ textAfterCursor (Some (mkEditor d p)))%string in
  let hardBreak := ElemNode "hardBreak" [] [] [] in
  let lf := String LF "" in
  (let d := document [horizontalRule; paragraph "ab"] in
   conforms d = true /\ sum d 0 = "" /\ plainText d = "ab")
  /\ (let d := document [paragraph "ab"; paragraph "cd"] in
      conforms d = true /\ sum d 3 = "abcd"
      /\ plainText d = ("ab" ++ blockSeparator ++ "cd")%string)
  /\ (let d := document [ElemNode "paragraph" [] [] [TextNode "a" []; hardBreak; TextNode "b" []]] in
      conforms d = true /\ sum d 2 = "ab" /\ plainText d = ("a" ++ lf ++ "b")%string)
  /\ (let d := document [paragraph "ab"; horizontalRule] in
      conforms d = true /\ sum d 2 = "ab" /\ plainText d = ("ab" ++ blockSeparator)%string).
Proof. cbv zeta. repeat split. Qed.

(** The cursor inside a word, at the start of a paragraph, and at the end
    of the last paragraph, where a continuation is usually asked for. *)
Example text_around_cursor_usual :
  let d := document [paragraph "ab"; paragraph "cd"] in
  let sum p :=
    (textBeforeCursor (Some (mkEditor d p)) ++ textAfterCursor (Some (mkEditor d p)))%string in
  map (separatorLost (nodeContent d)) [1; 2; 3; 4; 5; 6; 7; 8]
  = [false; false; true; true; false; false; false; false]
  /\ map (fun p => String.eqb (sum p) (plainText d)) [1; 2; 3; 4; 5; 6; 7; 8]
     = [true; true; false; false; true; true; true; true].
Proof. split; reflexivity. Qed.

(** A rule between two paragraphs: the plain text is that of
    [textBetween], and the separator is lost behind the rule, not before
    it. *)
Example text_around_cursor_rule :
  let d := document [paragraph "a"; horizontalRule; paragraph "b"] in
  let sum p :=
    (textBeforeCursor (Some (mkEditor d p)) ++ textAfterCursor (Some (mkEditor d p)))%string in
  plainText d = textBetween d 0 (contentSize d) blockSeparator
  /\ map (separatorLost (nodeContent d)) [1; 2; 3; 4; 5; 6; 7]
     = [false; false; false; true; false; false; false]
  /\ map (fun p => String.eqb (sum p) (plainText d)) [1; 2; 3; 4; 5; 6; 7]
     = [true; true; true; false; true; true; true].
Proof. repeat split. Qed.

End CompletionSpec.

(** ** The prompt builder *)

Module PromptSpec.
Import Prompt PromptParts.

Lemma part_caption c p o d g :
  part c p o d g "caption"
  = (nl ++ "---" ++ nl ++ "CAPTION" ++ nl ++ interpolate c ++ nl)%string.
Proof. reflexivity. Qed.

Lemma part_mentions c p o d g :
  part c p o d g "mentions"
  = (nl ++ "---" ++ nl ++ "FIGURE MENTIONS FROM PAPER" ++ nl ++ interpolate p ++ nl)%string.
Proof. reflexivity. Qed.

Lemma part_ocr c p o d g :
  part c p o d g "ocr"
  = (nl ++ "---" ++ nl ++ "OCR TEXT RECOGNIZED FROM FIGURE (MAY CONTAIN ERRORS)" ++ nl
     ++ interpolate o ++ nl)%string.
Proof. reflexivity. Qed.

Lemma part_datatable c p o d g :
  part c p o d g "datatable"
  = (nl ++ "---" ++ nl ++ "DATA TABLE EXTRACTED FROM FIGURE (MAY CONTAIN ERRORS)" ++ nl
     ++ interpolate d ++ nl)%string.
Proof. reflexivity. Qed.

Lemma part_guidelines c p o d g :
  part c p o d g "guidelines"
  = (nl ++ "---Please refer to the following guidelines when writing your description:"
     ++ nl ++ interpolate g ++ nl ++ "---")%string.
Proof. reflexivity. Qed.

(** X1: the system prompt is handed back as it is, and the prompt spec
    names the figure type and exactly the metadata fields that are there
    and not empty, each once and in the order in which the parts are
    added. *)
Theorem makePrompt_spec (systemPrompt figuretype : string)
    (caption paragraph ocr datatable guidelines : option string) :
  let r := makePrompt systemPrompt figuretype caption paragraph ocr datatable guidelines in
  fullSystemPrompt r = systemPrompt
  /\ (forall label,
        In label (promptSpec r) <->
        label = "figuretype"
        \/ (label = "caption" /\ given caption = true)
        \/ (label = "mentions" /\ given paragraph = true)
        \/ (label = "ocr" /\ given ocr = true)
        \/ (label = "datatable" /\ given datatable = true)
        \/ (label = "guidelines" /\ given guidelines = true))
  /\ NoDup (promptSpec r)
  /\ sublist (promptSpec r) order = true.
Proof.
  cbv zeta. unfold makePrompt.
  destruct (given caption), (given paragraph), (given ocr), (given datatable),
    (given guidelines);
    cbn [fullSystemPrompt promptSpec app];
    (split; [reflexivity|]);
    (split; [|split; [repeat constructor; cbn [In]; intuition discriminate | reflexivity]]);
    intros label; cbn [In];
    (split;
     [ intros H; repeat (destruct H as [<-|H]; [tauto|]); contradiction
     | intros H; repeat (destruct H as [->|H]; [tauto|]);
       repeat (destruct H as [[-> H']|H]; [first [discriminate | tauto]|]);
       try (destruct H as [-> H']; first [discriminate | tauto]) ]).
Qed.

(** X2: the user prompt is the figure type, the system prompt and then
    the parts the prompt spec names, in its order: the spec tells what the
    prompt is made of. *)
Theorem makePrompt_parts (systemPrompt figuretype : string)
    (caption paragraph ocr datatable guidelines : option string) :
  let r := makePrompt systemPrompt figuretype caption paragraph ocr datatable guidelines in
  prompt r
  = ("FIGURE TYPE" ++ nl ++ figuretype ++ nl ++ systemPrompt
     ++ String.concat "" (map (part caption paragraph ocr datatable guidelines)
                              (tl (promptSpec r))))%string.
Proof.
  cbv zeta. unfold makePrompt.
  destruct (given caption), (given paragraph), (given ocr), (given datatable),
    (given guidelines);
    cbn [prompt promptSpec app tl map String.concat];
    rewrite ?part_caption, ?part_mentions, ?part_ocr, ?part_datatable, ?part_guidelines;
    rewrite ?TextBetweenSpec.sapp_assoc, ?TextBetweenSpec.sapp_nil_r;
    reflexivity.
Qed.

End PromptSpec.

(** ** Base64 input *)

Module Base64Spec.
Import Base64.

Lemma repeat_string_length (k : nat) : String.length (repeat_string "=" k) = k.
Proof. induction k as [|k IH]; [reflexivity|]. cbn. now rewrite IH. Qed.

Lemma length_sapp (a b : string) :
  String.length (a ++ b)%string = String.length a + String.length b.
Proof. induction a as [|c a IH]; [reflexivity|]. cbn. now rewrite IH. Qed.

(** X3: the padding adds between one and four [=] signs to the text and
    makes its length a multiple of four; a text whose length is a multiple
    of four already gets four of them, so the text never comes back as it
    was. *)
Theorem ensureBase64Padding_pads (data : string) :
  exists k,
    1 <= k <= 4
    /\ ensureBase64Padding data = (data ++ repeat_string "=" k)%string
    /\ String.length (ensureBase64Padding data) mod 4 = 0
    /\ (String.length data mod 4 = 0 -> k = 4)
    /\ ensureBase64Padding data <> data.
Proof.
  unfold ensureBase64Padding.
  pose proof (Nat.mod_upper_bound (String.length data) 4 ltac:(lia)) as Hm.
  exists (4 - String.length data mod 4).
  split; [lia|]. split; [reflexivity|]. split; [|split; [lia|]].
  - rewrite length_sapp, repeat_string_length.
    pose proof (Nat.div_mod_eq (String.length data) 4) as Hd.
    replace (String.length data + (4 - String.length data mod 4))
      with ((String.length data / 4 + 1) * 4) by lia.
    apply Nat.Div0.mod_mul.
  - intros H. apply (f_equal String.length) in H.
    rewrite length_sapp, repeat_string_length in H. lia.
Qed.

Lemma split_noComma (s : string) : noComma s = true -> split comma s = [s].
Proof.
  induction s as [|c s IH]; [reflexivity|].
  cbn [noComma split]. intros H. apply andb_true_iff in H as [Hc Hs].
  apply negb_true_iff in Hc. rewrite Hc, (IH Hs). reflexivity.
Qed.

Lemma split_at_comma (p r : string) :
  noComma p = true -> split comma (p ++ String comma r) = p :: split comma r.
Proof.
  induction p as [|c p IH]; intros H.
  - cbn [append split]. now rewrite Ascii.eqb_refl.
  - cbn [noComma] in H. apply andb_true_iff in H as [Hc Hp].
    apply negb_true_iff in Hc. cbn [append split]. rewrite Hc, (IH Hp). reflexivity.
Qed.

(** X4: of a data URL, a prefix and a payload with one comma between
    them, the conversion decodes the payload, padded; when the payload is
    empty, or when the text has no comma at all, it takes the whole text. *)
Theorem base64Data_of_data_url (prefix payload : string) :
  noComma prefix = true ->
  noComma payload = true ->
  base64Data (prefix ++ String comma payload)
  = (if JS.truthy_string payload then payload else prefix ++ String comma payload)%string
  /\ base64Data payload = payload
  /\ (JS.truthy_string payload = true ->
      decoderInput (prefix ++ String comma payload) = ensureBase64Padding payload).
Proof.
  intros Hp Hq. unfold decoderInput, base64Data.
  rewrite (split_at_comma prefix payload Hp), (split_noComma payload Hq).
  cbn [nth_error]. repeat split. intros ->. reflexivity.
Qed.

Lemma base64Data_of_data_url_witness :
  base64Data ("data:application/pdf;base64" ++ String comma "JVBERi0x")
  = "JVBERi0x"
  /\ base64Data "JVBERi0x" = "JVBERi0x"
  /\ (JS.truthy_string "JVBERi0x" = true ->
      decoderInput ("data:application/pdf;base64" ++ String comma "JVBERi0x")
      = ensureBase64Padding "JVBERi0x").
Proof.
  exact (base64Data_of_data_url "data:application/pdf;base64" "JVBERi0x" eq_refl eq_refl).
Defined.

End Base64Spec.

(** ** The guideline service *)

Module GuidelinesSpec.
Import Guidelines.

Scheme Value_mut := Induction for Value Sort Prop
with Entries_mut := Induction for Entries Sort Prop.

Lemma in_set (k : string) (v : list string) (o : Flat) (x : string * list string) :
  In x (set k v o) -> x = (k, v) \/ In x o.
Proof.
  induction o as [|[k' v'] o IH]; cbn [set In].
  - intros [<-|[]]. now left.
  - destruct (String.eqb k' k) eqn:E; cbn [In].
    + apply String.eqb_eq in E. subst k'. intros [<-|H]; auto.
    + intros [<-|H]; auto. destruct (IH H); auto.
Qed.

Lemma in_spread (a b : Flat) (x : string * list string) :
  In x (spread a b) -> In x a \/ In x b.
Proof.
  unfold spread. revert a. induction b as [|[k v] b IH]; intros a; cbn [fold_left fst snd].
  - now left.
  - intros H. destruct (IH _ H) as [H1|H1]; [|right; now right].
    destruct (in_set _ _ _ _ H1) as [->|H2]; [right; now left | now left].
Qed.

Lemma get_in {A : Type} (k : string) (o : list (string * A)) (v : A) :
  get k o = Some v -> In (k, v) o.
Proof.
  induction o as [|[k' v'] o IH]; cbn [get In]; [discriminate|].
  destruct (String.eqb k' k) eqn:E.
  - apply String.eqb_eq in E. subst k'. intros [= <-]. now left.
  - intros H. right. now apply IH.
Qed.

Lemma in_get {A : Type} (k : string) (o : list (string * A)) (v : A) :
  In (k, v) o -> get k o <> None.
Proof.
  induction o as [|[k' v'] o IH]; cbn [get In]; [contradiction|].
  intros [E|H].
  - injection E as <- <-. now rewrite String.eqb_refl.
  - destruct (String.eqb k' k); [discriminate | now apply IH].
Qed.

Lemma get_set (k k' : string) (v : list string) (o : Flat) :
  get k o <> None \/ k = k' -> get k (set k' v o) <> None.
Proof.
  induction o as [|[k0 v0] o IH]; cbn [get set].
  - intros [H| ->]; [contradiction|]. now rewrite String.eqb_refl.
  - destruct (String.eqb k0 k') eqn:E; cbn [get].
    + apply String.eqb_eq in E. subst k0.
      destruct (String.eqb k' k) eqn:E'; [discriminate|].
      intros [H| ->]; [exact H|]. now rewrite String.eqb_refl in E'.
    + destruct (String.eqb k0 k); [discriminate|]. exact IH.
Qed.

Lemma get_spread (k : string) (a b : Flat) :
  get k a <> None \/ get k b <> None -> get k (spread a b) <> None.
Proof.
  unfold spread. revert a. induction b as [|[k' v] b IH]; intros a; cbn [fold_left fst snd].
  - intros [H|H]; [exact H | now contradiction H].
  - intros H. apply IH. cbn [get] in H.
    destruct (String.eqb k' k) eqn:E.
    + apply String.eqb_eq in E. subst k'. left. apply get_set. now right.
    + destruct H as [H|H]; [left; apply get_set; now left | now right].
Qed.

(** What the loop adds to [items]: leaves of [d] under their keys; and it
    keeps the keys that are there and has a key for every leaf. *)
Lemma flattenLoop_paths (d : Entries) :
  forall parent_key sep items,
    (forall key v, In (key, v) (flattenLoop d parent_key sep items) ->
       In (key, v) items
       \/ exists path, LeafAt d path v /\ key = dotted parent_key sep path)
    /\ (forall key, get key items <> None ->
          get key (flattenLoop d parent_key sep items) <> None)
    /\ (forall path v, LeafAt d path v ->
          get (dotted parent_key sep path) (flattenLoop d parent_key sep items) <> None).
Proof.
  induction d as [items0 | inner IHinner | | k v IHv rest IHrest]
    using Entries_mut
    with (P := fun v => match v with
                        | Arr _ => True
                        | Obj inner =>
                            forall parent_key sep items,
                              (forall key v, In (key, v) (flattenLoop inner parent_key sep items) ->
                                 In (key, v) items
                                 \/ exists path, LeafAt inner path v
                                                 /\ key = dotted parent_key sep path)
                              /\ (forall key, get key items <> None ->
                                    get key (flattenLoop inner parent_key sep items) <> None)
                              /\ (forall path v, LeafAt inner path v ->
                                    get (dotted parent_key sep path)
                                        (flattenLoop inner parent_key sep items) <> None)
                        end).
  - exact I.
  - exact IHinner.
  - intros parent_key sep items. cbn [flattenLoop]. repeat split.
    + intros key v H. now left.
    + auto.
    + intros path v H. inversion H.
  - intros parent_key sep items. cbn [flattenLoop].
    fold (newKey parent_key sep k).
    set (items1 := match v with
                   | Arr a => set (newKey parent_key sep k) a items
                   | Obj inner => spread items (flattenLoop inner (newKey parent_key sep k) sep [])
                   end).
    destruct (IHrest parent_key sep items1) as [Hs [Hk Hc]].
    assert (Hsound1 : forall key x, In (key, x) items1 ->
              In (key, x) items
              \/ exists path, LeafAt (ECons k v rest) path x
                              /\ key = dotted parent_key sep path).
    { intros key x Hin. subst items1. destruct v as [a | inner].
      - destruct (in_set _ _ _ _ Hin) as [E | H]; [|now left].
        injection E as E1 E2. subst key x. right. exists [k]. split; [constructor | reflexivity].
      - destruct (in_spread _ _ _ Hin) as [H | H]; [now left|].
        destruct (IHv (newKey parent_key sep k) sep []) as [Hs' _].
        destruct (Hs' key x H) as [[] | [path [Hl ->]]].
        right. exists (k :: path). split; [now constructor | reflexivity]. }
    assert (Hkeep1 : forall key, get key items <> None -> get key items1 <> None).
    { intros key H. subst items1. destruct v as [a | inner].
      - apply get_set. now left.
      - apply get_spread. now left. }
    repeat split.
    + intros key x H. destruct (Hs key x H) as [H1 | [path [Hl ->]]].
      * exact (Hsound1 key x H1).
      * right. exists path. split; [now apply LeafAt_later | reflexivity].
    + intros key H. apply Hk, Hkeep1, H.
    + intros path x H. inversion H as [k0 a rest0 | k0 inner rest0 path0 x0 Hl | k0 v0 rest0 path0 x0 Hl];
        subst.
      * apply Hk. subst items1. cbn [dotted]. apply get_set. now right.
      * apply Hk. subst items1. apply get_spread. right.
        destruct (IHv (newKey parent_key sep k) sep []) as [_ [_ Hc']].
        exact (Hc' path0 x Hl).
      * exact (Hc path x Hl).
Qed.

(** X5: every entry of the flattened object is an array of the nested
    one, under the key made of the names on the way to it; and every array
    of the nested object has its key in the flattened one. *)
Theorem flattenDict_paths (d : Entries) (parent_key sep : string) :
  (forall key items,
     get key (flattenDict d parent_key sep) = Some items ->
     exists path, LeafAt d path items /\ key = dotted parent_key sep path)
  /\ (forall path items,
        LeafAt d path items ->
        get (dotted parent_key sep path) (flattenDict d parent_key sep) <> None).
Proof.
  unfold flattenDict.
  destruct (flattenLoop_paths d parent_key sep []) as [Hs [_ Hc]].
  split; [|exact Hc].
  intros key items H. apply get_in in H.
  destruct (Hs key items H) as [[] | Hp]. exact Hp.
Qed.

Lemma mapping_keys : map fst GUIDELINES_MAPPING = FIGURE_TYPES.
Proof. reflexivity. Qed.

Lemma inMapping_in (figureType : string) :
  inMapping figureType = true <-> In figureType FIGURE_TYPES.
Proof.
  unfold inMapping. rewrite <- mapping_keys, existsb_exists, in_map_iff.
  split; intros [kv [H1 H2]].
  - exists kv. apply String.eqb_eq in H2. auto.
  - exists kv. subst figureType. split; [exact H2 | apply String.eqb_refl].
Qed.

(** The guidelines of a figure type that is offered are there. *)
Lemma known_type_guidelines (figureType : string) :
  In figureType FIGURE_TYPES -> exists text, getGuidelines service figureType = Some text.
Proof.
  intros H. unfold FIGURE_TYPES in H. cbn [In] in H.
  repeat (destruct H as [<-|H]; [eexists; vm_compute; reflexivity|]).
  contradiction.
Qed.

Lemma unknown_type_throws (figureType : string) :
  ~ In figureType FIGURE_TYPES -> getGuidelines service figureType = None.
Proof.
  intros H. unfold getGuidelines.
  destruct (inMapping figureType) eqn:E.
  - apply inMapping_in in E. contradiction.
  - reflexivity.
Qed.

(** X6: the service has guidelines for exactly the figure types the
    selector offers; for any other type, the fallback type "Figure"
    included, the lookup of the mapping finds nothing and the call
    throws. *)
Theorem getGuidelines_known_types (figureType : string) :
  (exists text, getGuidelines service figureType = Some text)
  <-> In figureType FIGURE_TYPES.
Proof.
  split.
  - intros [text H].
    destruct (in_dec string_dec figureType FIGURE_TYPES) as [Hin | Hout]; [exact Hin|].
    rewrite (unknown_type_throws figureType Hout) in H. discriminate.
  - apply known_type_guidelines.
Qed.

End GuidelinesSpec.

(** ** The message list of a request *)

Module MessagesSpec.
Import OpenAIClient.

Lemma map_system_users (systemPrompt : string) (history : list Message) :
  Forall (fun m => role m = "user") history ->
  map (fun message =>
         if String.eqb (role message) "system"
         then mkMessage (role message) (Some systemPrompt) (name message)
                        (function_call message)
         else message) history
  = history.
Proof.
  induction 1 as [|m l Hm _ IH]; [reflexivity|].
  cbn [map]. rewrite IH, Hm. reflexivity.
Qed.

(** X7: the message list of a request ends with the user prompt, and
    every system message in it holds the system prompt.  With a message
    history, also an empty one, the list is the history with the user
    prompt added, each message in its place with its role: the system
    prompt is sent only if the history has a system message.  Without a
    history the list is the system prompt and the user prompt. *)
Theorem initialMessages_shape (systemPrompt prompt : string)
    (messageHistory : option (list Message)) :
  let sent := initialMessages systemPrompt prompt messageHistory in
  (exists front, sent = front ++ [mkMessage "user" (Some prompt) None None]
     /\ match messageHistory with
        | Some history =>
            map role front = map role history
            /\ map name front = map name history
            /\ map function_call front = map function_call history
            /\ (forall i m, nth_error history i = Some m -> role m <> "system" ->
                            nth_error front i = Some m)
        | None => front = [mkMessage "system" (Some systemPrompt) None None]
        end)
  /\ (forall m, In m sent -> role m = "system" -> content m = Some systemPrompt)
  /\ (messageHistory = Some [] -> sent = [mkMessage "user" (Some prompt) None None]).
Proof.
  cbv zeta. unfold initialMessages. destruct messageHistory as [history|].
  - split; [|split].
    + match goal with |- exists front, ?a ++ _ = _ /\ _ => exists a end.
      split; [reflexivity|].
      repeat split.
      * rewrite map_map. apply map_ext. intros m.
        destruct (String.eqb (role m) "system"); reflexivity.
      * rewrite map_map. apply map_ext. intros m.
        destruct (String.eqb (role m) "system"); reflexivity.
      * rewrite map_map. apply map_ext. intros m.
        destruct (String.eqb (role m) "system"); reflexivity.
      * intros i m Hi Hr. rewrite nth_error_map, Hi. cbn [option_map].
        destruct (String.eqb (role m) "system") eqn:E; [|reflexivity].
        apply String.eqb_eq in E. contradiction.
    + intros m Hin Hr. apply in_app_or in Hin as [Hin | [<-|[]]]; [|discriminate].
      apply in_map_iff in Hin as [m0 [<- _]].
      destruct (String.eqb (role m0) "system") eqn:E; [reflexivity|].
      apply String.eqb_neq in E. contradiction.
    + intros [= ->]. reflexivity.
  - split; [|split].
    + exists [mkMessage "system" (Some systemPrompt) None None]. split; reflexivity.
    + intros m [<-|[<-|[]]] Hr; [reflexivity | discriminate].
    + discriminate.
Qed.

End MessagesSpec.

(** ** The request handlers *)

Module HandlersSpec.
Import Prompt Guidelines Handlers GuidelinesSpec.

(** X8: a handler that builds a prompt looks up the guidelines of the
    figure type first, also when it goes on without them: it throws for
    every service exactly when the figure type is not one of the types the
    selector offers.  The abbreviation handler does not read the figure
    type and fails only when the service does. *)
Theorem handlers_throw_for_unknown_type (requestInfo : SuggestionRequest) :
  ((forall create, completionHandler create requestInfo = None)
   <-> ~ In (figure_type requestInfo) FIGURE_TYPES)
  /\ ((forall create, summaryHandler create requestInfo = None)
      <-> ~ In (figure_type requestInfo) FIGURE_TYPES)
  /\ (forall QAPair (parse : string -> option QAPair) stringify create,
        questionsHandler QAPair parse stringify create requestInfo = None
        <-> ~ In (figure_type requestInfo) FIGURE_TYPES)
  /\ (forall QAPair (parse : string -> option QAPair) stringify create,
        feedbackHandler QAPair parse stringify create requestInfo = None
        <-> ~ In (figure_type requestInfo) FIGURE_TYPES)
  /\ (forall create,
        abbreviationHandler create requestInfo = None
        <-> create (OpenAIClient.mkRequest (modelOr (model requestInfo))
                      (OpenAIClient.initialMessages abreviationPrompt
                         ("Description:" ++ nl ++ description requestInfo)%string
                         (messages requestInfo)) 1)
            = OpenAIClient.ApiError).
Proof.
  destruct (in_dec string_dec (figure_type requestInfo) FIGURE_TYPES) as [Hin | Hout].
  - destruct (known_type_guidelines _ Hin) as [text Ht].
    repeat split; try (intros; contradiction).
    + intros H.
      specialize (H (fun _ => OpenAIClient.Choice
                                (OpenAIClient.mkMessage "assistant" None None None))).
      unfold completionHandler, requestCompletion in H. rewrite Ht in H. discriminate.
    + intros H.
      specialize (H (fun _ => OpenAIClient.Choice
                                (OpenAIClient.mkMessage "assistant" None None None))).
      unfold summaryHandler, requestCompletion in H. rewrite Ht in H. discriminate.
    + unfold questionsHandler. rewrite Ht. discriminate.
    + unfold feedbackHandler. rewrite Ht. discriminate.
    + unfold abbreviationHandler, requestCompletion.
      destruct (create _); [discriminate | reflexivity].
    + unfold abbreviationHandler, requestCompletion. intros ->. reflexivity.
  - pose proof (unknown_type_throws _ Hout) as Ht.
    repeat split; try (intros; exact Hout).
    + intros _ create. unfold completionHandler. now rewrite Ht.
    + intros _ create. unfold summaryHandler. now rewrite Ht.
    + intros _. unfold questionsHandler. now rewrite Ht.
    + intros _. unfold feedbackHandler. now rewrite Ht.
    + unfold abbreviationHandler, requestCompletion.
      destruct (create _); [discriminate | reflexivity].
    + unfold abbreviationHandler, requestCompletion. intros ->. reflexivity.
Qed.

(** X9: a request to the completion endpoint that comes with a message
    history is sent on without the task, without the figure type and
    without any metadata or guidelines: the system prompt handed to the
    client is empty, so that every system message of the history is sent
    with empty content, and the user prompt is the bare frame around the
    description. *)
Theorem followup_request (create : OpenAIClient.Request -> OpenAIClient.Completion)
    (requestInfo : SuggestionRequest) (m : OpenAIClient.Message)
    (ms : list OpenAIClient.Message) :
  messages requestInfo = Some (m :: ms) ->
  In (figure_type requestInfo) FIGURE_TYPES ->
  let promptDescription :=
    ("FIGURE TYPE" ++ nl ++ nl ++ nl ++ nl ++ "---" ++ nl ++ "DESCRIPTION SNIPPET" ++ nl
     ++ description requestInfo
     ++ (if given (descriptionContext requestInfo)
         then marker ++ interpolate (descriptionContext requestInfo)
         else "")
     ++ nl ++ "---" ++ nl)%string in
  let sent := OpenAIClient.initialMessages "" promptDescription (Some (m :: ms)) in
  completionHandler create requestInfo
  = match create (OpenAIClient.mkRequest (modelOr (model requestInfo)) sent 1) with
    | OpenAIClient.Choice message => Some (mkReply (resultOf message) sent)
    | OpenAIClient.ApiError => None
    end.
Proof.
  intros Hm Hin. cbv zeta.
  destruct (known_type_guidelines _ Hin) as [text Ht].
  unfold completionHandler, requestCompletion, shouldAddContext. rewrite Ht, Hm.
  match goal with
  | |- match match create ?a with _ => _ end with _ => _ end
       = match create ?b with _ => _ end =>
      change b with a; destruct (create a); reflexivity
  end.
Qed.

Lemma followup_request_witness :
  let history := [OpenAIClient.mkMessage "system" (Some "task") None None;
                  OpenAIClient.mkMessage "user" (Some "first") None None] in
  let requestInfo :=
    mkSuggestionRequest "A bar chart" None "" None (Some history) "Bar plots"
                        (Some "Figure 1: sales") None None None in
  let create := fun _ : OpenAIClient.Request =>
    OpenAIClient.Choice (OpenAIClient.mkMessage "assistant" (Some " of sales.") None None) in
  completionHandler create requestInfo
  = Some (mkReply " of sales."
            [OpenAIClient.mkMessage "system" (Some "") None None;
             OpenAIClient.mkMessage "user" (Some "first") None None;
             OpenAIClient.mkMessage "user"
               (Some ("FIGURE TYPE" ++ nl ++ nl ++ nl ++ nl ++ "---" ++ nl
                      ++ "DESCRIPTION SNIPPET" ++ nl ++ "A bar chart" ++ nl ++ "---" ++ nl)%string)
               None None]).
Proof.
  exact (followup_request
           (fun _ => OpenAIClient.Choice
                       (OpenAIClient.mkMessage "assistant" (Some " of sales.") None None))
           (mkSuggestionRequest "A bar chart" None "" None
              (Some [OpenAIClient.mkMessage "system" (Some "task") None None;
                     OpenAIClient.mkMessage "user" (Some "first") None None])
              "Bar plots" (Some "Figure 1: sales") None None None)
           (OpenAIClient.mkMessage "system" (Some "task") None None)
           [OpenAIClient.mkMessage "user" (Some "first") None None]
           eq_refl (or_intror (or_introl eq_refl))).
Defined.

End HandlersSpec.

(** ** The completion flow, request after request *)

Module CompletionFlowSpec.
Import OpenAIClient.

Lemma users_sent (systemPrompt prompt : string) (ms : list Message) :
  Forall (fun m => role m = "user") ms ->
  initialMessages systemPrompt prompt (Some ms)
  = ms ++ [mkMessage "user" (Some prompt) None None].
Proof.
  intros H. unfold initialMessages. now rewrite MessagesSpec.map_system_users.
Qed.

Lemma requestCompletion_users create systemPrompt prompt ms model message sent :
  Forall (fun m => role m = "user") ms ->
  Handlers.requestCompletion create systemPrompt prompt (Some ms) model = Some (message, sent) ->
  sent = ms ++ [mkMessage "user" (Some prompt) None None]
  /\ create (mkRequest (Handlers.modelOr model) sent 1) <> ApiError.
Proof.
  intros Hu. unfold Handlers.requestCompletion. rewrite (users_sent _ _ _ Hu).
  destruct (create _) eqn:E; [|discriminate].
  intros [= <- <-]. split; [reflexivity|]. rewrite E. discriminate.
Qed.

Lemma apiCall_appends create settings figure editor ms res ms' :
  Forall (fun m => role m = "user") ms ->
  CompletionFlow.apiCall create settings figure editor ms = Some (res, ms') ->
  exists p request,
    ms' = ms ++ [mkMessage "user" (Some p) None None]
    /\ messages request = ms' /\ n request = 1 /\ create request <> ApiError.
Proof.
  intros Hu. unfold CompletionFlow.apiCall, CompletionFlow.serve, Completion.endpoint.
  destruct (JS.truthy_num _); cbn [String.eqb Ascii.eqb Bool.eqb];
    [unfold Handlers.completionHandler | unfold Handlers.summaryHandler];
    destruct (Guidelines.getGuidelines _ _) as [text|]; try discriminate;
    cbn [Handlers.messages CompletionFlow.requestBody Handlers.model];
    destruct (Handlers.requestCompletion _ _ _ _ _) as [[message sent]|] eqn:E; try discriminate;
    intros [= <- <-]; cbn [Handlers.reply_messages];
    apply (requestCompletion_users _ _ _ _ _ _ _ Hu) in E as [-> Hc];
    eexists; eexists; (split; [reflexivity|]); (split; [|split; [|exact Hc]]); reflexivity.
Qed.

Lemma afterRound_users (ms : list Message) (r : CompletionFlow.Round) :
  Forall (fun m => role m = "user") ms ->
  CompletionFlow.afterRound ms r = ms
  \/ exists p request,
       CompletionFlow.afterRound ms r = ms ++ [mkMessage "user" (Some p) None None]
       /\ messages request = CompletionFlow.afterRound ms r /\ n request = 1
       /\ CompletionFlow.round_create r request <> ApiError.
Proof.
  intros Hu. unfold CompletionFlow.afterRound.
  destruct (CompletionFlow.apiCall _ _ _ _ _) as [[res ms']|] eqn:E; [|now left].
  right. destruct (apiCall_appends _ _ _ _ _ _ _ Hu E) as (p & request & -> & H1 & H2 & H3).
  now exists p, request.
Qed.

Lemma afterRounds_users (rounds : list CompletionFlow.Round) :
  forall ms, Forall (fun m => role m = "user") ms ->
    Forall (fun m => role m = "user") (CompletionFlow.afterRounds rounds ms)
    /\ length (CompletionFlow.afterRounds rounds ms) <= length ms + length rounds.
Proof.
  unfold CompletionFlow.afterRounds. induction rounds as [|r rounds IH]; intros ms Hu; cbn [fold_left length].
  - split; [exact Hu | lia].
  - destruct (afterRound_users ms r Hu) as [E | (p & request & E & _)]; rewrite E.
    + destruct (IH ms Hu). split; [assumption | lia].
    + assert (Hu' : Forall (fun m => role m = "user")
                           (ms ++ [mkMessage "user" (Some p) None None])).
      { apply Forall_app. split; [exact Hu|]. now constructor. }
      destruct (IH _ Hu') as [H1 H2]. split; [exact H1|].
      rewrite length_app in H2. cbn [length] in H2. lia.
Qed.

(** X10: in the completion flow the model is never sent a system message
    and never one of its own replies.  Starting from the empty list, and
    whichever of the two endpoints each request goes to, the stored message
    list holds user messages only and at most one for each request made;
    a request that succeeds was sent the stored list with its user prompt
    added, asked for one choice, and stores exactly what it sent; a request
    that fails stores nothing. *)
Theorem completion_conversation (rounds : list CompletionFlow.Round) :
  Forall (fun m => role m = "user") (CompletionFlow.afterRounds rounds [])
  /\ length (CompletionFlow.afterRounds rounds []) <= length rounds
  /\ (forall ms r,
        Forall (fun m => role m = "user") ms ->
        CompletionFlow.afterRound ms r = ms
        \/ exists p request,
             CompletionFlow.afterRound ms r = ms ++ [mkMessage "user" (Some p) None None]
             /\ messages request = CompletionFlow.afterRound ms r /\ n request = 1
             /\ CompletionFlow.round_create r request <> ApiError).
Proof.
  destruct (afterRounds_users rounds [] (Forall_nil _)) as [H1 H2].
  split; [exact H1|]. split; [exact H2|]. exact afterRound_users.
Qed.

End CompletionFlowSpec.

(** ** Bounds of the Q&A client *)

Module GetQABounds.
Import OpenAIClient.

Section Bounds.

Variable QAPair : Type.
Variable JSON_parse : string -> option QAPair.
Variable JSON_stringify : QAPair -> string.
Variable create : Request -> Completion.
Variable modelName : string.

Local Abbreviation loop := (OpenAIClient.loop QAPair JSON_parse JSON_stringify create modelName).

(** What the loop adds to the trace and to the pairs, whatever the
    service answers. *)
Lemma loop_bounded (missing : nat) :
  forall ms responses trace,
  exists added,
    fst (loop missing ms responses trace) = trace ++ added
    /\ length added <= missing
    /\ Forall (fun r => n r = 1 /\ model r = modelName) added
    /\ (forall r rest, added = r :: rest -> messages r = ms)
    /\ match snd (loop missing ms responses trace) with
       | Returned rs ms' =>
           exists new,
             rs = responses ++ new
             /\ length ms' = length ms + 2 * length new
             /\ (length new = missing /\ length added = missing
                 \/ length new < missing /\ length added = S (length new))
       | Threw => 1 <= length added
       end.
Proof.
  induction missing as [|missing IH]; intros ms responses trace; cbn [OpenAIClient.loop].
  - exists []. rewrite app_nil_r. cbn [fst snd length].
    split; [reflexivity|]. split; [lia|]. split; [constructor|].
    split; [discriminate|].
    exists []. rewrite app_nil_r. cbn [length]. split; [reflexivity|]. lia.
  - destruct (create (mkRequest modelName ms 1)) as [message|] eqn:Ec.
    + destruct (function_call message) as [fc|] eqn:Ef.
      * destruct (JSON_parse (fc_arguments fc)) as [parsedArgs|] eqn:Ep.
        -- destruct (IH (ms ++ [message; functionResult QAPair JSON_stringify fc parsedArgs])
                        (responses ++ [parsedArgs])
                        (trace ++ [mkRequest modelName ms 1]))
             as (added & Ht & Hl & Hf & _ & Hr).
           exists (mkRequest modelName ms 1 :: added).
           rewrite Ht, <- app_assoc. cbn [app length].
           split; [reflexivity|]. split; [lia|].
           split; [constructor; [split; reflexivity | exact Hf]|].
           split; [intros r rest [= <- _]; reflexivity|].
           destruct (snd _) as [rs ms'|]; [|lia].
           destruct Hr as (new & -> & Hm & Hc).
           exists (parsedArgs :: new). rewrite <- app_assoc. cbn [app length].
           split; [reflexivity|]. rewrite length_app in Hm. cbn [length] in Hm.
           split; [lia|]. lia.
        -- exists [mkRequest modelName ms 1]. cbn [fst snd length].
           split; [reflexivity|]. split; [lia|].
           split; [constructor; [split; reflexivity | constructor]|].
           split; [intros r rest [= <- _]; reflexivity | lia].
      * exists [mkRequest modelName ms 1]. cbn [fst snd length].
        split; [reflexivity|]. split; [lia|].
        split; [constructor; [split; reflexivity | constructor]|].
        split; [intros r rest [= <- _]; reflexivity|].
        exists []. rewrite app_nil_r. cbn [length]. split; [reflexivity|]. lia.
    + exists [mkRequest modelName ms 1]. cbn [fst snd length].
      split; [reflexivity|]. split; [lia|].
      split; [constructor; [split; reflexivity | constructor]|].
      split; [intros r rest [= <- _]; reflexivity | lia].
Qed.

(** X11: whatever the service answers, also when a request is rejected
    or an answer does not parse, [getQA] makes at most [n_qa] requests,
    each for one choice and for the given model, the first of them with the
    message list of the request.  When it returns, it returns either
    [n_qa] pairs from [n_qa] requests or fewer pairs from one request more
    than pairs, and the message list it returns has grown by two messages
    for each pair; when it throws, it has made at least one request. *)
Theorem getQA_bounded (systemPrompt prompt : string)
    (messageHistory : option (list Message)) (n_qa : nat) :
  let out := getQA QAPair JSON_parse JSON_stringify create systemPrompt prompt
                   messageHistory n_qa modelName in
  length (fst out) <= n_qa
  /\ Forall (fun r => n r = 1 /\ model r = modelName) (fst out)
  /\ (forall r rest, fst out = r :: rest ->
        messages r = initialMessages systemPrompt prompt messageHistory)
  /\ match snd out with
     | Returned responses messageList =>
         length messageList
         = length (initialMessages systemPrompt prompt messageHistory)
           + 2 * length responses
         /\ (length responses = n_qa /\ length (fst out) = n_qa
             \/ length responses < n_qa /\ length (fst out) = S (length responses))
     | Threw => 1 <= length (fst out)
     end.
Proof.
  cbv zeta. unfold getQA.
  destruct (loop_bounded n_qa (initialMessages systemPrompt prompt messageHistory) [] [])
    as (added & Ht & Hl & Hf & Hfirst & Hr).
  cbn [app] in Ht. rewrite Ht.
  split; [exact Hl|]. split; [exact Hf|]. split; [exact Hfirst|].
  destruct (snd _) as [rs ms'|]; [|exact Hr].
  destruct Hr as (new & -> & Hm & Hc). cbn [app]. split; [exact Hm | exact Hc].
Qed.

End Bounds.

(** X12: the feedback endpoint asks the model at most once and answers
    with at most one pair; the questions endpoint asks at most four times
    and answers with at most four pairs. *)
Theorem question_handlers_bounded (QAPair : Type) (JSON_parse : string -> option QAPair)
    (JSON_stringify : QAPair -> string) (create : Request -> Completion)
    (requestInfo : Handlers.SuggestionRequest) :
  (forall trace res,
     Handlers.feedbackHandler QAPair JSON_parse JSON_stringify create requestInfo
     = Some (trace, res) ->
     length trace <= 1
     /\ match res with
        | Returned responses _ => length responses <= 1
        | Threw => length trace = 1
        end)
  /\ (forall trace res,
        Handlers.questionsHandler QAPair JSON_parse JSON_stringify create requestInfo
        = Some (trace, res) ->
        length trace <= 4
        /\ match res with
           | Returned responses _ => length responses <= 4
           | Threw => 1 <= length trace
           end).
Proof.
  split; intros trace res;
    [unfold Handlers.feedbackHandler | unfold Handlers.questionsHandler];
    destruct (Guidelines.getGuidelines _ _) as [text|]; try discriminate;
    unfold getQA;
    match goal with
    | |- Some (OpenAIClient.loop _ _ _ _ ?m ?k ?ms _ _) = _ -> _ =>
        destruct (loop_bounded QAPair JSON_parse JSON_stringify create m k ms [] [])
          as (added & Ht & Hl & _ & _ & Hr);
        destruct (OpenAIClient.loop QAPair JSON_parse JSON_stringify create m k ms [] [])
          as [trace' res']
    end;
    cbn [fst snd app] in *; intros [= <- <-]; subst trace';
    (split; [exact Hl|]);
    (destruct res' as [rs ms'|]; [destruct Hr as (new & -> & _ & Hc); cbn [app]; lia | lia]).
Qed.

End GetQABounds.

(** ** The list of questions shown *)

Module SuggestionsSpec.
Import Suggestions.

Lemma strictEq_eq (a b : option string) : strictEq a b = true <-> a = b.
Proof.
  destruct a as [x|], b as [y|]; cbn; try (split; congruence).
  rewrite String.eqb_eq. split; congruence.
Qed.

Lemma sameQuestion_key (qa q : QAPair) : sameQuestion qa q = true <-> keyOf q = keyOf qa.
Proof.
  unfold sameQuestion, keyOf. rewrite andb_true_iff, String.eqb_eq, strictEq_eq.
  split; [intros [-> ->]; reflexivity | intros [= -> ->]; now split].
Qed.

Lemma sameQuestion_refl (qa : QAPair) : sameQuestion qa qa = true.
Proof. now apply sameQuestion_key. Qed.

Lemma seen_key (x : QAPair) (seen : list QAPair) :
  existsb (sameQuestion x) seen = true <-> In (keyOf x) (map keyOf seen).
Proof.
  rewrite existsb_exists, in_map_iff. split; intros [q [H1 H2]]; exists q.
  - apply sameQuestion_key in H2. auto.
  - split; [exact H2 | now apply sameQuestion_key].
Qed.

Lemma findIndex_seen {A : Type} (p : A -> bool) (seen l : list A) :
  existsb p seen = true ->
  exists j, j < length seen /\ findIndex p (seen ++ l) = Some j.
Proof.
  induction seen as [|x seen IH]; cbn [existsb app findIndex length]; [discriminate|].
  destruct (p x); cbn [orb].
  - intros _. exists 0. split; [lia | reflexivity].
  - intros H. destruct (IH H) as [j [Hj ->]]. exists (S j). split; [lia | reflexivity].
Qed.

Lemma findIndex_unseen {A : Type} (p : A -> bool) (seen : list A) (x : A) (l : list A) :
  existsb p seen = false -> p x = true ->
  findIndex p (seen ++ x :: l) = Some (length seen).
Proof.
  induction seen as [|y seen IH]; cbn [existsb app findIndex length]; intros H Hx.
  - now rewrite Hx.
  - apply orb_false_iff in H as [-> H]. now rewrite (IH H Hx).
Qed.

(** The filter keeps the first element of each key. *)
Lemma filter_firstOfEach (seen l : list QAPair) :
  filterFrom (fun qa i => indexIs (findIndex (sameQuestion qa) (seen ++ l)) i)
             (length seen) l
  = firstOfEach seen l.
Proof.
  revert seen. induction l as [|x rest IH]; intros seen; [reflexivity|].
  cbn [filterFrom firstOfEach].
  specialize (IH (seen ++ [x])).
  rewrite <- app_assoc, length_app in IH. cbn [app length] in IH.
  rewrite Nat.add_1_r in IH.
  destruct (existsb (sameQuestion x) seen) eqn:E.
  - destruct (findIndex_seen _ seen (x :: rest) E) as [j [Hj ->]].
    cbn [indexIs]. replace (j =? length seen) with false
      by (symmetry; apply Nat.eqb_neq; lia).
    exact IH.
  - rewrite (findIndex_unseen _ seen x rest E (sameQuestion_refl x)).
    cbn [indexIs]. rewrite Nat.eqb_refl. now rewrite IH.
Qed.

Lemma timeOrdered_firstOfEach (allQuestions : list QAPair) :
  timeOrderedQuestions allQuestions = firstOfEach [] allQuestions.
Proof. exact (filter_firstOfEach [] allQuestions). Qed.

Lemma firstOfEach_facts (l : list QAPair) :
  forall seen,
    (forall y, In y (firstOfEach seen l) -> ~ In (keyOf y) (map keyOf seen))
    /\ NoDup (map keyOf (firstOfEach seen l))
    /\ (forall y, In y l ->
          In (keyOf y) (map keyOf seen) \/ In (keyOf y) (map keyOf (firstOfEach seen l)))
    /\ Subsequence (firstOfEach seen l) l
    /\ (forall y, In y (firstOfEach seen l) ->
          exists l1 l2, l = l1 ++ y :: l2 /\ forall z, In z l1 -> keyOf z <> keyOf y).
Proof.
  induction l as [|x rest IH]; intros seen; cbn [firstOfEach].
  - repeat split; try contradiction; constructor.
  - destruct (IH (seen ++ [x])) as (Ha & Hb & Hc & Hd & He).
    assert (Hseen : forall k, In k (map keyOf (seen ++ [x]))
                              <-> In k (map keyOf seen) \/ k = keyOf x).
    { intros k. rewrite map_app, in_app_iff. cbn [map In]. intuition congruence. }
    assert (Hfirst : forall y, In y (firstOfEach (seen ++ [x]) rest) ->
              exists l1 l2, x :: rest = l1 ++ y :: l2
                            /\ forall z, In z l1 -> keyOf z <> keyOf y).
    { intros y Hy. destruct (He y Hy) as (l1 & l2 & -> & Hl1).
      exists (x :: l1), l2. split; [reflexivity|].
      intros z [<-|Hz]; [|now apply Hl1].
      intros Hk. apply (Ha y Hy), Hseen. now right. }
    destruct (existsb (sameQuestion x) seen) eqn:E.
    + apply seen_key in E. repeat split.
      * intros y Hy Hin. apply (Ha y Hy), Hseen. now left.
      * exact Hb.
      * intros y [<-|Hy]; [now left|].
        destruct (Hc y Hy) as [H|H]; [|now right].
        apply Hseen in H as [H| ->]; now left.
      * now constructor.
      * exact Hfirst.
    + assert (Hx : ~ In (keyOf x) (map keyOf seen)).
      { intros H. apply seen_key in H. congruence. }
      repeat split.
      * intros y [<-|Hy]; [exact Hx|].
        intros Hin. apply (Ha y Hy), Hseen. now left.
      * cbn [map]. constructor; [|exact Hb].
        intros Hin. apply in_map_iff in Hin as [y [Hk Hy]].
        apply (Ha y Hy), Hseen. now right.
      * intros y [<-|Hy]; [right; now left|].
        destruct (Hc y Hy) as [H|H]; [|right; now right].
        apply Hseen in H as [H|H]; [now left|]. right. left. now symmetry.
      * now constructor.
      * intros y [<-|Hy]; [|now apply Hfirst].
        exists [], rest. split; [reflexivity|]. contradiction.
Qed.

Lemma firstOfEach_distinct (l : list QAPair) :
  forall seen,
    NoDup (map keyOf l) ->
    (forall y, In y l -> ~ In (keyOf y) (map keyOf seen)) ->
    firstOfEach seen l = l.
Proof.
  induction l as [|x rest IH]; intros seen Hnd Hs; [reflexivity|].
  cbn [firstOfEach]. cbn [map] in Hnd. inversion Hnd as [|k ks Hx Hrest]; subst.
  destruct (existsb (sameQuestion x) seen) eqn:E.
  - apply seen_key in E. exfalso. apply (Hs x); [now left | exact E].
  - f_equal. apply IH; [exact Hrest|].
    intros y Hy Hin. rewrite map_app, in_app_iff in Hin. cbn [map In] in Hin.
    destruct Hin as [Hin | [Hk | []]].
    + apply (Hs y); [now right | exact Hin].
    + apply Hx. rewrite Hk. apply in_map. exact Hy.
Qed.

(** X13: the list shown has no two questions with the same question
    text and first answer, has one for every pair of them that occurs in
    the list of all questions, and is that list with elements left out,
    the others in their order; a list in which these pairs are all
    different is shown as it is. *)
Theorem timeOrderedQuestions_distinct (allQuestions : list QAPair) :
  NoDup (map keyOf (timeOrderedQuestions allQuestions))
  /\ (forall qa, In qa allQuestions ->
        In (keyOf qa) (map keyOf (timeOrderedQuestions allQuestions)))
  /\ Subsequence (timeOrderedQuestions allQuestions) allQuestions
  /\ (NoDup (map keyOf allQuestions) -> timeOrderedQuestions allQuestions = allQuestions).
Proof.
  rewrite timeOrdered_firstOfEach.
  destruct (firstOfEach_facts allQuestions []) as (_ & Hb & Hc & Hd & _).
  split; [exact Hb|]. split; [|split; [exact Hd|]].
  - intros qa Hin. destruct (Hc qa Hin) as [[] | H]. exact H.
  - intros Hnd. apply firstOfEach_distinct; [exact Hnd|]. intros y _ [].
Qed.

(** X14: of the questions with the same question text and first answer
    the list shown keeps the one that comes first, also when the others
    differ from it in their further answers; and filtering the list shown
    again changes nothing. *)
Theorem timeOrderedQuestions_first (allQuestions : list QAPair) :
  (forall qa, In qa (timeOrderedQuestions allQuestions) ->
     exists before after,
       allQuestions = before ++ qa :: after
       /\ forall q, In q before -> keyOf q <> keyOf qa)
  /\ timeOrderedQuestions (timeOrderedQuestions allQuestions)
     = timeOrderedQuestions allQuestions.
Proof.
  split.
  - rewrite timeOrdered_firstOfEach.
    destruct (firstOfEach_facts allQuestions []) as (_ & _ & _ & _ & He). exact He.
  - rewrite (timeOrdered_firstOfEach (timeOrderedQuestions allQuestions)).
    apply firstOfEach_distinct; [|intros y _ []].
    rewrite timeOrdered_firstOfEach.
    now destruct (firstOfEach_facts allQuestions []) as (_ & Hb & _).
Qed.

End SuggestionsSpec.

(** ** The view of an async request *)

Module AsyncDataSpec.
Import AsyncRequest AsyncData.

Section Facts.

Variable T : Type.
Variable truthy : T -> bool.

(** X15: after a call of [fetchData] the view shows neither the loading
    message nor an error of an earlier call: when the call has failed it
    shows the error message, also when there is data from before, and when
    it has succeeded it shows the data if the response is truthy and
    nothing if it is not. *)
Theorem view_after_fetch (apiCall : option T -> Outcome T) (st : State T)
    (messageLoading messageError : string) :
  let st' := run st (fetchData truthy apiCall st) in
  AsyncDataView truthy st' messageLoading messageError
  = match apiCall (seedOf truthy (data st)) with
    | Resolved response => if truthy response then View st' else Nothing
    | Rejected _ => DataError messageError
    end.
Proof.
  cbv zeta. unfold fetchData, AsyncDataView.
  destruct (apiCall (seedOf truthy (data st))) as [response | e]; reflexivity.
Qed.

(** X16: the loading flag does not count calls.  A call of [fetchData]
    is what it does before it waits for the promise followed by what it
    does when the promise has settled.  When a second call is started
    before the first has settled, and the second settles first, the flag is
    cleared although the first call is still under way; the call that
    settles last decides the data, whichever was started last; and when the
    second call has failed and the first succeeds after it, the error of
    the second stays beside the data of the first, so that the view shows
    the error. *)
Theorem overlapping_fetches (st : State T) (first second : Outcome T)
    (messageLoading messageError : string) :
  let mid := run st (started truthy st ++ started truthy st ++ settled second) in
  let final := run mid (settled first) in
  (forall apiCall,
     fetchData truthy apiCall st
     = started truthy st ++ settled (apiCall (seedOf truthy (data st))))
  /\ loading mid = false
  /\ loading final = false
  /\ data final = match first with
                  | Resolved response => Some response
                  | Rejected _ => data mid
                  end
  /\ (forall response e,
        first = Resolved response -> second = Rejected e ->
        data final = Some response
        /\ error final = Some genericError
        /\ AsyncDataView truthy final messageLoading messageError
           = DataError messageError).
Proof.
  cbv zeta. split; [reflexivity|].
  destruct first as [r1|e1], second as [r2|e2]; cbn;
    repeat split; intros; first [discriminate | congruence | reflexivity].
Qed.

End Facts.

(** X17: for data that is truthy whatever it is, an array or an object,
    the effect never fetches once there is data, whatever the flag and the
    dependencies are, also when the data is the empty array; a call of
    [fetchData] hands the data to the API call as it is, and leaves data
    in place, so this stays so after any number of calls. *)
Theorem truthy_data_never_auto_fetches (T : Type) (truthy : T -> bool)
    (Dep : Type) (same : Dep -> Dep -> bool) (st : State T) :
  (forall x, truthy x = true) ->
  data st <> None ->
  (forall previous dependencies, autoFetches truthy same previous dependencies st = false)
  /\ (forall apiCall,
        In (CallApi (data st)) (fetchData truthy apiCall st)
        /\ data (run st (fetchData truthy apiCall st)) <> None).
Proof.
  intros Ht Hd. destruct st as [sf [d|] l e]; [|contradiction]. cbn [data] in *.
  split.
  - intros previous dependencies. unfold autoFetches. cbn. rewrite Ht.
    cbn. now rewrite andb_false_r, andb_false_r.
  - intros apiCall. unfold fetchData, seedOf. cbn [data truthyData]. rewrite Ht.
    split; [right; right; now left|].
    destruct (apiCall (Some d)); cbn; discriminate.
Qed.

Lemma truthy_data_never_auto_fetches_witness :
  let st := initial (list nat) (Some []) true in
  (forall previous dependencies,
     autoFetches (fun _ : list nat => true) Nat.eqb previous dependencies st = false)
  /\ (forall apiCall,
        In (CallApi (data st)) (fetchData (fun _ => true) apiCall st)
        /\ data (run st (fetchData (fun _ => true) apiCall st)) <> None).
Proof.
  exact (truthy_data_never_auto_fetches (list nat) (fun _ => true) nat Nat.eqb
           (initial (list nat) (Some []) true)
           (fun _ => eq_refl) ltac:(discriminate)).
Defined.

End AsyncDataSpec.

(** ** The event logger over the renders *)

Module LoggerRendersSpec.
Import EventLogger LoggerRenders.

Lemma render_listeners (ed : Editor) (r : Render) :
  updateListeners (render ed r)
  = match handlerOf r with Some h => [h] | None => updateListeners ed end.
Proof.
  unfold render, handlerOf, useEventLogger, EventClasses.complete.
  destruct (truthyId (idOf (user (fst r)))), (truthyId (idOf (figure (fst r)))),
    (truthyId (idOf (description (fst r)))); reflexivity.
Qed.

Lemma lastHandler_before (rs : list Render) (before : option Handler) :
  lastHandler rs before
  = match lastHandler rs None with Some h => Some h | None => before end.
Proof.
  revert before. induction rs as [|r rs IH]; intros before; cbn [lastHandler].
  - reflexivity.
  - destruct (handlerOf r) as [h|]; [|apply IH].
    rewrite (IH (Some h)). destruct (lastHandler rs None); reflexivity.
Qed.

Lemma renders_listeners (rs : list Render) :
  forall ed,
    updateListeners (renders rs ed)
    = match lastHandler rs None with Some h => [h] | None => updateListeners ed end.
Proof.
  unfold renders. induction rs as [|r rs IH]; intros ed; cbn [fold_left lastHandler].
  - reflexivity.
  - rewrite IH, render_listeners.
    destruct (handlerOf r) as [h|]; [|reflexivity].
    rewrite (lastHandler_before rs (Some h)).
    destruct (lastHandler rs None); reflexivity.
Qed.

Lemma onStep_one (h : Handler) (now : nat) (s : Step) : length (onStep h now s) <= 1.
Proof.
  unfold onStep.
  repeat match goal with |- context [if ?c then _ else _] => destruct c end; cbn; lia.
Qed.

Lemma onUpdate_count (h : Handler) (now : nat) (tr : Transaction) :
  length (onUpdate h now tr) <= if pasteMeta tr then 1 else length (steps tr).
Proof.
  unfold onUpdate. destruct (docChanged tr), (pasteMeta tr); cbn [length]; try lia.
  - unfold onPaste. destruct (last _ _) as [s|]; [|cbn; lia].
    destruct (sliceSize s) as [[|k]|]; try (cbn; lia).
    destruct (JS.truthy_string _); cbn; lia.
  - induction (steps tr) as [|s l IH]; [cbn; lia|].
    cbn [flat_map length]. rewrite length_app.
    pose proof (onStep_one h now s). lia.
Qed.

(** X18: however often the component renders, the editor has at most
    the one listener of the logger: after any renders of an editor that
    had none, it is the handler of the last render in which the user, the
    figure and the description all had an id, with the identifiers and the
    condition of that render, and there is none if there was no such
    render.  A render registers nothing twice. *)
Theorem renders_last_handler (rs : list Render) (now : nat) (tr : Transaction) :
  let ed := renders rs (mkEditor []) in
  updateListeners ed
  = match lastHandler rs None with Some h => [h] | None => [] end
  /\ emitUpdate ed now tr
     = match lastHandler rs None with Some h => onUpdate h now tr | None => [] end
  /\ forall r, renders (rs ++ [r; r]) (mkEditor []) = renders (rs ++ [r]) (mkEditor []).
Proof.
  cbv zeta. pose proof (renders_listeners rs (mkEditor [])) as H. cbn [updateListeners] in H.
  split; [exact H|]. split.
  - unfold emitUpdate. rewrite H. destruct (lastHandler rs None); cbn [flat_map].
    + apply app_nil_r.
    + reflexivity.
  - intros r. unfold renders. rewrite !fold_left_app. cbn [fold_left].
    set (e := fold_left render rs (mkEditor [])).
    pose proof (render_listeners (render e r) r) as H2.
    pose proof (render_listeners e r) as H1.
    destruct (render (render e r) r) as [l2], (render e r) as [l1].
    cbn [updateListeners] in *. f_equal. rewrite H2.
    destruct (handlerOf r); congruence.
Qed.

(** X19: a transaction is logged with at most one event for each of its
    steps, and a paste with at most one event in all, whatever renders came
    before; a transaction without steps is not logged. *)
Theorem events_per_transaction (rs : list Render) (now : nat) (tr : Transaction) :
  length (emitUpdate (renders rs (mkEditor [])) now tr)
  <= (if pasteMeta tr then 1 else length (steps tr))
  /\ (steps tr = [] -> emitUpdate (renders rs (mkEditor [])) now tr = []).
Proof.
  pose proof (renders_listeners rs (mkEditor [])) as H. cbn [updateListeners] in H.
  unfold emitUpdate. rewrite H.
  destruct (lastHandler rs None) as [h|]; cbn [flat_map].
  - rewrite app_nil_r. split; [apply onUpdate_count|].
    intros Hs. unfold onUpdate, docChanged. now rewrite Hs.
  - split; [cbn; destruct (pasteMeta tr); lia | reflexivity].
Qed.

End LoggerRendersSpec.

(** ** The steps of the accept/reject flow *)

Module TransformSpec.
Import ProseMirror Places Invariants ProseMirrorFacts SchemaSpec ReplaceSpec LookupSpec MatchSpec.
Import AcceptReject AcceptRejectSpec Examples.

Lemma parentAt_elem nm a mk c from to :
  Transform.parentAt (ElemNode nm a mk c) from to =
    match parentInner from to c 0 with
    | Some found => found
    | None =>
        if from <=? to then
          match splitAt from c, splitAt to c with
          | Some (before, _), Some (_, after) => Some (nm, before, after)
          | _, _ => None
          end
        else None
    end.
Proof.
  cbn [Transform.parentAt].
  match goal with
  | |- match ?loop c 0 with _ => _ end = _ =>
      enough (H : forall pos, loop c pos = parentInner from to c pos)
        by now rewrite H
  end.
  induction c as [|x c IH]; intros pos; [reflexivity|].
  cbn [parentInner]. now rewrite IH.
Qed.

Lemma parentInner_skip from to (b r : Fragment) (pos : nat) :
  from <= to -> pos + fragmentSize b <= from ->
  parentInner from to (b ++ r) pos = parentInner from to r (pos + fragmentSize b).
Proof.
  intros Hft. revert pos. induction b as [|x b IH]; intros pos Hpos.
  - cbn [app]. unfold fragmentSize. cbn. now rewrite Nat.add_0_r.
  - rewrite fragmentSize_cons in Hpos. cbn [app parentInner].
    ltb_false to (pos + nodeSize x).
    rewrite andb_false_r. cbn [andb].
    rewrite IH by lia. now rewrite fragmentSize_cons, Nat.add_assoc.
Qed.

Lemma parentInner_after from to (r : Fragment) (pos : nat) :
  from <= pos -> parentInner from to r pos = None.
Proof.
  revert pos. induction r as [|x r IH]; intros pos Hpos; [reflexivity|].
  cbn [parentInner].
  ltb_false pos from.
  cbn [andb]. apply IH. lia.
Qed.

(** The parent of the range of the node in the hole is the node around
    the hole. *)
Lemma parentAt_plug (c : FragCtx) (h : Node) :
  forall nm a mk,
  valid (ElemNode nm a mk (plug c [h])) = true ->
  Transform.parentAt (ElemNode nm a mk (plug c [h])) (ctxPos c) (ctxPos c + nodeSize h)
  = Some (holeParent nm c).
Proof.
  induction c as [b r | b nm' a' mk' inner IH r]; intros nm a mk Hv;
    apply valid_parent in Hv as [Hl [Hv _]]; rewrite parentAt_elem;
    cbn [plug ctxPos holeParent] in *.
  - rewrite parentInner_skip by lia.
    rewrite parentInner_after by lia.
    replace (fragmentSize b <=? fragmentSize b + nodeSize h) with true
      by (symmetry; apply Nat.leb_le; lia).
    rewrite forallb_app in Hv. apply andb_true_iff in Hv as [Hb Hhr].
    cbn [app forallb] in Hhr. apply andb_true_iff in Hhr as [Hh Hr].
    rewrite (splitAt_app b ([h] ++ r) Hb).
    replace (fragmentSize b + nodeSize h) with (fragmentSize (b ++ [h]))
      by (rewrite fragmentSize_app, fragmentSize_cons; unfold fragmentSize; cbn; lia).
    replace (b ++ [h] ++ r) with ((b ++ [h]) ++ r) by now rewrite <- app_assoc.
    rewrite splitAt_app by (rewrite forallb_app, Hb; cbn; now rewrite Hh).
    reflexivity.
  - rewrite forallb_app in Hv. apply andb_true_iff in Hv as [Hb Hxr].
    cbn [forallb] in Hxr. apply andb_true_iff in Hxr as [Hx Hr].
    pose proof Hx as Hx'. apply valid_parent in Hx' as [Hl' [Hin _]].
    pose proof (plug_size inner h Hin) as Hsz.
    rewrite parentInner_skip by lia.
    cbn [parentInner]. rewrite nodeSize_elem, Hl'. cbn [isLeaf]. rewrite Hl'.
    ltb_true (0 + fragmentSize b) (fragmentSize b + 1 + ctxPos inner).
    replace (fragmentSize b + 1 + ctxPos inner + nodeSize h
             <? 0 + fragmentSize b + (2 + fragmentSize (plug inner [h]))) with true
      by (symmetry; apply Nat.ltb_lt; lia).
    cbn [andb negb].
    replace (fragmentSize b + 1 + ctxPos inner - (0 + fragmentSize b) - 1)
      with (ctxPos inner) by lia.
    replace (fragmentSize b + 1 + ctxPos inner + nodeSize h - (0 + fragmentSize b) - 1)
      with (ctxPos inner + nodeSize h) by lia.
    now rewrite (IH nm' a' mk' Hx).
Qed.

(** *** What the schema asks of the node around the hole *)

Lemma conforms_parts nm a mk c :
  conforms (ElemNode nm a mk c) = true ->
  validContent nm c = true /\ forallb conforms c = true.
Proof. cbn [conforms]. intros H. now apply andb_true_iff in H. Qed.

Lemma conforms_hole (c : FragCtx) (h : Node) :
  forall nm a mk,
  conforms (ElemNode nm a mk (plug c [h])) = true ->
  validContent (fst (fst (holeParent nm c)))
               (snd (fst (holeParent nm c)) ++ h :: snd (holeParent nm c)) = true
  /\ forallb conforms (snd (fst (holeParent nm c)) ++ h :: snd (holeParent nm c)) = true.
Proof.
  induction c as [b r | b nm' a' mk' inner IH r]; intros nm a mk Hc;
    apply conforms_parts in Hc as [Hv Hc]; cbn [plug holeParent fst snd] in *.
  - now split.
  - rewrite forallb_app in Hc. apply andb_true_iff in Hc as [_ Hc].
    cbn [forallb] in Hc. apply andb_true_iff in Hc as [Hc _].
    exact (IH nm' a' mk' Hc).
Qed.

(** The content expression and the marks look at the type and the marks
    of a child, not at what it holds. *)
Lemma validContent_child nm (b r : Fragment) nm' a' mk' c1 c2 :
  validContent nm (b ++ ElemNode nm' a' mk' c1 :: r)
  = validContent nm (b ++ ElemNode nm' a' mk' c2 :: r).
Proof.
  unfold validContent, matchesContent. rewrite !forallb_app. cbn [forallb nodeMarks].
  f_equal. destruct (contentExpr nm) as [e|]; [|reflexivity].
  destruct e, b; cbn [matchFragment app isEmpty forallb]; rewrite ?forallb_app;
    cbn [forallb inBlockGroup inInlineGroup hasType isText]; reflexivity.
Qed.

(** The document conforms again when what is put in the hole is content
    that the node around the hole takes there. *)
Lemma conforms_plug (c : FragCtx) (h : Node) (xs : Fragment) :
  forall nm a mk,
  conforms (ElemNode nm a mk (plug c [h])) = true ->
  validContent (fst (fst (holeParent nm c)))
               (snd (fst (holeParent nm c)) ++ xs ++ snd (holeParent nm c)) = true ->
  forallb conforms xs = true ->
  conforms (ElemNode nm a mk (plug c xs)) = true.
Proof.
  induction c as [b r | b nm' a' mk' inner IH r]; intros nm a mk Hc Hxs Hcx;
    apply conforms_parts in Hc as [Hv Hc]; cbn [plug holeParent fst snd] in *;
    rewrite forallb_app in Hc; apply andb_true_iff in Hc as [Hb Hc];
    cbn [app forallb] in Hc; apply andb_true_iff in Hc as [Hh Hr].
  - cbn [conforms]. rewrite Hxs, !forallb_app, Hb, Hcx, Hr. reflexivity.
  - pose proof (IH nm' a' mk' Hh Hxs Hcx) as Hin.
    change (validContent nm (b ++ ElemNode nm' a' mk' (plug inner xs) :: r)
            && forallb conforms (b ++ ElemNode nm' a' mk' (plug inner xs) :: r) = true).
    rewrite (validContent_child nm b r nm' a' mk' _ (plug inner [h])), Hv, forallb_app.
    cbn [forallb]. now rewrite Hb, Hr, Hin.
Qed.

Lemma leftInHole_parent (c : FragCtx) (nm : string) :
  leftInHole c
  = match snd (fst (holeParent nm c)), snd (holeParent nm c) with
    | [], [] => [Transform.filler]
    | _, _ => []
    end.
Proof.
  revert nm. induction c as [b r | b nm' a' mk' inner IH r]; intros nm;
    cbn [leftInHole holeParent fst snd]; [|apply IH].
  destruct b, r; reflexivity.
Qed.

(** A provisional heading stands in a node of content [block+], or in a
    list item behind its first child. *)
Lemma heading_place (e : ContentExpr) (b r : Fragment) a mk c :
  matchFragment e (b ++ ElemNode "heading" a mk c :: r) = true ->
  (e = BlockPlus /\ forallb inBlockGroup b = true /\ forallb inBlockGroup r = true)
  \/ (e = ParagraphBlockStar /\ b <> []
      /\ matchFragment ParagraphBlockStar (b ++ r) = true).
Proof.
  destruct e; cbn [matchFragment]; rewrite ?forallb_app; cbn [forallb];
    intros H.
  - left. apply andb_true_iff in H as [_ H]. apply andb_true_iff in H as [Hb H].
    apply andb_true_iff in H as [_ Hr]. auto.
  - apply andb_true_iff in H as [_ H]. discriminate.
  - apply andb_true_iff in H as [_ H]. apply andb_true_iff in H as [_ H]. discriminate.
  - right. destruct b as [|b0 b]; cbn [app] in *; [discriminate|].
    split; [reflexivity|]. split; [discriminate|].
    apply andb_true_iff in H as [H0 H]. rewrite forallb_app in *.
    apply andb_true_iff in H as [Hb H]. cbn [forallb] in H.
    apply andb_true_iff in H as [_ Hr]. now rewrite H0, Hb, Hr.
  - apply andb_true_iff in H as [_ H]. discriminate.
  - destruct b; discriminate.
Qed.

Section Steps.

Variable t : string.
Variables (c : FragCtx) (h : Node) (nm : string) (a : Attrs) (mk : list Mark).

Hypothesis Hdoc : conforms (ElemNode nm a mk (plug c [h])) = true.
Hypothesis Hh : isProvisional t h = true.

Local Abbreviation doc := (ElemNode nm a mk (plug c [h])).
Local Abbreviation parent := (fst (fst (holeParent nm c))).
Local Abbreviation before := (snd (fst (holeParent nm c))).
Local Abbreviation after := (snd (holeParent nm c)).

Lemma hole_place :
  exists e,
    contentExpr parent = Some e
    /\ ((e = BlockPlus /\ forallb inBlockGroup before = true
         /\ forallb inBlockGroup after = true)
        \/ (e = ParagraphBlockStar /\ before <> []
            /\ matchFragment ParagraphBlockStar (before ++ after) = true))
    /\ forallb (fun child => allowsMarks parent (nodeMarks child)) before = true
    /\ forallb (fun child => allowsMarks parent (nodeMarks child)) after = true
    /\ forallb conforms before = true /\ forallb conforms after = true
    /\ conforms h = true.
Proof.
  destruct (conforms_hole c h nm a mk Hdoc) as [Hv Hc].
  destruct (provisional_shape t h Hh) as (ah & mkh & m & rest & ->).
  unfold validContent, matchesContent in Hv. apply andb_true_iff in Hv as [Hm Hmarks].
  destruct (contentExpr parent) as [e|] eqn:E; [|discriminate].
  exists e. split; [reflexivity|]. split; [exact (heading_place e _ _ _ _ _ Hm)|].
  rewrite forallb_app in Hmarks, Hc. cbn [forallb] in Hmarks, Hc.
  apply andb_true_iff in Hmarks as [Hmb Hmr]. apply andb_true_iff in Hmr as [_ Hmr].
  apply andb_true_iff in Hc as [Hcb Hcr]. apply andb_true_iff in Hcr as [Hch Hcr].
  auto 10.
Qed.

Lemma hole_valid : valid doc = true.
Proof. exact (conforms_valid _ Hdoc). Qed.

Lemma text_conforms : conforms (TextNode t []) = true.
Proof.
  destruct hole_place as (_ & _ & _ & _ & _ & _ & _ & Hch).
  destruct (provisional_shape t h Hh) as (ah & mkh & m & rest & ->).
  apply conforms_parts in Hch as [_ Hch]. cbn [forallb] in Hch.
  apply andb_true_iff in Hch as [Hch _]. exact Hch.
Qed.

(** The paragraph is created with the mark, the node around the hole
    does not allow it, and the step holds the paragraph without it. *)
Lemma accept_slice :
  Transform.replaceStep doc (ctxPos c) (ctxPos c + nodeSize h) [generatedParagraph t]
  = Some [paragraph t]
  /\ Transform.fitsTrivially parent before [generatedParagraph t] after = false
  /\ Transform.blockContent parent = true
  /\ validContent parent (before ++ [paragraph t] ++ after) = true.
Proof.
  destruct hole_place as (e & E & Hplace & Hmb & Hmr & _).
  assert (Hallow : allowsMarks parent [mkMark "generated"] = false
                   /\ allowedMarks parent [mkMark "generated"] = []
                   /\ allowsMarks parent [] = true
                   /\ Transform.blockContent parent = true).
  { unfold allowsMarks, allowedMarks, Transform.blockContent. rewrite E.
    destruct Hplace as [[-> _] | [-> _]]; repeat split. }
  destruct Hallow as (Hno & Hnone & Hyes & Hblock).
  assert (Htriv : Transform.fitsTrivially parent before [generatedParagraph t] after = false).
  { unfold Transform.fitsTrivially. cbn [forallb generatedParagraph createParagraph nodeMarks].
    rewrite Hno. cbn [andb]. apply andb_false_r. }
  assert (Hm : matchesContent parent (before ++ [paragraph t] ++ after) = true).
  { unfold matchesContent. rewrite E.
    destruct Hplace as [[-> [Hb Hr]] | [-> [Hne Hm]]]; cbn [matchFragment].
    - rewrite forallb_app. cbn [app forallb]. rewrite Hb, Hr.
      destruct before; reflexivity.
    - cbn [matchFragment app] in *. destruct before as [|b0 b]; [contradiction|].
      cbn [app] in *. apply andb_true_iff in Hm as [H0 Hm]. rewrite H0.
      rewrite forallb_app in *. apply andb_true_iff in Hm as [Hb Hr].
      cbn [forallb]. now rewrite Hb, Hr. }
  split; [|split; [exact Htriv|split; [exact Hblock|]]].
  - unfold Transform.replaceStep. rewrite (parentAt_plug c h nm a mk hole_valid).
    destruct (holeParent nm c) as [[pn b] r]. cbn [fst snd] in *.
    rewrite Htriv. unfold Transform.fit.
    cbn [map generatedParagraph createParagraph nodeMarks mark computeAttrs paragraphAttrs].
    rewrite Hnone. fold (paragraph t). now rewrite Hm.
  - unfold validContent. rewrite Hm, !forallb_app. cbn [forallb nodeMarks paragraph].
    now rewrite Hmb, Hmr, Hyes.
Qed.

(** The accept puts an ordinary paragraph with the captured text in the
    place of the heading. *)
Lemma accept_step :
  dispatch doc (ReplaceRange (ctxPos c) (ctxPos c + nodeSize h) [generatedParagraph t])
  = Some (ElemNode nm a mk (plug c [paragraph t])).
Proof.
  destruct accept_slice as (Hstep & Htriv & Hblock & _).
  cbn [dispatch]. unfold Transform.replaceRange.
  rewrite (parentAt_plug c h nm a mk hole_valid).
  destruct (holeParent nm c) as [[pn b] r] eqn:Ehole. cbn [fst snd] in *.
  rewrite Htriv, Hblock. cbn [generatedParagraph createParagraph nodeMarks isEmpty negb andb].
  unfold Transform.replace. cbn [isEmpty]. rewrite andb_false_r.
  fold (createParagraph [("class", AttrStr "generated")] [TextNode t []] [mkMark "generated"]).
  fold (generatedParagraph t). rewrite Hstep.
  apply (replace_plug c h [paragraph t] nm a mk hole_valid). apply seam_elem.
Qed.

(** The reject takes the heading out, and leaves the filler in a node
    that the heading was the only child of. *)
Lemma reject_slice :
  Transform.replaceStep doc (ctxPos c) (ctxPos c + nodeSize h) [] = Some (leftInHole c)
  /\ validContent parent (before ++ leftInHole c ++ after) = true.
Proof.
  destruct hole_place as (e & E & Hplace & Hmb & Hmr & _).
  rewrite (leftInHole_parent c nm).
  unfold Transform.replaceStep. rewrite (parentAt_plug c h nm a mk hole_valid).
  destruct (holeParent nm c) as [[pn b] r]. cbn [fst snd] in *.
  unfold Transform.fitsTrivially, validContent, matchesContent. rewrite E.
  cbn [app forallb]. rewrite andb_true_r.
  destruct Hplace as [[-> [Hb Hr]] | [-> [Hne Hm]]].
  - destruct b as [|b0 b]; [destruct r as [|r0 r]|].
    + cbn. unfold Transform.fit. cbn [map]. rewrite E. split; [reflexivity|].
      unfold allowsMarks. now rewrite E.
    + cbn [app] in *. cbn [matchFragment isEmpty negb andb]. rewrite Hr.
      split; [reflexivity|]. cbn [app]. now rewrite Hmr.
    + assert (Hall : forallb inBlockGroup ((b0 :: b) ++ r) = true)
        by (now rewrite forallb_app, Hb, Hr).
      assert (Hallm : forallb (fun child => allowsMarks pn (nodeMarks child))
                        ((b0 :: b) ++ r) = true)
        by (now rewrite forallb_app, Hmb, Hmr).
      cbn [app matchFragment isEmpty negb andb] in *. rewrite Hall, Hallm.
      split; reflexivity.
  - destruct b as [|b0 b]; [contradiction|].
    assert (Hallm : forallb (fun child => allowsMarks pn (nodeMarks child))
                      ((b0 :: b) ++ r) = true)
      by (now rewrite forallb_app, Hmb, Hmr).
    cbn [app] in *. rewrite Hm, Hallm. split; reflexivity.
Qed.

Lemma reject_step :
  dispatch doc (Delete (ctxPos c) (ctxPos c + nodeSize h))
  = Some (ElemNode nm a mk (plug c (leftInHole c))).
Proof.
  destruct reject_slice as [Hstep _].
  cbn [dispatch]. unfold Transform.delete, Transform.replace.
  pose proof (valid_size h (plug_valid_hole c h
                             (proj1 (proj2 (valid_parent nm a mk c h [] hole_valid))))) as Hsz.
  replace (ctxPos c =? ctxPos c + nodeSize h) with false
    by (symmetry; apply Nat.eqb_neq; lia).
  cbn [andb]. rewrite Hstep.
  apply (replace_plug c h (leftInHole c) nm a mk hole_valid).
  rewrite (leftInHole_parent c nm).
  destruct (snd (fst (holeParent nm c))), (snd (holeParent nm c));
    try (apply (seam_empty c h nm a mk hole_valid), (provisional_block _ _ Hh)).
  apply seam_elem.
Qed.

Lemma paragraph_conforms : conforms (paragraph t) = true.
Proof.
  pose proof text_conforms as H. cbn [conforms] in H.
  cbn. now rewrite H.
Qed.

Lemma accept_conforms : conforms (ElemNode nm a mk (plug c [paragraph t])) = true.
Proof.
  destruct accept_slice as (_ & _ & _ & Hv).
  apply (conforms_plug c h [paragraph t] nm a mk Hdoc Hv).
  cbn [forallb]. now rewrite paragraph_conforms.
Qed.

Lemma reject_conforms : conforms (ElemNode nm a mk (plug c (leftInHole c))) = true.
Proof.
  destruct reject_slice as [_ Hv].
  apply (conforms_plug c h (leftInHole c) nm a mk Hdoc Hv).
  rewrite (leftInHole_parent c nm).
  destruct (snd (fst (holeParent nm c))), (snd (holeParent nm c)); reflexivity.
Qed.

End Steps.

End TransformSpec.

(** ** The reject *)

Module RejectSpec.
Import ProseMirror Places Invariants ProseMirrorFacts SchemaSpec ReplaceSpec LookupSpec.
Import MatchSpec AcceptReject AcceptRejectSpec TransformSpec Examples.



End RejectSpec.

(** ** The accept/reject flow: what it keeps *)

Module AcceptRejectKeeps.
Import ProseMirror Places Invariants ProseMirrorFacts SchemaSpec ReplaceSpec LookupSpec.
Import MatchSpec AcceptReject AcceptRejectSpec TransformSpec PlacesText Examples.

Lemma fragmentText_cons (x : Node) (l : Fragment) :
  fragmentText (x :: l) = (textContent x ++ fragmentText l)%string.
Proof.
  unfold fragmentText. cbn [map String.concat].
  destruct (map textContent l); [now rewrite TextBetweenSpec.sapp_nil_r | reflexivity].
Qed.

Lemma fragmentText_app (l1 l2 : Fragment) :
  fragmentText (l1 ++ l2) = (fragmentText l1 ++ fragmentText l2)%string.
Proof.
  induction l1 as [|x l1 IH]; [reflexivity|].
  cbn [app]. now rewrite !fragmentText_cons, IH, TextBetweenSpec.sapp_assoc.
Qed.

Lemma textContent_elem nm a mk (c : Fragment) :
  textContent (ElemNode nm a mk c) = fragmentText c.
Proof. reflexivity. Qed.

(** The text of a fragment with [x] in the hole. *)
Lemma fragmentText_plug (c : FragCtx) (x : Fragment) :
  fragmentText (plug c x) = (textBefore c ++ fragmentText x ++ textAfter c)%string.
Proof.
  induction c as [b r | b nm a mk inner IH r]; cbn [plug textBefore textAfter].
  - now rewrite !fragmentText_app.
  - rewrite fragmentText_app, fragmentText_cons, textContent_elem, IH.
    now rewrite !TextBetweenSpec.sapp_assoc.
Qed.

Lemma fragmentSize_nil : fragmentSize [] = 0.
Proof. reflexivity. Qed.

Lemma fragmentSize_one (x : Node) : fragmentSize [x] = nodeSize x.
Proof. rewrite fragmentSize_cons, fragmentSize_nil. lia. Qed.

(** The size of a fragment with [x] in the hole in place of [h]. *)
Lemma fragmentSize_plug (c : FragCtx) (h : Node) (x : Fragment) :
  forallb valid (plug c [h]) = true ->
  fragmentSize (plug c x) + nodeSize h = fragmentSize (plug c [h]) + fragmentSize x.
Proof.
  induction c as [b r | b nm a mk inner IH r]; cbn [plug]; intros Hv.
  - rewrite !fragmentSize_app, fragmentSize_cons, fragmentSize_nil. lia.
  - rewrite forallb_app in Hv. apply andb_true_iff in Hv as [_ Hv].
    cbn [forallb] in Hv. apply andb_true_iff in Hv as [Hv _].
    apply valid_parent in Hv as [Hl [Hc _]].
    rewrite !fragmentSize_app, !fragmentSize_cons, !nodeSize_elem, Hl.
    specialize (IH Hc). lia.
Qed.

(** After the accept of the only node that passes the test of the
    lookup, a second accept with the same captured text finds no node,
    builds no transaction and leaves the document as it is. *)
Lemma second_accept_finds_nothing (t : string) (c : FragCtx) (h : Node) nm a mk :
  conforms (ElemNode nm a mk (plug c [h])) = true ->
  matchesIn (isProvisional t) (ElemNode nm a mk (plug c [h])) = [(c, h)] ->
  lookup t (ElemNode nm a mk (plug c [paragraph t])) = (0, 0)
  /\ transaction confirm t (ElemNode nm a mk (plug c [paragraph t])) = None
  /\ forall data shown,
       handleEditorAction confirm
         (mkComponent (Some (ElemNode nm a mk (plug c [paragraph t]))) data
                      (Some (mkElement "H6" t)) shown)
       = Some (mkComponent (Some (ElemNode nm a mk (plug c [paragraph t]))) None None false).
Proof.
  intros Hc Hm.
  assert (Hp : isProvisional t h = true).
  { apply (matchesIn_placed (isProvisional t) (ElemNode nm a mk (plug c [h])) c h).
    rewrite Hm. now left. }
  assert (Hnone : matchesIn (isProvisional t) (ElemNode nm a mk (plug c [paragraph t])) = []).
  { rewrite matchesIn_content. cbn [nodeContent].
    apply (matchesIn_emptied t "paragraph" [] [] [TextNode t []]
             (ElemNode nm a mk (plug c [h])) eq_refl eq_refl c h Hm). }
  pose proof (conforms_valid _ (accept_conforms t c h nm a mk Hc Hp)) as Hv1.
  assert (Hl1 : lookup t (ElemNode nm a mk (plug c [paragraph t])) = (0, 0)).
  { rewrite (lookup_last t _ Hv1), Hnone. reflexivity. }
  split; [exact Hl1|].
  unfold handleEditorAction, transaction. cbn [popoverTarget editorDoc innerText].
  rewrite Hl1. cbn. auto.
Qed.

(** X20: the handler keeps the document conforming to the schema.  On a
    document that conforms to the schema, with a target, an accept or a
    reject always goes through: the document afterwards conforms to the
    schema again (the content of every node matches the content expression
    of its type, and no node holds a child with a mark it does not allow)
    and is a node of the same type, it is the document itself when no node
    passes the test of the lookup, and the completion data, the target and
    the popover are cleared in either case. *)
Theorem handle_keeps_valid (action : Action) (comp : Component) (target : HTMLElement)
    (doc : Node) :
  popoverTarget comp = Some target ->
  editorDoc comp = Some doc ->
  conforms doc = true ->
  exists doc',
    handleEditorAction action comp = Some (mkComponent (Some doc') None None false)
    /\ conforms doc' = true
    /\ typeName doc' = typeName doc
    /\ (matchesIn (isProvisional (innerText target)) doc = [] -> doc' = doc).
Proof.
  intros Ht Hd Hc. pose proof (conforms_valid doc Hc) as Hv.
  unfold handleEditorAction, transaction. rewrite Ht, Hd.
  destruct (lookup (innerText target) doc) as [from to] eqn:Hl.
  destruct (lookup_found (innerText target) doc from to Hv Hl)
    as [[E Hnone] | [Hne (c & h & nm & a & mk & -> & Hp & -> & -> & ms & Hms)]].
  - subst to. rewrite Nat.eqb_refl. cbn [negb]. exists doc. auto.
  - replace (ctxPos c =? ctxPos c + nodeSize h) with false
      by (symmetry; apply Nat.eqb_neq; exact Hne).
    cbn [negb].
    assert (Hno : matchesIn (isProvisional (innerText target))
                    (ElemNode nm a mk (plug c [h])) = [] -> False).
    { rewrite Hms. intros H. apply (f_equal (@length _)) in H.
      rewrite length_app in H. cbn in H. lia. }
    destruct action.
    + rewrite (accept_step (innerText target) c h nm a mk Hc Hp).
      eexists. split; [reflexivity|]. split; [|split; [reflexivity|]].
      * exact (accept_conforms (innerText target) c h nm a mk Hc Hp).
      * intros H. destruct (Hno H).
    + rewrite (reject_step (innerText target) c h nm a mk Hc Hp).
      eexists. split; [reflexivity|]. split; [|split; [reflexivity|]].
      * exact (reject_conforms (innerText target) c h nm a mk Hc Hp).
      * intros H. destruct (Hno H).
Qed.

(** The heading that is all the document holds is rejected: the
    document afterwards holds an empty paragraph. *)
Lemma handle_keeps_valid_witness :
  exists doc',
    handleEditorAction delete
      (mkComponent (Some (document [heading6 "a"])) (Some "a") (Some (mkElement "H6" "a")) true)
    = Some (mkComponent (Some doc') None None false)
    /\ conforms doc' = true
    /\ typeName doc' = typeName (document [heading6 "a"])
    /\ (matchesIn (isProvisional (innerText (mkElement "H6" "a"))) (document [heading6 "a"]) = []
        -> doc' = document [heading6 "a"]).
Proof.
  exact (handle_keeps_valid delete
           (mkComponent (Some (document [heading6 "a"])) (Some "a")
                        (Some (mkElement "H6" "a")) true)
           (mkElement "H6" "a") (document [heading6 "a"]) eq_refl eq_refl eq_refl).
Defined.

(** X21: what an accept and a reject do to the text and to the size of a
    document that conforms to the schema and in which the lookup finds a
    node.  The text of the document is the text before the node, the text
    of the node and the text after it.  The accept puts a paragraph
    without attributes and without marks that holds the captured text in
    the place of the node: the text is the same with the captured text in
    the place of the node's text, and the size changes by the difference
    between the node and that paragraph.  The reject takes the node out and
    leaves an empty paragraph in its place when the node was the only child
    of its parent, and nothing otherwise: the text is the text before and
    the text after, and the document is smaller by the size of the node,
    less the two positions of the empty paragraph where there is one. *)
Theorem handle_text (comp : Component) (target : HTMLElement) (doc : Node)
    (from to : nat) :
  popoverTarget comp = Some target ->
  editorDoc comp = Some doc ->
  conforms doc = true ->
  lookup (innerText target) doc = (from, to) ->
  from <> to ->
  exists c h nm a mk,
    doc = ElemNode nm a mk (plug c [h])
    /\ isProvisional (innerText target) h = true
    /\ from = ctxPos c /\ to = from + nodeSize h
    /\ textContent doc = (textBefore c ++ textContent h ++ textAfter c)%string
    /\ let accepted :=
         ElemNode nm a mk
           (plug c [ElemNode "paragraph" [] [] [TextNode (innerText target) []]]) in
       let rejected := ElemNode nm a mk (plug c (leftInHole c)) in
       handleEditorAction confirm comp = Some (mkComponent (Some accepted) None None false)
       /\ textContent accepted = (textBefore c ++ innerText target ++ textAfter c)%string
       /\ nodeSize accepted + nodeSize h
          = nodeSize doc + (2 + String.length (innerText target))
       /\ handleEditorAction delete comp = Some (mkComponent (Some rejected) None None false)
       /\ textContent rejected = (textBefore c ++ textAfter c)%string
       /\ nodeSize rejected + nodeSize h = nodeSize doc + fragmentSize (leftInHole c)
       /\ leftInHole c
          = match snd (fst (holeParent nm c)), snd (holeParent nm c) with
            | [], [] => [ElemNode "paragraph" [] [] []]
            | _, _ => []
            end.
Proof.
  intros Ht Hd Hc Hl Hne. pose proof (conforms_valid doc Hc) as Hv.
  destruct (lookup_found (innerText target) doc from to Hv Hl)
    as [[E _] | [_ (c & h & nm & a & mk & -> & Hp & -> & -> & _)]]; [contradiction|].
  pose proof Hv as Hv0. apply valid_parent in Hv0 as [Hleaf [Hvc _]].
  exists c, h, nm, a, mk.
  assert (Hneq : (ctxPos c =? ctxPos c + nodeSize h) = false)
    by (apply Nat.eqb_neq; exact Hne).
  split; [reflexivity|]. split; [exact Hp|]. split; [reflexivity|]. split; [reflexivity|].
  split; [rewrite textContent_elem, fragmentText_plug, fragmentText_cons;
          cbn [fragmentText map String.concat];
          now rewrite TextBetweenSpec.sapp_nil_r|].
  cbv zeta. fold (paragraph (innerText target)).
  split.
  { unfold handleEditorAction, transaction. rewrite Ht, Hd, Hl, Hneq.
    cbn [negb]. now rewrite (accept_step (innerText target) c h nm a mk Hc Hp). }
  split.
  { rewrite textContent_elem, fragmentText_plug. reflexivity. }
  split.
  { rewrite !nodeSize_elem, Hleaf.
    pose proof (fragmentSize_plug c h [paragraph (innerText target)] Hvc) as Hs.
    rewrite fragmentSize_one in Hs.
    assert (Hg : nodeSize (paragraph (innerText target))
                 = 2 + String.length (innerText target)).
    { unfold paragraph. rewrite nodeSize_elem.
      cbn [leafType String.eqb Ascii.eqb Bool.eqb orb].
      now rewrite fragmentSize_one. }
    rewrite Hg in Hs. lia. }
  split.
  { unfold handleEditorAction, transaction. rewrite Ht, Hd, Hl, Hneq.
    cbn [negb]. now rewrite (reject_step (innerText target) c h nm a mk Hc Hp). }
  split.
  { rewrite textContent_elem, fragmentText_plug.
    rewrite (leftInHole_parent c nm).
    destruct (snd (fst (holeParent nm c))), (snd (holeParent nm c)); reflexivity. }
  split.
  { rewrite !nodeSize_elem, Hleaf.
    pose proof (fragmentSize_plug c h (leftInHole c) Hvc) as Hs. lia. }
  apply leftInHole_parent.
Qed.

Lemma handle_text_witness :
  let doc := document [paragraph "a"; ElemNode "blockquote" [] [] [heading6 "b"]] in
  let comp := mkComponent (Some doc) (Some "b") (Some (mkElement "H6" "b")) true in
  exists c h nm a mk,
    doc = ElemNode nm a mk (plug c [h])
    /\ isProvisional "b" h = true
    /\ 4 = ctxPos c /\ 7 = 4 + nodeSize h
    /\ textContent doc = (textBefore c ++ textContent h ++ textAfter c)%string
    /\ let accepted :=
         ElemNode nm a mk (plug c [ElemNode "paragraph" [] [] [TextNode "b" []]]) in
       let rejected := ElemNode nm a mk (plug c (leftInHole c)) in
       handleEditorAction confirm comp = Some (mkComponent (Some accepted) None None false)
       /\ textContent accepted = (textBefore c ++ "b" ++ textAfter c)%string
       /\ nodeSize accepted + nodeSize h = nodeSize doc + (2 + String.length "b")
       /\ handleEditorAction delete comp = Some (mkComponent (Some rejected) None None false)
       /\ textContent rejected = (textBefore c ++ textAfter c)%string
       /\ nodeSize rejected + nodeSize h = nodeSize doc + fragmentSize (leftInHole c)
       /\ leftInHole c
          = match snd (fst (holeParent nm c)), snd (holeParent nm c) with
            | [], [] => [ElemNode "paragraph" [] [] []]
            | _, _ => []
            end.
Proof.
  exact (handle_text
           (mkComponent
              (Some (document [paragraph "a"; ElemNode "blockquote" [] [] [heading6 "b"]]))
              (Some "b") (Some (mkElement "H6" "b")) true)
           (mkElement "H6" "b")
           (document [paragraph "a"; ElemNode "blockquote" [] [] [heading6 "b"]])
           4 7 eq_refl eq_refl eq_refl eq_refl ltac:(discriminate)).
Defined.

(** In the document of the witness the heading is the only child of the
    block quote: the reject leaves the quote with an empty paragraph. *)
Example reject_in_quote_leaves_filler :
  handleEditorAction delete
    (mkComponent
       (Some (document [paragraph "a"; ElemNode "blockquote" [] [] [heading6 "b"]]))
       (Some "b") (Some (mkElement "H6" "b")) true)
  = Some (mkComponent
            (Some (document [paragraph "a";
                             ElemNode "blockquote" [] [] [ElemNode "paragraph" [] [] []]]))
            None None false).
Proof. reflexivity. Qed.

(** X22: the handler acts once for each activation.  What a call of the
    handler leaves behind, a second call leaves as it is, whichever of the
    two actions each of them is: the first call has cleared the target, so
    that nothing is looked up again until a provisional element is
    activated anew, also when the document still holds a node with the
    same text. *)
Theorem handle_once (first second : Action) (comp comp' : Component) :
  handleEditorAction first comp = Some comp' ->
  handleEditorAction second comp' = Some comp'.
Proof.
  unfold handleEditorAction.
  destruct (popoverTarget comp) as [target|] eqn:Ht.
  - destruct (editorDoc comp) as [doc|] eqn:Hd.
    + destruct (match transaction first (innerText target) doc with
                | Some op => dispatch doc op
                | None => Some doc
                end) as [doc'|]; [|discriminate].
      intros [= <-]. reflexivity.
    + intros [= <-]. now rewrite Ht, Hd.
  - intros [= <-]. now rewrite Ht.
Qed.

Lemma handle_once_witness :
  handleEditorAction confirm
    (mkComponent (Some (document [heading6 "a"; paragraph "a"])) None None false)
  = Some (mkComponent (Some (document [heading6 "a"; paragraph "a"])) None None false).
Proof.
  exact (handle_once confirm confirm
           (mkComponent (Some (document [heading6 "a"; heading6 "a"])) (Some "a")
                        (Some (mkElement "H6" "a")) true)
           (mkComponent (Some (document [heading6 "a"; paragraph "a"]))
                        None None false)
           eq_refl).
Defined.

(** X23: the test [from !== to] of the handler is exact, and the range
    it dispatches lies in the document.  On a valid document the lookup
    ends with [from <= to] and [to] no greater than the size of the
    document's content; [from] equals [to] exactly when no node passes the
    test, a match at position 0 included, since a valid node is not empty;
    and so a transaction is built exactly when some node passes. *)
Theorem lookup_in_range (action : Action) (localText : string) (doc : Node) :
  valid doc = true ->
  fst (lookup localText doc) <= snd (lookup localText doc)
  /\ snd (lookup localText doc) <= contentSize doc
  /\ (fst (lookup localText doc) = snd (lookup localText doc)
      <-> matchesIn (isProvisional localText) doc = [])
  /\ (transaction action localText doc = None
      <-> matchesIn (isProvisional localText) doc = []).
Proof.
  intros Hv. unfold transaction.
  destruct (lookup localText doc) as [from to] eqn:Hl. cbn [fst snd].
  destruct (lookup_found localText doc from to Hv Hl)
    as [[E Hnone] | [Hne (c & h & nm & a & mk & -> & Hp & -> & -> & ms & Hms)]].
  - subst to. rewrite Nat.eqb_refl. cbn [negb].
    split; [lia|]. split.
    + rewrite (lookup_last localText doc Hv), Hnone in Hl. cbn [rev] in Hl.
      injection Hl as <-. lia.
    + split; split; auto.
  - assert (Hno : matchesIn (isProvisional localText) (ElemNode nm a mk (plug c [h])) = []
                  -> False).
    { rewrite Hms. intros H. apply (f_equal (@length _)) in H.
      rewrite length_app in H. cbn in H. lia. }
    replace (ctxPos c =? ctxPos c + nodeSize h) with false
      by (symmetry; apply Nat.eqb_neq; exact Hne).
    cbn [negb]. split; [lia|]. split.
    + pose proof Hv as Hv0. apply valid_parent in Hv0 as [_ [Hvc _]].
      apply (plug_size c h Hvc).
    + split; split; intros H; try discriminate; try contradiction; destruct (Hno H).
Qed.

Lemma lookup_in_range_witness :
  let doc := document [heading6 "a"; paragraph "x"] in
  fst (lookup "a" doc) <= snd (lookup "a" doc)
  /\ snd (lookup "a" doc) <= contentSize doc
  /\ (fst (lookup "a" doc) = snd (lookup "a" doc)
      <-> matchesIn (isProvisional "a") doc = [])
  /\ (transaction confirm "a" doc = None
      <-> matchesIn (isProvisional "a") doc = []).
Proof.
  exact (lookup_in_range confirm "a" (document [heading6 "a"; paragraph "x"]) eq_refl).
Defined.

End AcceptRejectKeeps.
